(** * GCS_MAVLink: the outbound message scheduler declared in GCS.h

    A shallow embedding of the transmit side of [GCS_MAVLINK] and of the
    channel table of [GCS] (libraries/GCS_MAVLink/GCS.h), together with
    the properties of admission, locking, interval capping, bucket
    grouping and 16-bit time that the design document of the scheduler
    states.

    Inline methods and macros of the header are transcribed from it.
    Methods the header only declares are modelled from the design
    document; each such definition says so in its comment. *)

From Stdlib Require Import ZArith NArith List Bool Lia.
From stdpp Require Import base option list numbers.

Local Open Scope Z_scope.

(** ** Fixed-width unsigned integers

    C++ unsigned arithmetic wraps; every conversion to a fixed width is
    written out with one of these. *)

Definition to_uint8 (z : Z) : Z := z mod 2 ^ 8.
Definition to_uint16 (z : Z) : Z := z mod 2 ^ 16.
Definition to_uint32 (z : Z) : Z := z mod 2 ^ 32.

Definition UINT16_MAX : Z := 65535.

Definition is_uint8 (z : Z) : Prop := 0 <= z < 2 ^ 8.
Definition is_uint16 (z : Z) : Prop := 0 <= z < 2 ^ 16.
Definition is_uint32 (z : Z) : Prop := 0 <= z < 2 ^ 32.

(** ** [ap_message] and [Bitmask<MSG_LAST>]

    [ap_message] is an enumeration (ap_message.h); a value is its
    ordinal.  [Bitmask] (AP_Common/Bitmask.h) is a bit set indexed by
    that ordinal: the mask is the number whose binary digits are the
    member bits. *)

Definition ap_message := N.

Module Bitmask.

Definition t := N.

Definition empty : t := 0%N.
Definition get (m : t) (bit : ap_message) : bool := N.testbit m bit.
Definition set (m : t) (bit : ap_message) : t := N.setbit m bit.
Definition clear (m : t) (bit : ap_message) : t := N.clearbit m bit.

(** [count() == 0] *)
Definition is_empty (m : t) : bool := (m =? 0)%N.

(** index of the lowest 1 digit of a positive number *)
Fixpoint lowest_bit (p : positive) : N :=
  match p with
  | xO q => N.succ (lowest_bit q)
  | _ => 0%N
  end.

(** [first_set()]: the lowest member, [None] for the empty mask (the
    C++ method returns -1). *)
Definition first_set (m : t) : option ap_message :=
  match m with
  | N0 => None
  | Npos p => Some (lowest_bit p)
  end.

End Bitmask.

(** ** Data of one channel *)

(** [deferred_message_t]: a "special" message with a timer of its own. *)
Record deferred_message_t := mk_deferred_message {
  dm_id : ap_message;
  dm_interval_ms : Z;
  dm_last_sent_ms : Z   (* from AP_HAL::millis16() *)
}.

(** [deferred_message_bucket_t]: the messages that share one interval. *)
Record deferred_message_bucket_t := mk_bucket {
  ap_message_ids : Bitmask.t;
  interval_ms : Z;
  last_sent_ms : Z      (* from AP_HAL::millis16() *)
}.

(** One frame handed to the transport: the bytes it was admitted for and
    the transmit space seen by the check that admitted it.  The log of
    these records stands for the bytes written to [_port]. *)
Record tx_record := mk_tx {
  tx_required : Z;
  tx_available : Z
}.

(** [mavlink_msg_entry_t], as far as [send_message] reads it. *)
Record mavlink_msg_entry_t := mk_entry {
  msgid : Z;
  min_msg_len : Z;
  max_msg_len : Z;
  crc_extra : Z
}.

Definition no_bucket_to_send : Z := to_uint8 (-1).

(** The members of [GCS_MAVLINK] the transmit side reads or writes.
    [port_txspace] is what [_port->txspace()] reports; [out_mavlink1]
    and [signing_outgoing] are the framing and signing state of the
    channel that [packet_overhead_chan] consults. *)
Record GCS_MAVLINK := mk_link {
  _locked : bool;
  port_txspace : Z;
  out_mavlink1 : bool;
  signing_outgoing : bool;
  out_of_space_to_send_count : Z;
  stream_slowdown_ms : Z;
  deferred_message : list deferred_message_t;
  deferred_message_bucket : list deferred_message_bucket_t;
  sending_bucket_id : Z;
  bucket_message_ids_to_send : Bitmask.t;
  tx_log : list tx_record
}.

(** Field updates. *)

Definition with_locked (b : bool) (s : GCS_MAVLINK) : GCS_MAVLINK :=
  mk_link b (port_txspace s) (out_mavlink1 s) (signing_outgoing s)
    (out_of_space_to_send_count s) (stream_slowdown_ms s)
    (deferred_message s) (deferred_message_bucket s) (sending_bucket_id s)
    (bucket_message_ids_to_send s) (tx_log s).

Definition with_port_txspace (n : Z) (s : GCS_MAVLINK) : GCS_MAVLINK :=
  mk_link (_locked s) n (out_mavlink1 s) (signing_outgoing s)
    (out_of_space_to_send_count s) (stream_slowdown_ms s)
    (deferred_message s) (deferred_message_bucket s) (sending_bucket_id s)
    (bucket_message_ids_to_send s) (tx_log s).

Definition with_out_of_space (n : Z) (s : GCS_MAVLINK) : GCS_MAVLINK :=
  mk_link (_locked s) (port_txspace s) (out_mavlink1 s) (signing_outgoing s)
    n (stream_slowdown_ms s)
    (deferred_message s) (deferred_message_bucket s) (sending_bucket_id s)
    (bucket_message_ids_to_send s) (tx_log s).

Definition with_deferred (l : list deferred_message_t) (s : GCS_MAVLINK)
  : GCS_MAVLINK :=
  mk_link (_locked s) (port_txspace s) (out_mavlink1 s) (signing_outgoing s)
    (out_of_space_to_send_count s) (stream_slowdown_ms s)
    l (deferred_message_bucket s) (sending_bucket_id s)
    (bucket_message_ids_to_send s) (tx_log s).

Definition with_buckets (l : list deferred_message_bucket_t) (s : GCS_MAVLINK)
  : GCS_MAVLINK :=
  mk_link (_locked s) (port_txspace s) (out_mavlink1 s) (signing_outgoing s)
    (out_of_space_to_send_count s) (stream_slowdown_ms s)
    (deferred_message s) l (sending_bucket_id s)
    (bucket_message_ids_to_send s) (tx_log s).

Definition with_sending (b : Z) (m : Bitmask.t) (s : GCS_MAVLINK)
  : GCS_MAVLINK :=
  mk_link (_locked s) (port_txspace s) (out_mavlink1 s) (signing_outgoing s)
    (out_of_space_to_send_count s) (stream_slowdown_ms s)
    (deferred_message s) (deferred_message_bucket s) b m (tx_log s).

Definition with_tx_log (l : list tx_record) (s : GCS_MAVLINK) : GCS_MAVLINK :=
  mk_link (_locked s) (port_txspace s) (out_mavlink1 s) (signing_outgoing s)
    (out_of_space_to_send_count s) (stream_slowdown_ms s)
    (deferred_message s) (deferred_message_bucket s) (sending_bucket_id s)
    (bucket_message_ids_to_send s) l.

Definition with_stream_slowdown (n : Z) (s : GCS_MAVLINK) : GCS_MAVLINK :=
  mk_link (_locked s) (port_txspace s) (out_mavlink1 s) (signing_outgoing s)
    (out_of_space_to_send_count s) n
    (deferred_message s) (deferred_message_bucket s) (sending_bucket_id s)
    (bucket_message_ids_to_send s) (tx_log s).

(** ** Inline methods of [GCS_MAVLINK] *)

(** [uint16_t txspace() const]: nothing when locked, else what the port
    reports, at most 8192. *)
Definition txspace (s : GCS_MAVLINK) : Z :=
  if _locked s then 0
  else to_uint16 (Z.min (port_txspace s) 8192).

(** [void out_of_space_to_send() { out_of_space_to_send_count++; }] on a
    [uint16_t] member. *)
Definition out_of_space_to_send (s : GCS_MAVLINK) : GCS_MAVLINK :=
  with_out_of_space (to_uint16 (out_of_space_to_send_count s + 1)) s.

(** [void lock(bool _lock)] and [bool locked() const]. *)
Definition lock (_lock : bool) (s : GCS_MAVLINK) : GCS_MAVLINK :=
  with_locked _lock s.

Definition locked (s : GCS_MAVLINK) : bool := _locked s.

(** [bool is_streaming() const] *)
Definition is_streaming (s : GCS_MAVLINK) : bool :=
  negb (sending_bucket_id s =? no_bucket_to_send).

Definition get_stream_slowdown_ms (s : GCS_MAVLINK) : Z :=
  stream_slowdown_ms s.

(** ** Protocol overhead *)

(** The per-frame byte counts of the wire protocol (mavlink headers, not
    part of GCS.h): the legacy framing, the extended framing, and the
    signature trailer. *)
Record framing := mk_framing {
  legacy_overhead : Z;
  extended_overhead : Z;
  signature_len : Z
}.

(** Modelled from the spec: [packet_overhead_chan] is declared in GCS.h
    ([static uint8_t packet_overhead_chan(mavlink_channel_t)]) and
    defined elsewhere.  The overhead depends on whether the channel
    uses the legacy or the extended framing and on whether signing is
    active, which adds a trailer of fixed size. *)
Definition packet_overhead_chan (f : framing) (s : GCS_MAVLINK) : Z :=
  to_uint8
    ((if out_mavlink1 s then legacy_overhead f else extended_overhead f)
     + (if signing_outgoing s then signature_len f else 0)).

(** [uint8_t packet_overhead(void) const] *)
Definition packet_overhead (f : framing) (s : GCS_MAVLINK) : Z :=
  packet_overhead_chan f s.

(** [PAYLOAD_SIZE(chan, id)]:
    [unsigned(packet_overhead_chan(chan) + MAVLINK_MSG_ID_id_LEN)];
    [len] is the length constant of the message. *)
Definition PAYLOAD_SIZE (f : framing) (s : GCS_MAVLINK) (len : Z) : Z :=
  to_uint32 (packet_overhead_chan f s + len).

(** Modelled from the spec: [comm_get_txspace] is defined outside GCS.h.
    The available transmit bytes of a channel are what [txspace()] of
    its link reports; [s] is the link of the channel. *)
Definition comm_get_txspace (s : GCS_MAVLINK) : Z := txspace s.

(** Modelled from the spec: [gcs_out_of_space_to_send] is declared in
    GCS.h and defined elsewhere.  The failure is counted on the link of
    the channel. *)
Definition gcs_out_of_space_to_send (s : GCS_MAVLINK) : GCS_MAVLINK :=
  out_of_space_to_send s.

(** [HAVE_PAYLOAD_SPACE(_chan, id)], for the channel [_chan] of the link
    [s].  The comma operator counts the failure before yielding
    [false]. *)
Definition HAVE_PAYLOAD_SPACE (f : framing) (s : GCS_MAVLINK) (len : Z)
  : bool * GCS_MAVLINK :=
  if comm_get_txspace s >=? PAYLOAD_SIZE f s len then (true, s)
  else (false, gcs_out_of_space_to_send s).

(** Modelled from the spec: [check_payload_size] is declared in GCS.h
    and defined elsewhere.  The admission check computes the required
    bytes as payload length plus protocol overhead, answers whether the
    available transmit bytes reach them, and counts a failure in the
    starved counter. *)
Definition check_payload_size (f : framing) (s : GCS_MAVLINK)
    (max_payload_len : Z) : bool * GCS_MAVLINK :=
  if txspace s <? to_uint32 (packet_overhead f s + max_payload_len)
  then (false, out_of_space_to_send s)
  else (true, s).

(** Modelled from the spec: [_mav_finalize_message_chan_send] belongs to
    the mavlink library.  The transport write of one admitted frame is
    recorded with the bytes it was admitted for and the space seen. *)
Definition _mav_finalize_message_chan_send (f : framing) (s : GCS_MAVLINK)
    (len : Z) : GCS_MAVLINK :=
  with_tx_log
    (mk_tx (to_uint32 (packet_overhead f s + len)) (txspace s) :: tx_log s) s.

(** [void send_message(const char *pkt, const mavlink_msg_entry_t *entry)] *)
Definition send_message (f : framing) (s : GCS_MAVLINK)
    (entry : mavlink_msg_entry_t) : GCS_MAVLINK :=
  let '(ok, s1) := check_payload_size f s (max_msg_len entry) in
  if negb ok then s1
  else _mav_finalize_message_chan_send f s1 (max_msg_len entry).

(** ** The channel table of [GCS] *)

Record GCS := mk_gcs {
  _num_gcs : Z;
  _chan : list (option GCS_MAVLINK)   (* GCS_MAVLINK *_chan[MAVLINK_COMM_NUM_BUFFERS] *)
}.

(** Reading an array: the element, or a read past its end. *)
Inductive array_read (A : Type) : Type :=
  | Read (a : A)
  | OutOfBounds.
Arguments Read {A} a.
Arguments OutOfBounds {A}.

Definition nullptr : option GCS_MAVLINK := None.

(** [chan(const uint8_t ofs)] as generated by
    [GCS_MAVLINK_CHAN_METHOD_DEFINITIONS]. *)
Definition chan (g : GCS) (ofs : Z) : array_read (option GCS_MAVLINK) :=
  if ofs >=? _num_gcs g then Read nullptr
  else match _chan g !! Z.to_nat ofs with
       | Some p => Read p
       | None => OutOfBounds
       end.

(** [uint8_t num_gcs() const] *)
Definition num_gcs (g : GCS) : Z := _num_gcs g.

(** [CHECK_PAYLOAD_SIZE(id)], followed by the rest of the method it is
    used in: the method returns [false] at once when the message does
    not fit. *)
Definition CHECK_PAYLOAD_SIZE (f : framing) (s : GCS_MAVLINK) (len : Z)
    (rest : GCS_MAVLINK -> bool * GCS_MAVLINK) : bool * GCS_MAVLINK :=
  let '(ok, s1) := check_payload_size f s len in
  if negb ok then (false, s1) else rest s1.

(** [send_mission_ack], guarded by [CHECK_PAYLOAD_SIZE2_VOID(chan,
    MISSION_ACK)]; [len] is [MAVLINK_MSG_ID_MISSION_ACK_LEN]. *)
Definition send_mission_ack (f : framing) (s : GCS_MAVLINK) (len : Z)
  : GCS_MAVLINK :=
  let '(ok, s1) := HAVE_PAYLOAD_SPACE f s len in
  if negb ok then s1
  else with_tx_log (mk_tx (PAYLOAD_SIZE f s1 len) (txspace s1) :: tx_log s1) s1.

(** ** The message catalog *)

(** What the scheduler takes from its surroundings: the [ap_message]
    enumeration (its end marker and the three specially handled
    members), the wire length of the message each [ap_message] emits,
    the table from mavlink ids to [ap_message], the framing byte counts,
    the rate of the main loop in Hz, the messages that carry a parameter
    or mission transfer, and the transmit space below which a channel
    counts as behind. *)
Record Catalog := mk_catalog {
  MSG_LAST : ap_message;
  MSG_HEARTBEAT : ap_message;
  MSG_NEXT_PARAM : ap_message;
  MSG_HIGH_LATENCY2 : ap_message;
  msg_len : ap_message -> Z;
  mavlink_table : list (Z * ap_message);
  frame : framing;
  SCHED_LOOP_RATE : Z;
  transfer_ids : Bitmask.t;
  low_water_mark : Z
}.

(** ** 16-bit time *)

(** Modelled from the spec: the scheduler bodies that compare times are
    not in GCS.h.  Timestamps are [uint16_t] values of
    [AP_HAL::millis16()]; the time since [last] is the wrapping
    difference [(now - last) mod 2^16]. *)
Definition elapsed_ms16 (now16_ms last : Z) : Z := to_uint16 (now16_ms - last).

(** Modelled from the spec: a timer with period [interval] that last
    fired at [last] is due when the elapsed time has reached the
    interval; the result is the margin by which it is overdue.  An
    interval of 0 means disabled. *)
Definition overdue_by (now16_ms interval last : Z) : option Z :=
  if interval =? 0 then None
  else
    let e := elapsed_ms16 now16_ms last in
    if interval <=? e then Some (e - interval) else None.

(** Modelled from the spec: the scan for the most overdue timer among
    [(interval, last_sent)] pairs, the lowest index winning a tie.
    [i] is the index of the head of [l]. *)
Fixpoint most_overdue_from (i : nat) (l : list (Z * Z)) (now16_ms : Z)
    (best : option (nat * Z)) : option (nat * Z) :=
  match l with
  | [] => best
  | (interval, last) :: l' =>
      let best' :=
        match overdue_by now16_ms interval last with
        | None => best
        | Some m =>
            match best with
            | Some (_, bm) => if bm <? m then Some (i, m) else best
            | None => Some (i, m)
            end
        end in
      most_overdue_from (S i) l' now16_ms best'
  end.

(** ** Interval store *)

(** Modelled from the spec: [cap_message_interval] is declared in GCS.h
    with the comment that the message rate cannot be greater than
    0.8 * SCHED_LOOP_RATE.  A message every [i] ms has rate [1000 / i]
    Hz, so the rate is within the cap exactly when
    [1250 <= SCHED_LOOP_RATE * i]; the shortest such interval is the
    quotient rounded up. *)
Definition min_message_interval (cat : Catalog) : Z :=
  (1250 + SCHED_LOOP_RATE cat - 1) / SCHED_LOOP_RATE cat.

(** Modelled from the spec: an interval of 0 (disabled) stays 0; an
    interval that is too fast is clamped to the minimum, it is not
    refused. *)
Definition cap_message_interval (cat : Catalog) (interval : Z) : Z :=
  if interval =? 0 then 0
  else if interval <? min_message_interval cat
       then to_uint16 (min_message_interval cat)
       else interval.

(** Modelled from the spec: the search of the static table from mavlink
    ids to [ap_message] (part of [mavlink_id_to_ap_message_id]). *)
Fixpoint table_lookup (tbl : list (Z * ap_message)) (mavlink_id : Z)
  : option ap_message :=
  match tbl with
  | [] => None
  | (k, id) :: tbl' => if k =? mavlink_id then Some id else table_lookup tbl' mavlink_id
  end.

(** Modelled from the spec: [mavlink_id_to_ap_message_id] is declared in
    GCS.h: it "returns MSG_LAST if no such mapping exists". *)
Definition mavlink_id_to_ap_message_id (cat : Catalog) (mavlink_id : Z)
  : ap_message :=
  match table_lookup (mavlink_table cat) mavlink_id with
  | Some id => id
  | None => MSG_LAST cat
  end.

(** Modelled from the spec: [get_deferred_message_index] is declared in
    GCS.h: the index of [id] in [deferred_message[]], or none. *)
Definition get_deferred_message_index (s : GCS_MAVLINK) (id : ap_message)
  : option nat :=
  fst <$> list_find (fun d => dm_id d = id) (deferred_message s).

(** Modelled from the spec: the search for the bucket that holds [id]
    (part of [set_ap_message_interval]), with its index. *)
Definition bucket_of (s : GCS_MAVLINK) (id : ap_message)
  : option (nat * deferred_message_bucket_t) :=
  list_find (fun b => Bitmask.get (ap_message_ids b) id = true)
    (deferred_message_bucket s).

(** Modelled from the spec: a bucket left without members becomes an
    unused slot (part of [remove_message_from_bucket]). *)
Definition free_if_empty (b : deferred_message_bucket_t)
  : deferred_message_bucket_t :=
  if Bitmask.is_empty (ap_message_ids b)
  then mk_bucket (ap_message_ids b) 0 0
  else b.

(** Modelled from the spec: [remove_message_from_bucket] is declared in
    GCS.h.  The bit of [id] is removed from the bucket, which becomes an
    unused slot when it was the last member; when the bucket is the one
    being sent, [id] leaves the sweep mask too, and the cached bucket is
    dropped once nothing is left of the sweep. *)
Definition remove_message_from_bucket (s : GCS_MAVLINK) (bucket : nat)
    (id : ap_message) : GCS_MAVLINK :=
  match deferred_message_bucket s !! bucket with
  | None => s
  | Some b =>
      let b' := free_if_empty
                  (mk_bucket (Bitmask.clear (ap_message_ids b) id)
                             (interval_ms b) (last_sent_ms b)) in
      let s1 := with_buckets (<[bucket := b']> (deferred_message_bucket s)) s in
      if sending_bucket_id s =? Z.of_nat bucket then
        let m := Bitmask.clear (bucket_message_ids_to_send s) id in
        if Bitmask.is_empty m
        then with_sending no_bucket_to_send Bitmask.empty s1
        else with_sending (sending_bucket_id s) m s1
      else s1
  end.

(** Modelled from the spec: the bit of [id] is set in a bucket (part of
    [set_ap_message_interval]). *)
Definition add_message_to_bucket (s : GCS_MAVLINK) (bucket : nat)
    (id : ap_message) : GCS_MAVLINK :=
  match deferred_message_bucket s !! bucket with
  | None => s
  | Some b =>
      with_buckets
        (<[bucket := mk_bucket (Bitmask.set (ap_message_ids b) id)
                               (interval_ms b) (last_sent_ms b)]>
           (deferred_message_bucket s)) s
  end.

(** Modelled from the spec: an unused slot is taken for [interval], its
    timer starting now, and the bit of [id] is set in it (part of
    [set_ap_message_interval]). *)
Definition allocate_bucket (s : GCS_MAVLINK) (bucket : nat) (interval : Z)
    (now16_ms : Z) (id : ap_message) : GCS_MAVLINK :=
  match deferred_message_bucket s !! bucket with
  | None => s
  | Some b =>
      with_buckets
        (<[bucket := mk_bucket (Bitmask.set (ap_message_ids b) id)
                               interval now16_ms]>
           (deferred_message_bucket s)) s
  end.

(** Modelled from the spec: the used bucket whose interval is closest to
    [interval], the lowest index winning a tie (part of
    [set_ap_message_interval]). *)
Fixpoint closest_from (i : nat) (l : list deferred_message_bucket_t)
    (interval : Z) (best : option (nat * Z)) : option (nat * Z) :=
  match l with
  | [] => best
  | b :: l' =>
      let best' :=
        if interval_ms b =? 0 then best
        else
          let delta := Z.abs (interval_ms b - interval) in
          match best with
          | Some (_, d) => if delta <? d then Some (i, delta) else best
          | None => Some (i, delta)
          end in
      closest_from (S i) l' interval best'
  end.

(** Modelled from the spec: the index found by [closest_from]. *)
Definition closest_bucket (s : GCS_MAVLINK) (interval : Z) : option nat :=
  fst <$> closest_from 0 (deferred_message_bucket s) interval None.

(** Modelled from the spec: the regrouping step of
    [set_ap_message_interval].  A message that is in no bucket joins the
    bucket with the matching interval, else takes an unused slot, else,
    with no slot free, is merged into the bucket with the closest
    interval. *)
Definition place_in_bucket (s : GCS_MAVLINK) (now16_ms : Z) (id : ap_message)
    (interval : Z) : bool * GCS_MAVLINK :=
  match list_find (fun b => interval_ms b = interval) (deferred_message_bucket s) with
  | Some (b, _) => (true, add_message_to_bucket s b id)
  | None =>
      match list_find (fun b => interval_ms b = 0) (deferred_message_bucket s) with
      | Some (b, _) => (true, allocate_bucket s b interval now16_ms id)
      | None =>
          match closest_bucket s interval with
          | Some b => (true, add_message_to_bucket s b id)
          | None => (false, s)
          end
      end
  end.

(** Modelled from the spec: [set_ap_message_interval] is declared in
    GCS.h.  An id outside the enumeration is refused without effect.
    The interval is capped.  A special message keeps its own timer in
    [deferred_message[]] and is never grouped.  Any other message is
    regrouped when the new interval alters the grouping: its bit leaves
    its present bucket and, unless the interval is 0 (disabled), is
    placed by [place_in_bucket]. *)
Definition set_ap_message_interval (cat : Catalog) (s : GCS_MAVLINK)
    (now16_ms : Z) (id : ap_message) (interval : Z) : bool * GCS_MAVLINK :=
  if (MSG_LAST cat <=? id)%N then (false, s)
  else
    let interval := cap_message_interval cat interval in
    match get_deferred_message_index s id with
    | Some k =>
        (true,
         with_deferred
           (<[k := mk_deferred_message id interval now16_ms]> (deferred_message s))
           s)
    | None =>
        match bucket_of s id with
        | Some (b, bk) =>
            if interval_ms bk =? interval then (true, s)
            else
              let s1 := remove_message_from_bucket s b id in
              if interval =? 0 then (true, s1)
              else place_in_bucket s1 now16_ms id interval
        | None =>
            if interval =? 0 then (true, s)
            else place_in_bucket s now16_ms id interval
        end
    end.

(** Modelled from the spec: [set_mavlink_message_id_interval] is
    declared in GCS.h: it "returns false on failure (typically because
    there is no mapping from that mavlink ID to an ap_message)". *)
Definition set_mavlink_message_id_interval (cat : Catalog) (s : GCS_MAVLINK)
    (now16_ms : Z) (mavlink_id : Z) (interval : Z) : bool * GCS_MAVLINK :=
  let id := mavlink_id_to_ap_message_id cat mavlink_id in
  if (id =? MSG_LAST cat)%N then (false, s)
  else set_ap_message_interval cat s now16_ms id interval.

(** Modelled from the spec: [get_ap_message_interval] is declared in
    GCS.h; it is a pure read.  A special message has the interval of its
    own timer, any other message the interval of the bucket it is in,
    and no interval when it is in none. *)
Definition get_ap_message_interval (s : GCS_MAVLINK) (id : ap_message)
  : option Z :=
  match get_deferred_message_index s id with
  | Some k => dm_interval_ms <$> deferred_message s !! k
  | None => (fun p => interval_ms (snd p)) <$> bucket_of s id
  end.

(** The interval of [id] is set and is not the disabled one. *)
Definition interval_enabled (s : GCS_MAVLINK) (id : ap_message) : Prop :=
  exists i, get_ap_message_interval s id = Some i /\ i <> 0.

(** [id] is a member of the bucket at index [b]. *)
Definition in_bucket (s : GCS_MAVLINK) (b : nat) (id : ap_message) : Prop :=
  exists bk, deferred_message_bucket s !! b = Some bk
             /\ Bitmask.get (ap_message_ids bk) id = true.

Definition in_exactly_one_bucket (s : GCS_MAVLINK) (id : ap_message) : Prop :=
  exists b, in_bucket s b id /\ forall b', in_bucket s b' id -> b' = b.

(** ** Bucket scheduler *)

Definition special_timers (s : GCS_MAVLINK) : list (Z * Z) :=
  map (fun d => (dm_interval_ms d, dm_last_sent_ms d)) (deferred_message s).

(** [virtual uint16_t min_loop_time_remaining_for_message_send_us() const
    { return 200; }] of [GCS]: the time in microseconds that must remain
    in the main loop before a message may be sent. *)
Definition min_loop_time_remaining_for_message_send_us : Z := 200.

(** Modelled from the spec: [GCS::out_of_time] is declared in GCS.h.
    [time_available_us] is what remains of the time the main loop gave
    to this tick; the time budget of a call is spent when less remains
    than a message send needs. *)
Definition out_of_time (time_available_us : Z) : bool :=
  time_available_us <? min_loop_time_remaining_for_message_send_us.

(** Modelled from the spec: a bucket carries a transfer when one of the
    parameter or mission messages of the catalog is a member. *)
Definition transfer_carrying (cat : Catalog) (b : deferred_message_bucket_t)
  : bool :=
  negb (N.land (ap_message_ids b) (transfer_ids cat) =? 0)%N.

(** Modelled from the spec: the channel is behind when its transmit
    space is below the low-water mark, or when the time budget of this
    tick is spent. *)
Definition behind (cat : Catalog) (s : GCS_MAVLINK) (time_available_us : Z)
  : bool :=
  (txspace s <? low_water_mark cat) || out_of_time time_available_us.

(** Modelled from the spec: [get_reschedule_interval_ms] is declared in
    GCS.h, "When sending parameters and waypoints this may be longer
    than the interval specified".  The interval after which a bucket is
    sent again is its own interval, stretched by the stream slowdown of
    the channel when the bucket carries a transfer and the channel is
    behind; the result is a [uint16_t]. *)
Definition get_reschedule_interval_ms (cat : Catalog) (s : GCS_MAVLINK)
    (time_available_us : Z) (b : deferred_message_bucket_t) : Z :=
  if transfer_carrying cat b && behind cat s time_available_us
  then Z.min (interval_ms b + stream_slowdown_ms s) UINT16_MAX
  else interval_ms b.

(** Modelled from the spec: the timer of a bucket.  An unused slot has
    none (interval 0); a bucket in use is due when the time since it was
    last sent has reached its reschedule interval. *)
Definition bucket_timer (cat : Catalog) (s : GCS_MAVLINK) (time_available_us : Z)
    (b : deferred_message_bucket_t) : Z * Z :=
  (if interval_ms b =? 0 then 0
   else get_reschedule_interval_ms cat s time_available_us b,
   last_sent_ms b).

Definition bucket_timers (cat : Catalog) (s : GCS_MAVLINK) (time_available_us : Z)
  : list (Z * Z) :=
  map (bucket_timer cat s time_available_us) (deferred_message_bucket s).

(** Modelled from the spec: [find_next_bucket_to_send] is declared in
    GCS.h.  All buckets are scanned, the most overdue one becomes the
    cached bucket being sent and its members the sweep still to send;
    with no bucket due there is none. *)
Definition find_next_bucket_to_send (cat : Catalog)
    (now16_ms time_available_us : Z) (s : GCS_MAVLINK) : GCS_MAVLINK :=
  match most_overdue_from 0 (bucket_timers cat s time_available_us) now16_ms None with
  | Some (i, _) =>
      match deferred_message_bucket s !! i with
      | Some b => with_sending (Z.of_nat i) (ap_message_ids b) s
      | None => with_sending no_bucket_to_send Bitmask.empty s
      end
  | None => with_sending no_bucket_to_send Bitmask.empty s
  end.

(** Modelled from the spec: [next_deferred_bucket_message_to_send] is
    declared in GCS.h.  Without a cached bucket the buckets are scanned;
    the candidate is the lowest member of the sweep mask of the cached
    bucket, [None] standing for [no_message_to_send]. *)
Definition next_deferred_bucket_message_to_send (cat : Catalog)
    (now16_ms time_available_us : Z) (s : GCS_MAVLINK)
  : option ap_message * GCS_MAVLINK :=
  let s1 := if sending_bucket_id s =? no_bucket_to_send
            then find_next_bucket_to_send cat now16_ms time_available_us s
            else s in
  if sending_bucket_id s1 =? no_bucket_to_send then (None, s1)
  else (Bitmask.first_set (bucket_message_ids_to_send s1), s1).

(** Modelled from the spec: [deferred_message_to_send_index] is declared
    in GCS.h: the index of a special message that is due, or none. *)
Definition deferred_message_to_send_index (now16_ms : Z) (s : GCS_MAVLINK)
  : option nat :=
  fst <$> most_overdue_from 0 (special_timers s) now16_ms None.

(** Modelled from the spec: [do_try_send_message] is declared in GCS.h.
    The send method of a message starts with [CHECK_PAYLOAD_SIZE] for
    its wire length and writes the frame when admitted. *)
Definition do_try_send_message (cat : Catalog) (s : GCS_MAVLINK)
    (id : ap_message) : bool * GCS_MAVLINK :=
  CHECK_PAYLOAD_SIZE (frame cat) s (msg_len cat id)
    (fun s1 =>
       (true, _mav_finalize_message_chan_send (frame cat) s1 (msg_len cat id))).

(** Modelled from the spec: the bookkeeping of the driver loop after a
    bucket message was sent at [now16_ms].  The message leaves the sweep
    mask; when the sweep is complete the bucket was last sent now, and
    the cached bucket is dropped. *)
Definition bucket_message_sent (now16_ms : Z) (s : GCS_MAVLINK) (id : ap_message)
  : GCS_MAVLINK :=
  let m := Bitmask.clear (bucket_message_ids_to_send s) id in
  if Bitmask.is_empty m then
    let i := Z.to_nat (sending_bucket_id s) in
    match deferred_message_bucket s !! i with
    | Some b =>
        with_sending no_bucket_to_send Bitmask.empty
          (with_buckets
             (<[i := mk_bucket (ap_message_ids b) (interval_ms b) now16_ms]>
                (deferred_message_bucket s)) s)
    | None => with_sending no_bucket_to_send Bitmask.empty s
    end
  else with_sending (sending_bucket_id s) m s.

(** Modelled from the spec: what one call of the driver loop reports. *)
Inductive service_result : Type :=
  | Sent (id : ap_message)
  | NothingDue
  | DeferredNoSpace.

(** Modelled from the spec: one attempt to send the candidate of the
    bucket being sent.  A candidate that is not admitted is not marked
    sent. *)
Definition try_send_bucket_message (cat : Catalog) (s : GCS_MAVLINK)
    (now16_ms : Z) (id : ap_message) : service_result * GCS_MAVLINK :=
  let '(ok, s1) := do_try_send_message cat s id in
  if ok then (Sent id, bucket_message_sent now16_ms s1 id)
  else (DeferredNoSpace, s1).

(** Modelled from the spec: one attempt to send the special message at
    index [k]; when sent, its timer restarts at [now16_ms]. *)
Definition try_send_special_message (cat : Catalog) (s : GCS_MAVLINK)
    (now16_ms : Z) (k : nat) : service_result * GCS_MAVLINK :=
  match deferred_message s !! k with
  | None => (NothingDue, s)
  | Some d =>
      let '(ok, s1) := do_try_send_message cat s (dm_id d) in
      if ok then
        (Sent (dm_id d),
         with_deferred
           (<[k := mk_deferred_message (dm_id d) (dm_interval_ms d) now16_ms]>
              (deferred_message s1)) s1)
      else (DeferredNoSpace, s1)
  end.

(** Modelled from the spec: the timers of the buckets at the indices in
    [tried] are taken out of a scan (part of the fall-through of
    [update_send]). *)
Definition exclude_timers (tried : list nat) (timers : list (Z * Z))
  : list (Z * Z) :=
  imap (fun i t => if bool_decide (i ∈ tried) then (0, snd t) else t) timers.

(** Modelled from the spec: the fall-through of [update_send] when the
    candidate could not be sent.  The buckets that were not tried yet
    are scanned for the next most overdue one, and its lowest member is
    attempted; when it is admitted that bucket becomes the bucket being
    sent, else the scan goes on without it.  With no bucket left the
    call ends without a message.  [fuel] bounds the number of scans; the
    number of buckets is enough. *)
Fixpoint fall_through (cat : Catalog) (fuel : nat)
    (now16_ms time_available_us : Z) (tried : list nat) (s : GCS_MAVLINK)
  : service_result * GCS_MAVLINK :=
  match fuel with
  | O => (DeferredNoSpace, s)
  | S fuel' =>
      match most_overdue_from 0
              (exclude_timers tried (bucket_timers cat s time_available_us))
              now16_ms None with
      | None => (DeferredNoSpace, s)
      | Some (i, _) =>
          match deferred_message_bucket s !! i with
          | None => (DeferredNoSpace, s)
          | Some b =>
              match Bitmask.first_set (ap_message_ids b) with
              | None =>
                  fall_through cat fuel' now16_ms time_available_us (i :: tried) s
              | Some id =>
                  let '(ok, s1) := do_try_send_message cat s id in
                  if ok then
                    (Sent id,
                     bucket_message_sent now16_ms
                       (with_sending (Z.of_nat i) (ap_message_ids b) s1) id)
                  else
                    fall_through cat fuel' now16_ms time_available_us
                      (i :: tried) s1
              end
          end
      end
  end.

(** Modelled from the spec: [update_send] is declared in GCS.h; this is
    one call of the driver loop at time [now16_ms] with
    [time_available_us] left of the time budget.  A locked channel sends
    nothing and touches no state, and so does a call whose time budget
    is spent.  The special messages are looked at before the buckets,
    and at most one message is written.  When the candidate of the
    bucket being sent is not admitted it is not marked sent, and the
    call falls through to the next most overdue buckets. *)
Definition update_send (cat : Catalog) (s : GCS_MAVLINK)
    (now16_ms time_available_us : Z) : service_result * GCS_MAVLINK :=
  if locked s then (NothingDue, s)
  else if out_of_time time_available_us then (NothingDue, s)
  else
    match deferred_message_to_send_index now16_ms s with
    | Some k => try_send_special_message cat s now16_ms k
    | None =>
        let '(next, s1) :=
          next_deferred_bucket_message_to_send cat now16_ms time_available_us s in
        match next with
        | None => (NothingDue, s1)
        | Some id =>
            let '(r, s2) := try_send_bucket_message cat s1 now16_ms id in
            match r with
            | DeferredNoSpace =>
                fall_through cat (length (deferred_message_bucket s2))
                  now16_ms time_available_us
                  [Z.to_nat (sending_bucket_id s2)] s2
            | _ => (r, s2)
            end
        end
    end.

(** ** States of a channel *)

(** Modelled from the spec: the constructor of [GCS_MAVLINK] is declared
    in GCS.h.  A freshly constructed link (with [HAL_HIGH_LATENCY2_ENABLED], so
    that [deferred_message[]] has its three entries): no special message
    and no bucket has an interval yet, nothing is cached, nothing was
    written.  The framing state and the port are whatever the channel
    was opened with. *)
Definition init (cat : Catalog) (mavlink1 signing : bool) (port : Z)
  : GCS_MAVLINK :=
  mk_link false port mavlink1 signing 0 0
    [ mk_deferred_message (MSG_HEARTBEAT cat) 0 0;
      mk_deferred_message (MSG_NEXT_PARAM cat) 0 0;
      mk_deferred_message (MSG_HIGH_LATENCY2 cat) 0 0 ]
    (replicate 10 (mk_bucket Bitmask.empty 0 0))
    no_bucket_to_send Bitmask.empty [].

(** The states a channel goes through: intervals are set, the driver
    loop runs, messages are sent directly, the channel is locked and
    unlocked, the port drains and fills, and the stream slowdown is
    adjusted. *)
Inductive reachable (cat : Catalog) : GCS_MAVLINK -> Prop :=
  | reach_init mavlink1 signing port :
      is_uint32 port -> reachable cat (init cat mavlink1 signing port)
  | reach_set_interval s now16_ms id interval :
      reachable cat s -> is_uint16 now16_ms -> is_uint16 interval ->
      reachable cat (snd (set_ap_message_interval cat s now16_ms id interval))
  | reach_set_mavlink_interval s now16_ms mavlink_id interval :
      reachable cat s -> is_uint16 now16_ms -> is_uint16 interval ->
      reachable cat
        (snd (set_mavlink_message_id_interval cat s now16_ms mavlink_id interval))
  | reach_update_send s now16_ms time_available_us :
      reachable cat s -> is_uint16 now16_ms ->
      reachable cat (snd (update_send cat s now16_ms time_available_us))
  | reach_send_message s entry :
      reachable cat s -> reachable cat (send_message (frame cat) s entry)
  | reach_lock s b :
      reachable cat s -> reachable cat (lock b s)
  | reach_port s n :
      reachable cat s -> is_uint32 n -> reachable cat (with_port_txspace n s)
  | reach_slowdown s n :
      reachable cat s -> is_uint16 n -> reachable cat (with_stream_slowdown n s).

(** The special messages are members of the enumeration, and the main
    loop has a rate. *)
Definition catalog_ok (cat : Catalog) : Prop :=
  0 < SCHED_LOOP_RATE cat.

Definition is_special (cat : Catalog) (id : ap_message) : Prop :=
  id = MSG_HEARTBEAT cat \/ id = MSG_NEXT_PARAM cat \/ id = MSG_HIGH_LATENCY2 cat.

(** ** A small catalog to evaluate the definitions on *)

Definition mavlink2_framing : framing := mk_framing 8 12 13.

Definition small_catalog : Catalog :=
  mk_catalog 64%N 0%N 1%N 2%N
    (fun id => if (id =? 7)%N then 40 else 28)
    [(0, 0%N); (30, 5%N); (33, 6%N); (74, 7%N)]
    mavlink2_framing 400 (Bitmask.set Bitmask.empty 6%N) 64.

Definition small_link : GCS_MAVLINK := init small_catalog false false 100.

(** Every frame in the log was admitted: the bytes it needs were
    available when it was checked. *)
Definition admitted (r : tx_record) : Prop := tx_required r <= tx_available r.

(** A stored interval is within the cap: it is the disabled one, or the
    rate it stands for is at most 0.8 times the loop rate. *)
Definition capped (cat : Catalog) (interval : Z) : Prop :=
  interval = 0 \/ min_message_interval cat <= interval.

(** The small link after the heartbeat was given an interval of one
    second, and after message 5 was given 100 ms. *)
Definition heartbeat_link : GCS_MAVLINK :=
  snd (set_ap_message_interval small_catalog small_link 10
         (MSG_HEARTBEAT small_catalog) 1000).

Definition streaming_link : GCS_MAVLINK :=
  snd (set_ap_message_interval small_catalog small_link 10 5%N 100).

(** The small link after ten messages were given ten different
    intervals: every bucket slot is in use. *)
Definition set_intervals (cat : Catalog) (l : list (ap_message * Z))
    (s : GCS_MAVLINK) : GCS_MAVLINK :=
  fold_left (fun s p => snd (set_ap_message_interval cat s 10 (fst p) (snd p))) l s.

Definition full_link : GCS_MAVLINK :=
  set_intervals small_catalog
    [(10%N, 100); (11%N, 200); (12%N, 300); (13%N, 400); (14%N, 500);
     (15%N, 600); (16%N, 700); (17%N, 800); (18%N, 900); (19%N, 1000)]
    small_link.

(** ** Invariants of a channel *)

(** No message is a member of two buckets. *)
Definition buckets_disjoint (l : list deferred_message_bucket_t) : Prop :=
  forall i j bi bj id,
    l !! i = Some bi -> l !! j = Some bj ->
    Bitmask.get (ap_message_ids bi) id = true ->
    Bitmask.get (ap_message_ids bj) id = true ->
    i = j.

(** [id] is a member of no bucket. *)
Definition absent (l : list deferred_message_bucket_t) (id : ap_message) : Prop :=
  forall j bj, l !! j = Some bj -> Bitmask.get (ap_message_ids bj) id = false.

(** The bucket array: ten slots, disjoint members, capped intervals. *)
Definition buckets_ok (cat : Catalog) (l : list deferred_message_bucket_t)
  : Prop :=
  length l = 10%nat
  /\ buckets_disjoint l
  /\ Forall (fun b => capped cat (interval_ms b)) l.

(** What holds of a channel at all times. *)
Definition link_inv (cat : Catalog) (s : GCS_MAVLINK) : Prop :=
  buckets_ok cat (deferred_message_bucket s)
  /\ map dm_id (deferred_message s)
     = [MSG_HEARTBEAT cat; MSG_NEXT_PARAM cat; MSG_HIGH_LATENCY2 cat]
  /\ Forall (fun d => capped cat (dm_interval_ms d)) (deferred_message s)
  /\ Forall admitted (tx_log s).

(** No special message is a member of a bucket. *)
Definition specials_apart (cat : Catalog) (l : list deferred_message_bucket_t)
  : Prop :=
  forall id, is_special cat id -> absent l id.

(** A bucket that has a member is in use: its interval is not 0. *)
Definition members_in_use (l : list deferred_message_bucket_t) : Prop :=
  forall i b id,
    l !! i = Some b -> Bitmask.get (ap_message_ids b) id = true ->
    interval_ms b <> 0.

(** The sweep still to send is part of the members of the bucket being
    sent. *)
Definition sweep_ok (s : GCS_MAVLINK) : Prop :=
  sending_bucket_id s = no_bucket_to_send
  \/ exists i b,
       sending_bucket_id s = Z.of_nat i
       /\ deferred_message_bucket s !! i = Some b
       /\ forall id, Bitmask.get (bucket_message_ids_to_send s) id = true ->
                     Bitmask.get (ap_message_ids b) id = true.

(** What holds of the buckets and the sweep at all times. *)
Definition sched_inv (cat : Catalog) (s : GCS_MAVLINK) : Prop :=
  specials_apart cat (deferred_message_bucket s)
  /\ members_in_use (deferred_message_bucket s)
  /\ sweep_ok s.

(** The bytes message [id] needs on the channel. *)
Definition required_bytes (cat : Catalog) (s : GCS_MAVLINK) (id : ap_message)
  : Z :=
  to_uint32 (packet_overhead (frame cat) s + msg_len cat id).

(** The small link with room for 45 bytes only, after message 7 (52
    bytes on the wire) was given 100 ms and message 5 (40 bytes) 200 ms:
    message 7 is alone in bucket 0 and message 5 in bucket 1. *)
Definition congested_link : GCS_MAVLINK :=
  snd (set_ap_message_interval small_catalog
         (snd (set_ap_message_interval small_catalog
                 (with_port_txspace 45 small_link) 10 7%N 100))
         10 5%N 200).

(** The same with message 6 (40 bytes) in the bucket of message 5. *)
Definition congested_link_two : GCS_MAVLINK :=
  snd (set_ap_message_interval small_catalog congested_link 10 6%N 200).

(** The small link with room for 60 bytes, below the low-water mark of
    64, and a stream slowdown of 50 ms, after message 6, which carries a
    transfer, was given 100 ms at time 10. *)
Definition slowed_link : GCS_MAVLINK :=
  with_stream_slowdown 50
    (with_port_txspace 60
       (snd (set_ap_message_interval small_catalog small_link 10 6%N 100))).

(** The members the scheduler does not own are the same in both states. *)
Definition same_channel (s s' : GCS_MAVLINK) : Prop :=
  _locked s' = _locked s
  /\ port_txspace s' = port_txspace s
  /\ out_mavlink1 s' = out_mavlink1 s
  /\ signing_outgoing s' = signing_outgoing s
  /\ out_of_space_to_send_count s' = out_of_space_to_send_count s
  /\ stream_slowdown_ms s' = stream_slowdown_ms s
  /\ tx_log s' = tx_log s.

(** ** Timers read by the wrapping difference

    What the comparisons of the scheduler are to decide: the timer
    [(interval, last_sent)] is due at [now16_ms] when it is enabled and
    [(now16_ms - last_sent) mod 2^16] has reached the interval, and the
    margin by which it is overdue is what that difference exceeds the
    interval by. *)
Definition due (now16_ms : Z) (t : Z * Z) : Prop :=
  fst t <> 0 /\ fst t <= (now16_ms - snd t) mod 2 ^ 16.

Definition margin (now16_ms : Z) (t : Z * Z) : Z :=
  (now16_ms - snd t) mod 2 ^ 16 - fst t.

(** The timer at index [i] of [timers] is the most overdue one: it is
    due, no timer is due by a larger margin, and none of a lower index
    by the same margin. *)
Definition most_overdue (now16_ms : Z) (timers : list (Z * Z)) (i : nat) : Prop :=
  exists t, timers !! i = Some t /\ due now16_ms t
            /\ forall j t', timers !! j = Some t' -> due now16_ms t' ->
                 margin now16_ms t' <= margin now16_ms t
                 /\ (margin now16_ms t' = margin now16_ms t -> (i <= j)%nat).

(** No timer of [timers] is due. *)
Definition none_due (now16_ms : Z) (timers : list (Z * Z)) : Prop :=
  forall j t, timers !! j = Some t -> ~ due now16_ms t.

(** ** More of the header

    The remaining inline methods of GCS.h that act on a member or two:
    the option bits, the channel masks, the sequence number of the
    available modes, the singleton, and the callers of [chan] and of the
    checked send. *)

(** Conversion to [int16_t]. *)
Definition to_int16 (z : Z) : Z := (z + 2 ^ 15) mod 2 ^ 16 - 2 ^ 15.

Definition is_int16 (z : Z) : Prop := - 2 ^ 15 <= z < 2 ^ 15.

(** [GCS_MAVLINK::Option], an [enum class] over [uint16_t]. *)
Inductive Option : Type :=
  | MAVLINK2_SIGNING_DISABLED
  | NO_FORWARD
  | NOSTREAMOVERRIDE.

(** The enumerator values [(1U << 0)], [(1U << 1)], [(1U << 2)]. *)
Definition option_value (option : Option) : Z :=
  match option with
  | MAVLINK2_SIGNING_DISABLED => Z.shiftl 1 0
  | NO_FORWARD => Z.shiftl 1 1
  | NOSTREAMOVERRIDE => Z.shiftl 1 2
  end.

(** The bit an option occupies. *)
Definition option_index (option : Option) : Z :=
  match option with
  | MAVLINK2_SIGNING_DISABLED => 0
  | NO_FORWARD => 1
  | NOSTREAMOVERRIDE => 2
  end.

(** [AP_Int16::set_and_save] (AP_Param, not part of GCS.h) takes an
    [int16_t]: the argument is converted and becomes the value of the
    parameter. *)
Definition set_and_save (v : Z) : Z := to_int16 v.

(** [bool option_enabled(Option option) const]; [options] is the value
    of the [AP_Int16] member, an [int16_t]. *)
Definition option_enabled (options : Z) (option : Option) : bool :=
  negb (Z.land options (to_uint16 (option_value option)) =? 0).

(** [void enable_option(Option option)]: the new value of [options]. *)
Definition enable_option (options : Z) (option : Option) : Z :=
  set_and_save (Z.lor (to_uint16 options) (to_uint16 (option_value option))).

(** [void disable_option(Option option)]: the new value of [options]. *)
Definition disable_option (options : Z) (option : Option) : Z :=
  set_and_save
    (Z.land (to_uint16 options) (Z.lnot (to_uint16 (option_value option)))).

(** [static bool is_private(mavlink_channel_t _chan)] over the [uint8_t]
    mask [mavlink_private].  The channel is converted to [unsigned] and
    [1U] is shifted by it; the shift of a 32-bit value is defined for a
    count below 32 only, and there is no answer ([None]) outside. *)
Definition is_private (mavlink_private : Z) (_chan : Z) : option bool :=
  let n := to_uint32 _chan in
  if n <? 32
  then Some (negb (Z.land mavlink_private (to_uint32 (Z.shiftl 1 n)) =? 0))
  else None.

(** [bool is_active() const] over the [uint8_t] mask [mavlink_active];
    [comm0] is the enumerator [MAVLINK_COMM_0] and [chan] the channel of
    the link.  Here the [int] 1 is shifted by the offset of the channel;
    the shift is defined for an offset from 0 to 30 only, and there is
    no answer ([None]) outside. *)
Definition is_active (mavlink_active : Z) (comm0 : Z) (chan : Z) : option bool :=
  let n := chan - comm0 in
  if (0 <=? n) && (n <? 31)
  then Some (negb (Z.land mavlink_active (Z.shiftl 1 n) =? 0))
  else None.

(** [static void disable_channel_routing(mavlink_channel_t chan)]: the
    new value of [routing.no_route_mask], an unsigned member of [w] bits
    (declared in MAVLink_routing.h). *)
Definition disable_channel_routing (w : Z) (no_route_mask : Z) (comm0 : Z)
    (chan : Z) : Z :=
  (Z.lor no_route_mask (to_uint32 (Z.shiftl 1 (chan - comm0)))) mod 2 ^ w.

(** [void available_modes_changed() { available_modes_sequence += 1; }]
    on a [uint8_t] member: the new sequence number. *)
Definition available_modes_changed (available_modes_sequence : Z) : Z :=
  to_uint8 (available_modes_sequence + 1).

(** What a constructor leaves behind: the singleton, or a panic. *)
Inductive constructed : Type :=
  | Constructed (_singleton : option nat)
  | Panic.

(** The constructor [GCS()], as far as [_singleton] goes.  [this] names
    the object under construction and [sitl] says whether
    [CONFIG_HAL_BOARD == HAL_BOARD_SITL]. *)
Definition GCS_construct (sitl : bool) (this : nat) (_singleton : option nat)
  : constructed :=
  match _singleton with
  | None => Constructed (Some this)
  | Some _ => if sitl then Panic else Constructed _singleton
  end.

(** Constructing several [GCS] objects one after the other. *)
Fixpoint construct_all (sitl : bool) (objects : list nat)
    (_singleton : option nat) : constructed :=
  match objects with
  | [] => Constructed _singleton
  | this :: rest =>
      match GCS_construct sitl this _singleton with
      | Constructed s' => construct_all sitl rest s'
      | Panic => Panic
      end
  end.

(** [int16_t get_hud_throttle(void) const]; [vfr_hud_throttle] is the
    virtual method of the link, which a vehicle may override. *)
Definition get_hud_throttle (vfr_hud_throttle : GCS_MAVLINK -> Z) (g : GCS)
  : array_read Z :=
  match chan g 0 with
  | Read None => Read 0
  | Read (Some link) => Read (vfr_hud_throttle link)
  | OutOfBounds => OutOfBounds
  end.

(** The default [virtual int16_t vfr_hud_throttle() const { return 0; }]. *)
Definition vfr_hud_throttle_default (link : GCS_MAVLINK) : Z := 0.

(** [void send_message(uint32_t msgid, const char *pkt)];
    [mavlink_get_msg_entry] is the lookup of the mavlink library, which
    answers no entry for an id it does not know. *)
Definition send_message_by_id
    (mavlink_get_msg_entry : Z -> option mavlink_msg_entry_t)
    (f : framing) (s : GCS_MAVLINK) (msgid : Z) : GCS_MAVLINK :=
  match mavlink_get_msg_entry msgid with
  | None => s
  | Some entry => send_message f s entry
  end.

(** A lookup that knows the messages 0 and 30. *)
Definition small_msg_entries (msgid : Z) : option mavlink_msg_entry_t :=
  if msgid =? 0 then Some (mk_entry 0 9 9 50)
  else if msgid =? 30 then Some (mk_entry 30 28 28 39)
  else None.

(** * Properties *)

(** ** Fixed-width arithmetic *)

(** Range side conditions on fixed-width values. *)
Ltac uint_solve :=
  unfold is_uint8, is_uint16, is_uint32, UINT16_MAX in *; lia.

Lemma to_uint16_small (z : Z) : is_uint16 z -> to_uint16 z = z.
Proof. unfold is_uint16, to_uint16. intros H. apply Z.mod_small. lia. Qed.

Lemma to_uint32_small (z : Z) : is_uint32 z -> to_uint32 z = z.
Proof. unfold is_uint32, to_uint32. intros H. apply Z.mod_small. lia. Qed.

Lemma to_uint8_range (z : Z) : is_uint8 (to_uint8 z).
Proof. unfold is_uint8, to_uint8. apply Z.mod_pos_bound. lia. Qed.

Lemma to_uint16_range (z : Z) : is_uint16 (to_uint16 z).
Proof. unfold is_uint16, to_uint16. apply Z.mod_pos_bound. lia. Qed.

Lemma to_uint32_range (z : Z) : is_uint32 (to_uint32 z).
Proof. unfold is_uint32, to_uint32. apply Z.mod_pos_bound. lia. Qed.

Lemma packet_overhead_chan_range (f : framing) (s : GCS_MAVLINK) :
  is_uint8 (packet_overhead_chan f s).
Proof. apply to_uint8_range. Qed.

Lemma required_bytes_exact (f : framing) (s : GCS_MAVLINK) (len : Z) :
  is_uint16 len ->
  to_uint32 (packet_overhead_chan f s + len) = packet_overhead_chan f s + len.
Proof.
  intros Hlen. apply to_uint32_small.
  pose proof (packet_overhead_chan_range f s) as Ho.
  uint_solve.
Qed.

(** ** Transmit space and locking *)

Lemma txspace_locked (s : GCS_MAVLINK) : _locked s = true -> txspace s = 0.
Proof. unfold txspace. now intros ->. Qed.

Lemma txspace_unlocked (s : GCS_MAVLINK) :
  _locked s = false -> 0 <= port_txspace s ->
  txspace s = Z.min (port_txspace s) 8192.
Proof.
  unfold txspace. intros -> Hp. apply to_uint16_small.
  unfold is_uint16. lia.
Qed.

Lemma txspace_range (s : GCS_MAVLINK) : is_uint16 (txspace s).
Proof.
  unfold txspace. destruct (_locked s).
  - unfold is_uint16. lia.
  - apply to_uint16_range.
Qed.

(** C9: on an unlocked channel [txspace()] is the smaller of what the
    port reports and 8192, so the scheduler never sees more than 8192
    bytes of transmit space, whatever the driver reports. *)
Theorem txspace_is_capped_port_space (s : GCS_MAVLINK) :
  locked s = false ->
  0 <= port_txspace s ->
  txspace s = Z.min (port_txspace s) 8192 /\ txspace s <= 8192.
Proof.
  unfold locked. intros Hl Hp.
  rewrite (txspace_unlocked s Hl Hp). lia.
Qed.

Lemma txspace_is_capped_port_space_witness :
  txspace (with_port_txspace 100000 small_link) = 8192
  /\ txspace small_link = 100.
Proof.
  split.
  - destruct (txspace_is_capped_port_space (with_port_txspace 100000 small_link))
      as [H _]; [reflexivity | simpl; lia | exact H].
  - destruct (txspace_is_capped_port_space small_link)
      as [H _]; [reflexivity | simpl; lia | exact H].
Defined.

(** C3: locking a channel makes [txspace()] report zero, changes no
    member other than [_locked], is idempotent, and [locked()] answers
    with the argument of the last [lock] call.  On a locked channel the
    driver loop reports that nothing is due and leaves the state as it
    is. *)
Theorem lock_reports_no_space (cat : Catalog) (s : GCS_MAVLINK) (b b' : bool) :
  txspace (lock true s) = 0
  /\ (port_txspace (lock b s) = port_txspace s
      /\ out_mavlink1 (lock b s) = out_mavlink1 s
      /\ signing_outgoing (lock b s) = signing_outgoing s
      /\ out_of_space_to_send_count (lock b s) = out_of_space_to_send_count s
      /\ stream_slowdown_ms (lock b s) = stream_slowdown_ms s
      /\ deferred_message (lock b s) = deferred_message s
      /\ deferred_message_bucket (lock b s) = deferred_message_bucket s
      /\ sending_bucket_id (lock b s) = sending_bucket_id s
      /\ bucket_message_ids_to_send (lock b s) = bucket_message_ids_to_send s
      /\ tx_log (lock b s) = tx_log s)
  /\ lock b (lock b s) = lock b s
  /\ locked (lock b s) = b
  /\ locked (lock b' (lock b s)) = b'
  /\ (forall now16_ms time_available_us,
         update_send cat (lock true s) now16_ms time_available_us
         = (NothingDue, lock true s)).
Proof.
  repeat split; reflexivity.
Qed.

(** ** The channel table *)

(** C10: [chan(ofs)] answers [nullptr] for every offset at or beyond
    [_num_gcs] without reading [_chan]; for an offset below [_num_gcs],
    which counts entries of the array, it answers the entry at that
    index. *)
Theorem chan_is_bounds_checked (g : GCS) (ofs : Z) :
  is_uint8 ofs ->
  (_num_gcs g <= ofs -> chan g ofs = Read nullptr)
  /\ (ofs < _num_gcs g -> _num_gcs g <= Z.of_nat (length (_chan g)) ->
      exists p, _chan g !! Z.to_nat ofs = Some p /\ chan g ofs = Read p).
Proof.
  intros Hofs. unfold chan. split.
  - intros Hge. destruct (ofs >=? _num_gcs g) eqn:E; [reflexivity | lia].
  - intros Hlt Hlen.
    destruct (ofs >=? _num_gcs g) eqn:E; [lia |].
    destruct (lookup_lt_is_Some_2 (_chan g) (Z.to_nat ofs)) as [p Hp].
    + unfold is_uint8 in Hofs. lia.
    + exists p. now rewrite Hp.
Qed.

Lemma chan_is_bounds_checked_witness :
  chan (mk_gcs 2 [Some small_link; Some small_link; None]) 2 = Read nullptr
  /\ chan (mk_gcs 2 [Some small_link; Some small_link; None]) 1
     = Read (Some small_link).
Proof.
  set (g := mk_gcs 2 [Some small_link; Some small_link; None]).
  split.
  - apply (chan_is_bounds_checked g 2); [uint_solve | simpl; lia].
  - destruct (chan_is_bounds_checked g 1) as [_ H]; [uint_solve |].
    destruct H as [p [Hp Hc]]; [simpl; lia | simpl; lia |].
    simpl in Hp. injection Hp as <-. exact Hc.
Defined.

(** ** Admission *)

Lemma HAVE_PAYLOAD_SPACE_true (f : framing) (s : GCS_MAVLINK) (len : Z) :
  PAYLOAD_SIZE f s len <= txspace s ->
  HAVE_PAYLOAD_SPACE f s len = (true, s).
Proof.
  intros H. unfold HAVE_PAYLOAD_SPACE, comm_get_txspace.
  destruct (txspace s >=? PAYLOAD_SIZE f s len) eqn:E; [reflexivity | lia].
Qed.

Lemma HAVE_PAYLOAD_SPACE_false (f : framing) (s : GCS_MAVLINK) (len : Z) :
  txspace s < PAYLOAD_SIZE f s len ->
  HAVE_PAYLOAD_SPACE f s len = (false, out_of_space_to_send s).
Proof.
  intros H. unfold HAVE_PAYLOAD_SPACE, comm_get_txspace, gcs_out_of_space_to_send.
  destruct (txspace s >=? PAYLOAD_SIZE f s len) eqn:E; [lia | reflexivity].
Qed.

Lemma check_payload_size_true (f : framing) (s : GCS_MAVLINK) (len : Z) :
  to_uint32 (packet_overhead f s + len) <= txspace s ->
  check_payload_size f s len = (true, s).
Proof.
  intros H. unfold check_payload_size.
  destruct (txspace s <? to_uint32 (packet_overhead f s + len)) eqn:E;
    [lia | reflexivity].
Qed.

Lemma check_payload_size_false (f : framing) (s : GCS_MAVLINK) (len : Z) :
  txspace s < to_uint32 (packet_overhead f s + len) ->
  check_payload_size f s len = (false, out_of_space_to_send s).
Proof.
  intros H. unfold check_payload_size.
  destruct (txspace s <? to_uint32 (packet_overhead f s + len)) eqn:E;
    [reflexivity | lia].
Qed.

(** The two forms of the check agree. *)
Lemma check_payload_size_is_HAVE_PAYLOAD_SPACE (f : framing) (s : GCS_MAVLINK)
    (len : Z) :
  check_payload_size f s len = HAVE_PAYLOAD_SPACE f s len.
Proof.
  unfold check_payload_size, HAVE_PAYLOAD_SPACE, PAYLOAD_SIZE, packet_overhead,
    comm_get_txspace, gcs_out_of_space_to_send.
  destruct (txspace s <? to_uint32 (packet_overhead_chan f s + len)) eqn:E1;
    destruct (txspace s >=? to_uint32 (packet_overhead_chan f s + len)) eqn:E2;
    try reflexivity; lia.
Qed.

Lemma out_of_space_to_send_txspace (s : GCS_MAVLINK) :
  txspace (out_of_space_to_send s) = txspace s.
Proof. reflexivity. Qed.

Lemma send_message_log (f : framing) (s : GCS_MAVLINK) (entry : mavlink_msg_entry_t) :
  (to_uint32 (packet_overhead f s + max_msg_len entry) <= txspace s
   /\ tx_log (send_message f s entry)
      = mk_tx (to_uint32 (packet_overhead f s + max_msg_len entry)) (txspace s)
          :: tx_log s)
  \/ (txspace s < to_uint32 (packet_overhead f s + max_msg_len entry)
      /\ send_message f s entry = out_of_space_to_send s).
Proof.
  unfold send_message.
  destruct (Z.lt_ge_cases (txspace s)
              (to_uint32 (packet_overhead f s + max_msg_len entry))) as [H | H].
  - right. split; [exact H |].
    now rewrite (check_payload_size_false f s _ H).
  - left. split; [exact H |].
    now rewrite (check_payload_size_true f s _ H).
Qed.

Lemma send_mission_ack_log (f : framing) (s : GCS_MAVLINK) (len : Z) :
  (PAYLOAD_SIZE f s len <= txspace s
   /\ tx_log (send_mission_ack f s len)
      = mk_tx (PAYLOAD_SIZE f s len) (txspace s) :: tx_log s)
  \/ (txspace s < PAYLOAD_SIZE f s len
      /\ send_mission_ack f s len = out_of_space_to_send s).
Proof.
  unfold send_mission_ack.
  destruct (Z.lt_ge_cases (txspace s) (PAYLOAD_SIZE f s len)) as [H | H].
  - right. split; [exact H |].
    now rewrite (HAVE_PAYLOAD_SPACE_false f s _ H).
  - left. split; [exact H |].
    now rewrite (HAVE_PAYLOAD_SPACE_true f s _ H).
Qed.

Lemma do_try_send_message_cases (cat : Catalog) (s : GCS_MAVLINK) (id : ap_message) :
  (to_uint32 (packet_overhead (frame cat) s + msg_len cat id) <= txspace s
   /\ do_try_send_message cat s id
      = (true, _mav_finalize_message_chan_send (frame cat) s (msg_len cat id)))
  \/ (txspace s < to_uint32 (packet_overhead (frame cat) s + msg_len cat id)
      /\ do_try_send_message cat s id = (false, out_of_space_to_send s)).
Proof.
  unfold do_try_send_message, CHECK_PAYLOAD_SIZE.
  destruct (Z.lt_ge_cases (txspace s)
              (to_uint32 (packet_overhead (frame cat) s + msg_len cat id)))
    as [H | H].
  - right. split; [exact H |].
    now rewrite (check_payload_size_false _ s _ H).
  - left. split; [exact H |].
    now rewrite (check_payload_size_true _ s _ H).
Qed.

(** C8: each time the admission check fails, the out-of-space counter
    of the channel goes up by one (a [uint16_t], so from 65535 it wraps
    to 0) and nothing else changes; the check answers [false] and the
    caller carries on.  A check that succeeds leaves the counter alone.
    The counter is the member [out_of_space_to_send_count]. *)
Theorem failed_admission_counts_once (f : framing) (s : GCS_MAVLINK) (len : Z) :
  fst (HAVE_PAYLOAD_SPACE f s len) = false ->
  let s' := snd (HAVE_PAYLOAD_SPACE f s len) in
  txspace s < PAYLOAD_SIZE f s len
  /\ out_of_space_to_send_count s'
     = to_uint16 (out_of_space_to_send_count s + 1)
  /\ (0 <= out_of_space_to_send_count s < UINT16_MAX ->
      out_of_space_to_send_count s' = out_of_space_to_send_count s + 1)
  /\ s' = with_out_of_space (out_of_space_to_send_count s') s
  /\ check_payload_size f s len = (false, s')
  /\ (forall len', fst (HAVE_PAYLOAD_SPACE f s len') = true ->
        snd (HAVE_PAYLOAD_SPACE f s len') = s).
Proof.
  intros Hfail s'.
  assert (Hlt : txspace s < PAYLOAD_SIZE f s len).
  { destruct (Z.lt_ge_cases (txspace s) (PAYLOAD_SIZE f s len)) as [H | H];
      [exact H |].
    rewrite (HAVE_PAYLOAD_SPACE_true f s len H) in Hfail. discriminate. }
  assert (Hs' : s' = out_of_space_to_send s).
  { unfold s'. now rewrite (HAVE_PAYLOAD_SPACE_false f s len Hlt). }
  split; [exact Hlt |].
  split; [now rewrite Hs' |].
  split.
  { intros Hc. rewrite Hs'. simpl. apply to_uint16_small.
    unfold is_uint16, UINT16_MAX in *. lia. }
  split; [now rewrite Hs' |].
  split.
  { rewrite check_payload_size_is_HAVE_PAYLOAD_SPACE.
    rewrite (HAVE_PAYLOAD_SPACE_false f s len Hlt). now rewrite Hs'. }
  intros len' Hok. unfold HAVE_PAYLOAD_SPACE, comm_get_txspace in *.
  destruct (txspace s >=? PAYLOAD_SIZE f s len'); [reflexivity | discriminate].
Qed.

Lemma failed_admission_counts_once_witness :
  out_of_space_to_send_count
    (snd (HAVE_PAYLOAD_SPACE mavlink2_framing (with_port_txspace 39 small_link) 28))
  = 1.
Proof.
  destruct (failed_admission_counts_once mavlink2_framing
              (with_port_txspace 39 small_link) 28)
    as (_ & _ & H & _); [reflexivity |].
  apply H. simpl. unfold UINT16_MAX. lia.
Defined.

(** ** 16-bit time *)

Lemma elapsed_ms16_range (now16_ms last : Z) : is_uint16 (elapsed_ms16 now16_ms last).
Proof. apply to_uint16_range. Qed.

(** The wrapping difference is the time that really passed, as long as
    that is less than 2^16 ms. *)
Lemma elapsed_ms16_after (last d : Z) :
  is_uint16 d -> elapsed_ms16 (to_uint16 (last + d)) last = d.
Proof.
  unfold elapsed_ms16, to_uint16, is_uint16. intros Hd.
  rewrite Zminus_mod_idemp_l.
  replace (last + d - last) with d by lia.
  apply Z.mod_small. lia.
Qed.

Lemma overdue_by_spec (now16_ms interval last m : Z) :
  overdue_by now16_ms interval last = Some m <->
  interval <> 0 /\ interval <= elapsed_ms16 now16_ms last
  /\ m = elapsed_ms16 now16_ms last - interval.
Proof.
  unfold overdue_by.
  destruct (interval =? 0) eqn:E0.
  - split; [discriminate | lia].
  - destruct (interval <=? elapsed_ms16 now16_ms last) eqn:E1.
    + split.
      * intros [= <-]. lia.
      * intros (_ & _ & ->). reflexivity.
    + split; [discriminate | lia].
Qed.

Lemma overdue_by_due (now16_ms : Z) (t : Z * Z) (m : Z) :
  overdue_by now16_ms (fst t) (snd t) = Some m <->
  due now16_ms t /\ m = margin now16_ms t.
Proof.
  rewrite overdue_by_spec. unfold due, margin, elapsed_ms16, to_uint16. tauto.
Qed.

Lemma overdue_by_not_due (now16_ms : Z) (t : Z * Z) :
  overdue_by now16_ms (fst t) (snd t) = None <-> ~ due now16_ms t.
Proof.
  destruct (overdue_by now16_ms (fst t) (snd t)) as [m |] eqn:E.
  - apply overdue_by_due in E as [Hd _]. split; [discriminate | tauto].
  - split; [| reflexivity]. intros _ Hd.
    assert (H : overdue_by now16_ms (fst t) (snd t) = Some (margin now16_ms t))
      by (apply overdue_by_due; auto).
    congruence.
Qed.

(** A timer decides by the time that really passed since it was last
    sent, as long as that is less than 2^16 ms, whether or not the clock
    wrapped in between. *)
Lemma due_after (interval last e : Z) :
  is_uint16 e ->
  (due (to_uint16 (last + e)) (interval, last) <-> interval <> 0 /\ interval <= e)
  /\ margin (to_uint16 (last + e)) (interval, last) = e - interval.
Proof.
  intros He. pose proof (elapsed_ms16_after last e He) as H.
  unfold elapsed_ms16 in H. unfold to_uint16 at 1 in H.
  unfold due, margin. simpl. rewrite H. tauto.
Qed.

(** *** The scan for the most overdue timer *)

Lemma most_overdue_from_None (now16_ms : Z) (l : list (Z * Z)) :
  forall (i0 : nat) (best : option (nat * Z)),
    most_overdue_from i0 l now16_ms best = None <->
    best = None /\ none_due now16_ms l.
Proof.
  unfold none_due.
  induction l as [| [iv last] l IH]; intros i0 best; simpl.
  - split.
    + intros ->. split; [reflexivity |]. intros j t Hj.
      rewrite lookup_nil in Hj. discriminate.
    + tauto.
  - rewrite IH. split.
    + intros [Hb Hall].
      destruct (overdue_by now16_ms iv last) as [m0 |] eqn:E.
      { destruct best as [[ib mb] |]; [destruct (mb <? m0) |]; discriminate. }
      split; [exact Hb |]. intros [| j] t Hj; simpl in Hj.
      * injection Hj as <-. apply overdue_by_not_due. exact E.
      * exact (Hall j t Hj).
    + intros [-> Hall].
      assert (E : overdue_by now16_ms iv last = None).
      { apply (overdue_by_not_due now16_ms (iv, last)).
        apply (Hall 0%nat). reflexivity. }
      rewrite E. split; [reflexivity |].
      intros j t Hj. apply (Hall (S j)). exact Hj.
Qed.

Lemma most_overdue_from_Some (now16_ms : Z) (l : list (Z * Z)) :
  forall (i0 : nat) (best : option (nat * Z)) (i : nat) (m : Z),
    (forall ib mb, best = Some (ib, mb) -> (ib < i0)%nat) ->
    most_overdue_from i0 l now16_ms best = Some (i, m) ->
    (best = Some (i, m)
     \/ exists t, (i0 <= i)%nat /\ l !! (i - i0)%nat = Some t
                  /\ due now16_ms t /\ m = margin now16_ms t)
    /\ (forall ib mb, best = Some (ib, mb) -> mb <= m /\ (mb = m -> i = ib))
    /\ (forall j t, l !! j = Some t -> due now16_ms t ->
          margin now16_ms t <= m
          /\ (margin now16_ms t = m -> (i <= i0 + j)%nat)).
Proof.
  induction l as [| [iv last] l IH]; intros i0 best i m Hlt H; simpl in H.
  { split; [now left |]. split.
    - intros ib mb Hb. rewrite Hb in H. injection H as -> ->. auto with zarith.
    - intros j t Hj. rewrite lookup_nil in Hj. discriminate. }
  assert (Hshift : forall t, (S i0 <= i)%nat -> l !! (i - S i0)%nat = Some t ->
                     ((iv, last) :: l) !! (i - i0)%nat = Some t).
  { intros t Hle Ht. replace (i - i0)%nat with (S (i - S i0)) by lia. exact Ht. }
  destruct (overdue_by now16_ms iv last) as [m0 |] eqn:E.
  - apply (overdue_by_due now16_ms (iv, last)) in E as [Hdue Hm0].
    assert (Hnew : forall j,
               most_overdue_from (S i0) l now16_ms (Some (i0, m0)) = Some (i, m) ->
               (exists t, (i0 <= i)%nat /\ ((iv, last) :: l) !! (i - i0)%nat = Some t
                          /\ due now16_ms t /\ m = margin now16_ms t)
               /\ m0 <= m
               /\ (forall t, ((iv, last) :: l) !! j = Some t -> due now16_ms t ->
                     margin now16_ms t <= m
                     /\ (margin now16_ms t = m -> (i <= i0 + j)%nat))).
    { intros j H'.
      destruct (IH (S i0) (Some (i0, m0)) i m) as (H1 & H2 & H3);
        [intros ib mb [= <- <-]; lia | exact H' |].
      destruct (H2 i0 m0 eq_refl) as [Hle Heq].
      split; [| split; [exact Hle |]].
      - destruct H1 as [[= <- <-] | (t & Hi & Ht & Hd & Hm)].
        + exists (iv, last). rewrite Nat.sub_diag. auto.
        + exists t. split; [lia |]. split; [apply Hshift; [lia | exact Ht] | auto].
      - destruct j as [| j]; simpl; intros t Hj Hd.
        + injection Hj as <-. rewrite <- Hm0.
          split; [exact Hle |]. intros Hm. rewrite (Heq Hm). lia.
        + destruct (H3 j t Hj Hd) as [Ha Hb]. split; [exact Ha |].
          intros Hm. specialize (Hb Hm). lia. }
    destruct best as [[ib mb] |].
    + destruct (mb <? m0) eqn:Elt.
      * split; [right; exact (proj1 (Hnew 0%nat H)) |]. split.
        { intros ib' mb' [= <- <-]. destruct (Hnew 0%nat H) as (_ & Hle & _). lia. }
        intros j t. exact (proj2 (proj2 (Hnew j H)) t).
      * destruct (IH (S i0) (Some (ib, mb)) i m) as (H1 & H2 & H3);
          [intros ib' mb' [= <- <-]; specialize (Hlt ib mb eq_refl); lia
          | exact H |].
        destruct (H2 ib mb eq_refl) as [Hle Heq].
        split; [| split].
        -- destruct H1 as [H1 | (t & Hi & Ht & Hd & Hm)]; [now left | right].
           exists t. split; [lia |]. split; [apply Hshift; [lia | exact Ht] | auto].
        -- intros ib' mb' [= <- <-]. auto.
        -- destruct j as [| j]; simpl; intros t Hj Hd.
           ++ injection Hj as <-. rewrite <- Hm0. split; [lia |].
              intros Hm. rewrite Heq by lia.
              specialize (Hlt ib mb eq_refl). lia.
           ++ destruct (H3 j t Hj Hd) as [Ha Hb]. split; [exact Ha |].
              intros Hm. specialize (Hb Hm). lia.
    + split; [right; exact (proj1 (Hnew 0%nat H)) |]. split; [discriminate |].
      intros j t. exact (proj2 (proj2 (Hnew j H)) t).
  - apply (overdue_by_not_due now16_ms (iv, last)) in E.
    destruct (IH (S i0) best i m) as (H1 & H2 & H3);
      [intros ib mb Hb; specialize (Hlt ib mb Hb); lia | exact H |].
    split; [| split; [exact H2 |]].
    + destruct H1 as [H1 | (t & Hi & Ht & Hd & Hm)]; [now left | right].
      exists t. split; [lia |]. split; [apply Hshift; [lia | exact Ht] | auto].
    + destruct j as [| j]; simpl; intros t Hj Hd.
      * injection Hj as <-. contradiction.
      * destruct (H3 j t Hj Hd) as [Ha Hb]. split; [exact Ha |].
        intros Hm. specialize (Hb Hm). lia.
Qed.

(** The scan answers the most overdue timer, judged by the wrapping
    difference, and none exactly when no timer is due. *)
Lemma most_overdue_from_spec (now16_ms : Z) (l : list (Z * Z)) (i : nat) :
  (exists m, most_overdue_from 0 l now16_ms None = Some (i, m))
  <-> most_overdue now16_ms l i.
Proof.
  unfold most_overdue. split.
  - intros (m & H).
    destruct (most_overdue_from_Some now16_ms l 0 None i m) as (H1 & _ & H3);
      [discriminate | exact H |].
    destruct H1 as [H1 | (t & _ & Ht & Hd & Hm)]; [discriminate |].
    rewrite Nat.sub_0_r in Ht. exists t. split; [exact Ht |]. split; [exact Hd |].
    intros j t' Hj Hd'. rewrite <- Hm. exact (H3 j t' Hj Hd').
  - intros (t & Ht & Hd & Hmax).
    destruct (most_overdue_from 0 l now16_ms None) as [[i' m'] |] eqn:E.
    + destruct (most_overdue_from_Some now16_ms l 0 None i' m') as (H1 & _ & H3);
        [discriminate | exact E |].
      destruct H1 as [H1 | (t' & _ & Ht' & Hd' & Hm')]; [discriminate |].
      rewrite Nat.sub_0_r in Ht'.
      destruct (H3 i t Ht Hd) as [Ha Hb].
      destruct (Hmax i' t' Ht' Hd') as [Hc He].
      assert (i' = i) by lia. subst i'. eauto.
    + apply most_overdue_from_None in E as [_ Hnone].
      exfalso. exact (Hnone i t Ht Hd).
Qed.

Lemma most_overdue_from_margin (now16_ms : Z) (l : list (Z * Z)) (i : nat) (m : Z) :
  most_overdue_from 0 l now16_ms None = Some (i, m) ->
  exists t, l !! i = Some t /\ due now16_ms t /\ m = margin now16_ms t.
Proof.
  intros H.
  destruct (most_overdue_from_Some now16_ms l 0 None i m) as (H1 & _);
    [discriminate | exact H |].
  destruct H1 as [H1 | (t & _ & Ht & Hd & Hm)]; [discriminate |].
  rewrite Nat.sub_0_r in Ht. eauto.
Qed.

(** ** Interval capping *)

Lemma min_message_interval_spec (cat : Catalog) (i : Z) :
  catalog_ok cat ->
  (1250 <= SCHED_LOOP_RATE cat * i <-> min_message_interval cat <= i).
Proof.
  unfold catalog_ok, min_message_interval. intros HL.
  set (L := SCHED_LOOP_RATE cat) in *.
  pose proof (Z.div_mod (1250 + L - 1) L ltac:(lia)) as Hdm.
  pose proof (Z.mod_pos_bound (1250 + L - 1) L HL) as Hr.
  set (q := (1250 + L - 1) / L) in *.
  set (r := (1250 + L - 1) mod L) in *.
  split; intros H; nia.
Qed.

Lemma min_message_interval_range (cat : Catalog) :
  catalog_ok cat -> 1 <= min_message_interval cat <= 1250.
Proof.
  intros Hok. split.
  - destruct (Z.le_gt_cases 1 (min_message_interval cat)) as [H | H]; [exact H |].
    assert (H0 : min_message_interval cat <= 0) by lia.
    apply (min_message_interval_spec cat 0 Hok) in H0. lia.
  - apply (min_message_interval_spec cat 1250 Hok).
    unfold catalog_ok in Hok. nia.
Qed.

Lemma cap_message_interval_cases (cat : Catalog) (interval : Z) :
  catalog_ok cat ->
  (interval = 0 /\ cap_message_interval cat interval = 0)
  \/ (interval <> 0 /\ interval < min_message_interval cat
      /\ cap_message_interval cat interval = min_message_interval cat)
  \/ (interval <> 0 /\ min_message_interval cat <= interval
      /\ cap_message_interval cat interval = interval).
Proof.
  intros Hok. unfold cap_message_interval.
  pose proof (min_message_interval_range cat Hok) as Hr.
  destruct (interval =? 0) eqn:E0; [left; lia |].
  destruct (interval <? min_message_interval cat) eqn:E1.
  - right; left. repeat split; try lia.
    apply to_uint16_small. unfold is_uint16. lia.
  - right; right. repeat split; lia.
Qed.

Lemma cap_message_interval_capped (cat : Catalog) (interval : Z) :
  catalog_ok cat -> capped cat (cap_message_interval cat interval).
Proof.
  intros Hok. unfold capped.
  destruct (cap_message_interval_cases cat interval Hok)
    as [[_ ->] | [(_ & _ & ->) | (_ & H & ->)]]; lia.
Qed.

Lemma cap_message_interval_uint16 (cat : Catalog) (interval : Z) :
  catalog_ok cat -> is_uint16 interval ->
  is_uint16 (cap_message_interval cat interval).
Proof.
  intros Hok Hi.
  pose proof (min_message_interval_range cat Hok) as Hr.
  destruct (cap_message_interval_cases cat interval Hok)
    as [[_ ->] | [(_ & _ & ->) | (_ & H & ->)]];
    uint_solve.
Qed.

(** ** Unknown mavlink ids *)

Lemma mavlink_id_without_mapping (cat : Catalog) (mavlink_id : Z) :
  table_lookup (mavlink_table cat) mavlink_id = None ->
  mavlink_id_to_ap_message_id cat mavlink_id = MSG_LAST cat.
Proof. unfold mavlink_id_to_ap_message_id. now intros ->. Qed.

(** C5: setting the interval of a mavlink id that maps to no
    [ap_message] reports failure and leaves the whole state of the
    channel, its intervals and buckets included, as it was. *)
Theorem unknown_mavlink_id_is_refused (cat : Catalog) (s : GCS_MAVLINK)
    (now16_ms mavlink_id interval : Z) :
  table_lookup (mavlink_table cat) mavlink_id = None ->
  mavlink_id_to_ap_message_id cat mavlink_id = MSG_LAST cat
  /\ set_mavlink_message_id_interval cat s now16_ms mavlink_id interval
     = (false, s)
  /\ (forall id, get_ap_message_interval
                   (snd (set_mavlink_message_id_interval cat s now16_ms
                           mavlink_id interval)) id
                 = get_ap_message_interval s id).
Proof.
  intros Hnone.
  pose proof (mavlink_id_without_mapping cat mavlink_id Hnone) as Hid.
  assert (Hset : set_mavlink_message_id_interval cat s now16_ms mavlink_id interval
                 = (false, s)).
  { unfold set_mavlink_message_id_interval. rewrite Hid.
    now rewrite N.eqb_refl. }
  split; [exact Hid |].
  split; [exact Hset |].
  intros id. now rewrite Hset.
Qed.

Lemma unknown_mavlink_id_is_refused_witness :
  set_mavlink_message_id_interval small_catalog small_link 10 999 100
  = (false, small_link).
Proof.
  destruct (unknown_mavlink_id_is_refused small_catalog small_link 10 999 100)
    as (_ & H & _); [reflexivity | exact H].
Defined.

(** ** Bit masks *)

Lemma get_set (m : Bitmask.t) (id id' : ap_message) :
  Bitmask.get (Bitmask.set m id) id' = true <->
  id' = id \/ Bitmask.get m id' = true.
Proof.
  unfold Bitmask.get, Bitmask.set. rewrite N.setbit_iff. intuition.
Qed.

Lemma get_clear (m : Bitmask.t) (id id' : ap_message) :
  Bitmask.get (Bitmask.clear m id) id' = true <->
  Bitmask.get m id' = true /\ id' <> id.
Proof.
  unfold Bitmask.get, Bitmask.clear. rewrite N.clearbit_iff. intuition.
Qed.

Lemma get_empty (id : ap_message) : Bitmask.get Bitmask.empty id = false.
Proof. apply N.bits_0. Qed.

Lemma is_empty_spec (m : Bitmask.t) : Bitmask.is_empty m = true <-> m = Bitmask.empty.
Proof. unfold Bitmask.is_empty, Bitmask.empty. apply N.eqb_eq. Qed.

Lemma lowest_bit_set (p : positive) : N.testbit (Npos p) (Bitmask.lowest_bit p) = true.
Proof.
  induction p as [p IH | p IH |]; cbn [Bitmask.lowest_bit]; try reflexivity.
  change (N.pos p~0) with (2 * N.pos p)%N.
  rewrite N.testbit_even_succ'. exact IH.
Qed.

Lemma first_set_member (m : Bitmask.t) (id : ap_message) :
  Bitmask.first_set m = Some id -> Bitmask.get m id = true.
Proof.
  destruct m as [| p]; simpl; [discriminate |].
  intros [= <-]. apply lowest_bit_set.
Qed.

Lemma first_set_none (m : Bitmask.t) :
  Bitmask.first_set m = None <-> m = Bitmask.empty.
Proof. destruct m; simpl; split; (reflexivity || discriminate). Qed.

(** ** Bucket arrays *)

Lemma free_if_empty_ids (b : deferred_message_bucket_t) :
  ap_message_ids (free_if_empty b) = ap_message_ids b.
Proof. unfold free_if_empty. now destruct (Bitmask.is_empty _). Qed.

Lemma free_if_empty_interval (b : deferred_message_bucket_t) :
  interval_ms (free_if_empty b) = 0
  \/ interval_ms (free_if_empty b) = interval_ms b.
Proof. unfold free_if_empty. destruct (Bitmask.is_empty _); auto. Qed.

Lemma buckets_ok_insert (cat : Catalog) (l : list deferred_message_bucket_t)
    (i : nat) (b b' : deferred_message_bucket_t) :
  buckets_ok cat l ->
  l !! i = Some b ->
  capped cat (interval_ms b') ->
  (forall id, Bitmask.get (ap_message_ids b') id = true ->
              Bitmask.get (ap_message_ids b) id = true \/ absent l id) ->
  buckets_ok cat (<[i := b']> l).
Proof.
  intros (Hlen & Hdis & Hcap) Hi Hb' Hmem.
  pose proof (lookup_lt_Some _ _ _ Hi) as Hlt.
  split; [now rewrite length_insert |].
  split; [| now apply Forall_insert].
  intros j k bj bk id Hj Hk Gj Gk.
  destruct (decide (j = i)) as [-> | Hji], (decide (k = i)) as [-> | Hki];
    [reflexivity | | |].
  - rewrite list_lookup_insert_eq in Hj by exact Hlt. injection Hj as <-.
    rewrite list_lookup_insert_ne in Hk by congruence.
    destruct (Hmem id Gj) as [Gb | Habs].
    + exact (Hdis i k b bk id Hi Hk Gb Gk).
    + rewrite (Habs k bk Hk) in Gk. discriminate.
  - rewrite list_lookup_insert_eq in Hk by exact Hlt. injection Hk as <-.
    rewrite list_lookup_insert_ne in Hj by congruence.
    destruct (Hmem id Gk) as [Gb | Habs].
    + exact (Hdis j i bj b id Hj Hi Gj Gb).
    + rewrite (Habs j bj Hj) in Gj. discriminate.
  - rewrite list_lookup_insert_ne in Hj by congruence.
    rewrite list_lookup_insert_ne in Hk by congruence.
    exact (Hdis j k bj bk id Hj Hk Gj Gk).
Qed.

Lemma bucket_of_Some (s : GCS_MAVLINK) (id : ap_message) (b : nat)
    (bk : deferred_message_bucket_t) :
  bucket_of s id = Some (b, bk) ->
  deferred_message_bucket s !! b = Some bk
  /\ Bitmask.get (ap_message_ids bk) id = true.
Proof.
  unfold bucket_of. intros H. apply list_find_Some in H. tauto.
Qed.

Lemma bucket_of_None (s : GCS_MAVLINK) (id : ap_message) :
  bucket_of s id = None -> absent (deferred_message_bucket s) id.
Proof.
  unfold bucket_of. intros H j bj Hj.
  apply list_find_None in H.
  rewrite Forall_lookup in H. specialize (H j bj Hj).
  now destruct (Bitmask.get (ap_message_ids bj) id).
Qed.

Lemma absent_bucket_of (s : GCS_MAVLINK) (id : ap_message) :
  absent (deferred_message_bucket s) id -> bucket_of s id = None.
Proof.
  intros Habs. unfold bucket_of. apply list_find_None.
  rewrite Forall_lookup. intros j bj Hj.
  rewrite (Habs j bj Hj). discriminate.
Qed.

Lemma buckets_ok_capped (cat : Catalog) (l : list deferred_message_bucket_t)
    (b : nat) (bk : deferred_message_bucket_t) :
  buckets_ok cat l -> l !! b = Some bk -> capped cat (interval_ms bk).
Proof.
  intros (_ & _ & Hcap) Hb. rewrite Forall_lookup in Hcap. exact (Hcap b bk Hb).
Qed.

Lemma buckets_ok_add (cat : Catalog) (l : list deferred_message_bucket_t)
    (b : nat) (bk : deferred_message_bucket_t) (id : ap_message) (iv last : Z) :
  buckets_ok cat l -> absent l id -> l !! b = Some bk -> capped cat iv ->
  buckets_ok cat (<[b := mk_bucket (Bitmask.set (ap_message_ids bk) id) iv last]> l).
Proof.
  intros Hok Habs Hb Hiv.
  apply (buckets_ok_insert cat l b bk); [exact Hok | exact Hb | exact Hiv |].
  simpl. intros id' H. apply get_set in H as [-> | H]; [right | left]; assumption.
Qed.

Lemma insert_member (l : list deferred_message_bucket_t) (b : nat)
    (bk : deferred_message_bucket_t) (id : ap_message) (iv last : Z) :
  l !! b = Some bk ->
  <[b := mk_bucket (Bitmask.set (ap_message_ids bk) id) iv last]> l !! b
  = Some (mk_bucket (Bitmask.set (ap_message_ids bk) id) iv last).
Proof.
  intros Hb. apply list_lookup_insert_eq. exact (lookup_lt_Some _ _ _ Hb).
Qed.

(** *** Removing a message from its bucket *)

Lemma remove_message_from_bucket_buckets (s : GCS_MAVLINK) (b : nat)
    (bk : deferred_message_bucket_t) (id : ap_message) :
  deferred_message_bucket s !! b = Some bk ->
  deferred_message_bucket (remove_message_from_bucket s b id)
  = <[b := free_if_empty
             (mk_bucket (Bitmask.clear (ap_message_ids bk) id)
                        (interval_ms bk) (last_sent_ms bk))]>
      (deferred_message_bucket s).
Proof.
  intros Hb. unfold remove_message_from_bucket. rewrite Hb.
  destruct (sending_bucket_id s =? Z.of_nat b); [| reflexivity].
  destruct (Bitmask.is_empty _); reflexivity.
Qed.

Lemma remove_message_from_bucket_frame (s : GCS_MAVLINK) (b : nat)
    (id : ap_message) :
  same_channel s (remove_message_from_bucket s b id)
  /\ deferred_message (remove_message_from_bucket s b id) = deferred_message s.
Proof.
  unfold remove_message_from_bucket, same_channel.
  destruct (deferred_message_bucket s !! b); [| repeat split].
  destruct (sending_bucket_id s =? Z.of_nat b); [| repeat split].
  destruct (Bitmask.is_empty _); repeat split.
Qed.

Lemma remove_message_from_bucket_ok (cat : Catalog) (s : GCS_MAVLINK) (b : nat)
    (bk : deferred_message_bucket_t) (id : ap_message) :
  buckets_ok cat (deferred_message_bucket s) ->
  deferred_message_bucket s !! b = Some bk ->
  Bitmask.get (ap_message_ids bk) id = true ->
  buckets_ok cat (deferred_message_bucket (remove_message_from_bucket s b id))
  /\ absent (deferred_message_bucket (remove_message_from_bucket s b id)) id.
Proof.
  intros Hok Hb Hget.
  rewrite (remove_message_from_bucket_buckets s b bk id Hb).
  set (b' := free_if_empty _).
  assert (Hids : ap_message_ids b' = Bitmask.clear (ap_message_ids bk) id).
  { unfold b'. now rewrite free_if_empty_ids. }
  split.
  - apply (buckets_ok_insert cat _ b bk); [exact Hok | exact Hb | |].
    + destruct (free_if_empty_interval
                  (mk_bucket (Bitmask.clear (ap_message_ids bk) id)
                             (interval_ms bk) (last_sent_ms bk))) as [H | H];
        fold b' in H; rewrite H.
      * now left.
      * simpl. exact (buckets_ok_capped cat _ b bk Hok Hb).
    + intros id' H. rewrite Hids in H. apply get_clear in H. left. tauto.
  - intros j bj Hj.
    destruct (decide (j = b)) as [-> | Hne].
    + rewrite list_lookup_insert_eq in Hj by exact (lookup_lt_Some _ _ _ Hb).
      injection Hj as <-. rewrite Hids.
      unfold Bitmask.get, Bitmask.clear. apply N.clearbit_eq.
    + rewrite list_lookup_insert_ne in Hj by congruence.
      destruct (Bitmask.get (ap_message_ids bj) id) eqn:E; [| reflexivity].
      destruct Hok as (_ & Hdis & _).
      exfalso. apply Hne. exact (Hdis j b bj bk id Hj Hb E Hget).
Qed.

(** *** The closest bucket *)

Lemma closest_from_Some (l : list deferred_message_bucket_t) (interval : Z) :
  forall (i : nat) (best : option (nat * Z)) (k : nat) (d : Z),
    closest_from i l interval best = Some (k, d) ->
    best = Some (k, d)
    \/ exists bk, l !! (k - i)%nat = Some bk /\ (i <= k)%nat /\ interval_ms bk <> 0.
Proof.
  induction l as [| b l IH]; intros i best k d H; simpl in H; [now left |].
  apply IH in H as [H | (bk & Hk & Hle & Hu)].
  - destruct (interval_ms b =? 0) eqn:E0; [now left |].
    assert (Hb : interval_ms b <> 0) by lia.
    destruct best as [[k0 d0] |].
    + destruct (Z.abs (interval_ms b - interval) <? d0); [| now left].
      injection H as <- <-. right. exists b.
      rewrite Nat.sub_diag. simpl. auto.
    + injection H as <- <-. right. exists b.
      rewrite Nat.sub_diag. simpl. auto.
  - right. exists bk. split; [| split; [lia | exact Hu]].
    replace (k - i)%nat with (S (k - S i)) by lia. exact Hk.
Qed.

Lemma closest_from_keeps_best (l : list deferred_message_bucket_t) (interval : Z) :
  forall (i : nat) (best : option (nat * Z)),
    is_Some best -> is_Some (closest_from i l interval best).
Proof.
  induction l as [| b l IH]; intros i best Hbest; simpl; [exact Hbest |].
  apply IH.
  destruct (interval_ms b =? 0); [exact Hbest |].
  destruct best as [[k0 d0] |]; [| eauto].
  destruct (Z.abs (interval_ms b - interval) <? d0); eauto.
Qed.

Lemma closest_bucket_exists (s : GCS_MAVLINK) (interval : Z) (b0 : deferred_message_bucket_t)
    (l : list deferred_message_bucket_t) :
  deferred_message_bucket s = b0 :: l ->
  interval_ms b0 <> 0 ->
  exists b bk, closest_bucket s interval = Some b
               /\ deferred_message_bucket s !! b = Some bk
               /\ interval_ms bk <> 0.
Proof.
  intros Hl Hu. unfold closest_bucket.
  destruct (closest_from 0 (deferred_message_bucket s) interval None)
    as [[k d] |] eqn:E.
  - apply closest_from_Some in E as [E | (bk & Hk & _ & Hbk)]; [discriminate |].
    rewrite Nat.sub_0_r in Hk. exists k, bk. auto.
  - exfalso. rewrite Hl in E. simpl in E.
    destruct (interval_ms b0 =? 0) eqn:E0; [lia |].
    assert (H : is_Some (closest_from 1 l interval
                           (Some (0%nat, Z.abs (interval_ms b0 - interval)))))
      by (apply closest_from_keeps_best; eauto).
    rewrite E in H. destruct H as [x Hx]. discriminate.
Qed.

(** *** Placing a message in a bucket *)

Lemma add_message_to_bucket_ok (cat : Catalog) (s : GCS_MAVLINK) (b : nat)
    (bk : deferred_message_bucket_t) (id : ap_message) :
  buckets_ok cat (deferred_message_bucket s) ->
  absent (deferred_message_bucket s) id ->
  deferred_message_bucket s !! b = Some bk ->
  let s' := add_message_to_bucket s b id in
  buckets_ok cat (deferred_message_bucket s')
  /\ deferred_message_bucket s' !! b
     = Some (mk_bucket (Bitmask.set (ap_message_ids bk) id)
                       (interval_ms bk) (last_sent_ms bk))
  /\ map interval_ms (deferred_message_bucket s')
     = map interval_ms (deferred_message_bucket s)
  /\ same_channel s s'
  /\ deferred_message s' = deferred_message s.
Proof.
  intros Hok Habs Hb s'. unfold s', add_message_to_bucket. rewrite Hb. simpl.
  split.
  { apply buckets_ok_add; auto. exact (buckets_ok_capped cat _ b bk Hok Hb). }
  split; [now apply insert_member |].
  split.
  { change (map interval_ms) with (fmap (M := list) interval_ms).
    rewrite list_fmap_insert. simpl. apply list_insert_id.
    rewrite list_lookup_fmap, Hb. reflexivity. }
  repeat split.
Qed.

Lemma allocate_bucket_ok (cat : Catalog) (s : GCS_MAVLINK) (b : nat)
    (bk : deferred_message_bucket_t) (id : ap_message) (interval now16_ms : Z) :
  buckets_ok cat (deferred_message_bucket s) ->
  absent (deferred_message_bucket s) id ->
  deferred_message_bucket s !! b = Some bk ->
  capped cat interval ->
  let s' := allocate_bucket s b interval now16_ms id in
  buckets_ok cat (deferred_message_bucket s')
  /\ deferred_message_bucket s' !! b
     = Some (mk_bucket (Bitmask.set (ap_message_ids bk) id) interval now16_ms)
  /\ same_channel s s'
  /\ deferred_message s' = deferred_message s.
Proof.
  intros Hok Habs Hb Hcap s'. unfold s', allocate_bucket. rewrite Hb. simpl.
  split; [now apply buckets_ok_add |].
  split; [now apply insert_member |].
  repeat split.
Qed.

Lemma place_in_bucket_ok (cat : Catalog) (s : GCS_MAVLINK) (now16_ms : Z)
    (id : ap_message) (interval : Z) :
  buckets_ok cat (deferred_message_bucket s) ->
  absent (deferred_message_bucket s) id ->
  interval <> 0 ->
  capped cat interval ->
  exists s',
    place_in_bucket s now16_ms id interval = (true, s')
    /\ buckets_ok cat (deferred_message_bucket s')
    /\ (exists b bk, deferred_message_bucket s' !! b = Some bk
                     /\ Bitmask.get (ap_message_ids bk) id = true
                     /\ interval_ms bk <> 0)
    /\ same_channel s s'
    /\ deferred_message s' = deferred_message s.
Proof.
  intros Hok Habs Hnz Hcap. unfold place_in_bucket.
  destruct (list_find (fun b => interval_ms b = interval) (deferred_message_bucket s))
    as [[b bk] |] eqn:E1.
  { apply list_find_Some in E1 as (Hb & Hiv & _).
    destruct (add_message_to_bucket_ok cat s b bk id Hok Habs Hb)
      as (H1 & H2 & _ & H3 & H4).
    eexists. split; [reflexivity |].
    split; [exact H1 |]. split; [| auto].
    eexists _, _. split; [exact H2 |]. simpl.
    split; [apply get_set; now left | lia]. }
  destruct (list_find (fun b => interval_ms b = 0) (deferred_message_bucket s))
    as [[b bk] |] eqn:E2.
  { apply list_find_Some in E2 as (Hb & _ & _).
    destruct (allocate_bucket_ok cat s b bk id interval now16_ms Hok Habs Hb Hcap)
      as (H1 & H2 & H3 & H4).
    eexists. split; [reflexivity |].
    split; [exact H1 |]. split; [| auto].
    eexists _, _. split; [exact H2 |]. simpl.
    split; [apply get_set; now left | exact Hnz]. }
  apply list_find_None in E2.
  destruct (deferred_message_bucket s) as [| b0 l] eqn:El.
  { destruct Hok as (Hlen & _). discriminate. }
  assert (Hb0 : interval_ms b0 <> 0) by (now inversion E2).
  destruct (closest_bucket_exists s interval b0 l El Hb0) as (b & bk & Hc & Hb & Hu).
  rewrite Hc. rewrite <- El in *.
  destruct (add_message_to_bucket_ok cat s b bk id Hok Habs Hb)
    as (H1 & H2 & _ & H3 & H4).
  eexists. split; [reflexivity |].
  split; [exact H1 |]. split; [| auto].
  eexists _, _. split; [exact H2 |]. simpl.
  split; [apply get_set; now left | exact Hu].
Qed.

(** With every slot in use and none of the matching interval, the
    message joins an existing bucket: no interval of the array changes. *)
Lemma place_in_bucket_merges (cat : Catalog) (s : GCS_MAVLINK) (now16_ms : Z)
    (id : ap_message) (interval : Z) :
  buckets_ok cat (deferred_message_bucket s) ->
  absent (deferred_message_bucket s) id ->
  Forall (fun b => interval_ms b <> 0 /\ interval_ms b <> interval)
         (deferred_message_bucket s) ->
  exists b bk,
    place_in_bucket s now16_ms id interval = (true, add_message_to_bucket s b id)
    /\ deferred_message_bucket s !! b = Some bk
    /\ map interval_ms (deferred_message_bucket (add_message_to_bucket s b id))
       = map interval_ms (deferred_message_bucket s).
Proof.
  intros Hok Habs Hfull. unfold place_in_bucket.
  destruct (list_find (fun b => interval_ms b = interval) (deferred_message_bucket s))
    as [[b bk] |] eqn:E1.
  { apply list_find_Some in E1 as (Hb & Hiv & _).
    rewrite Forall_lookup in Hfull. destruct (Hfull b bk Hb). contradiction. }
  destruct (list_find (fun b => interval_ms b = 0) (deferred_message_bucket s))
    as [[b bk] |] eqn:E2.
  { apply list_find_Some in E2 as (Hb & Hiv & _).
    rewrite Forall_lookup in Hfull. destruct (Hfull b bk Hb). contradiction. }
  destruct (deferred_message_bucket s) as [| b0 l] eqn:El.
  { destruct Hok as (Hlen & _). discriminate. }
  assert (Hb0 : interval_ms b0 <> 0) by (inversion Hfull; tauto).
  destruct (closest_bucket_exists s interval b0 l El Hb0) as (b & bk & Hc & Hb & Hu).
  rewrite Hc. rewrite <- El in *.
  exists b, bk. split; [reflexivity |]. split; [exact Hb |].
  now destruct (add_message_to_bucket_ok cat s b bk id Hok Habs Hb)
    as (_ & _ & H & _).
Qed.

(** *** Special messages *)

Lemma get_deferred_message_index_Some (s : GCS_MAVLINK) (id : ap_message) (k : nat) :
  get_deferred_message_index s id = Some k ->
  exists d, deferred_message s !! k = Some d /\ dm_id d = id.
Proof.
  unfold get_deferred_message_index. intros H.
  apply fmap_Some in H as ([k' d] & Hf & ->).
  apply list_find_Some in Hf as (Hk & Hid & _). eauto.
Qed.

Lemma get_deferred_message_index_None (cat : Catalog) (s : GCS_MAVLINK)
    (id : ap_message) :
  map dm_id (deferred_message s)
  = [MSG_HEARTBEAT cat; MSG_NEXT_PARAM cat; MSG_HIGH_LATENCY2 cat] ->
  (get_deferred_message_index s id = None <-> ~ is_special cat id).
Proof.
  intros Hids. unfold get_deferred_message_index, is_special.
  assert (H : Forall (fun d => dm_id d <> id) (deferred_message s)
              <-> Forall (fun x => x <> id) (map dm_id (deferred_message s))).
  { symmetry. apply Forall_fmap. }
  rewrite Hids in H.
  split.
  - intros Hn. apply fmap_None in Hn. apply list_find_None in Hn.
    apply H in Hn.
    inversion Hn as [| ? ? H0 Hn1]; subst.
    inversion Hn1 as [| ? ? H1 Hn2]; subst.
    inversion Hn2 as [| ? ? H2 _]; subst.
    intuition congruence.
  - intros Hn. apply fmap_None. apply list_find_None. apply H.
    repeat constructor; intuition congruence.
Qed.

(** *** Setting an interval keeps the invariant *)

Lemma link_inv_transfer (cat : Catalog) (s s' : GCS_MAVLINK) :
  link_inv cat s ->
  buckets_ok cat (deferred_message_bucket s') ->
  same_channel s s' ->
  deferred_message s' = deferred_message s ->
  link_inv cat s'.
Proof.
  intros (_ & Hids & Hcap & Hlog) Hok Hsame Hdm.
  destruct Hsame as (_ & _ & _ & _ & _ & _ & Htx).
  unfold link_inv. rewrite Hdm, Htx. auto.
Qed.

Lemma same_channel_trans (s1 s2 s3 : GCS_MAVLINK) :
  same_channel s1 s2 -> same_channel s2 s3 -> same_channel s1 s3.
Proof. unfold same_channel. intuition congruence. Qed.

Lemma same_channel_refl (s : GCS_MAVLINK) : same_channel s s.
Proof. unfold same_channel. intuition. Qed.

(** What [set_ap_message_interval] does to a state that satisfies the
    invariant: the invariant still holds, nothing outside the scheduler
    changes, and a message that is not special and was given an enabled
    interval is a member of a bucket in use. *)
Lemma set_ap_message_interval_ok (cat : Catalog) (s : GCS_MAVLINK)
    (now16_ms : Z) (id : ap_message) (interval : Z) :
  catalog_ok cat ->
  link_inv cat s ->
  let r := set_ap_message_interval cat s now16_ms id interval in
  link_inv cat (snd r)
  /\ same_channel s (snd r)
  /\ ((id < MSG_LAST cat)%N -> fst r = true)
  /\ ((id < MSG_LAST cat)%N -> ~ is_special cat id ->
      cap_message_interval cat interval <> 0 ->
      exists b bk, deferred_message_bucket (snd r) !! b = Some bk
                   /\ Bitmask.get (ap_message_ids bk) id = true
                   /\ interval_ms bk <> 0).
Proof.
  intros Hcat Hinv r. unfold r, set_ap_message_interval.
  destruct (MSG_LAST cat <=? id)%N eqn:Elast.
  { apply N.leb_le in Elast.
    simpl. split; [exact Hinv |]. split; [apply same_channel_refl |].
    split; intros; lia. }
  set (iv := cap_message_interval cat interval).
  assert (Hiv : capped cat iv) by (apply cap_message_interval_capped; exact Hcat).
  pose proof Hinv as (Hok & Hids & Hcap & Hlog).
  destruct (get_deferred_message_index s id) as [k |] eqn:Eidx.
  { simpl.
    destruct (get_deferred_message_index_Some s id k Eidx) as (d & Hk & Hd).
    split.
    { split; [exact Hok |]. split; [| split; [| exact Hlog]].
      - simpl. change (map dm_id) with (fmap (M := list) dm_id).
        rewrite list_fmap_insert. simpl. rewrite list_insert_id; [exact Hids |].
        rewrite list_lookup_fmap, Hk. simpl. now rewrite Hd.
      - simpl. apply Forall_insert; [exact Hcap | exact Hiv]. }
    split; [repeat split |].
    split; [reflexivity |].
    intros _ Hns _. exfalso.
    apply (get_deferred_message_index_None cat s id Hids) in Hns. congruence. }
  destruct (bucket_of s id) as [[b bk] |] eqn:Ebk.
  - apply bucket_of_Some in Ebk as (Hb & Hget).
    destruct (interval_ms bk =? iv) eqn:Esame.
    { simpl. split; [exact Hinv |]. split; [apply same_channel_refl |].
      split; [reflexivity |].
      intros _ _ Hnz. exists b, bk. repeat split; auto. lia. }
    destruct (remove_message_from_bucket_ok cat s b bk id Hok Hb Hget) as (Hok1 & Habs1).
    destruct (remove_message_from_bucket_frame s b id) as (Hsame1 & Hdm1).
    pose proof (link_inv_transfer cat s _ Hinv Hok1 Hsame1 Hdm1) as Hinv1.
    destruct (iv =? 0) eqn:Ez.
    { simpl. split; [exact Hinv1 |]. split; [exact Hsame1 |].
      split; [reflexivity |]. intros _ _ Hnz. lia. }
    destruct (place_in_bucket_ok cat _ now16_ms id iv Hok1 Habs1 ltac:(lia) Hiv)
      as (s' & Hp & Hok' & Hmem & Hsame' & Hdm').
    rewrite Hp. simpl.
    split; [exact (link_inv_transfer cat _ s' Hinv1 Hok' Hsame' Hdm') |].
    split; [exact (same_channel_trans _ _ _ Hsame1 Hsame') |].
    split; [reflexivity |]. intros _ _ _. exact Hmem.
  - apply bucket_of_None in Ebk.
    destruct (iv =? 0) eqn:Ez.
    { simpl. split; [exact Hinv |]. split; [apply same_channel_refl |].
      split; [reflexivity |]. intros _ _ Hnz. lia. }
    destruct (place_in_bucket_ok cat s now16_ms id iv Hok Ebk ltac:(lia) Hiv)
      as (s' & Hp & Hok' & Hmem & Hsame' & Hdm').
    rewrite Hp. simpl.
    split; [exact (link_inv_transfer cat s s' Hinv Hok' Hsame' Hdm') |].
    split; [exact Hsame' |].
    split; [reflexivity |]. intros _ _ _. exact Hmem.
Qed.

Lemma set_mavlink_message_id_interval_inv (cat : Catalog) (s : GCS_MAVLINK)
    (now16_ms mavlink_id interval : Z) :
  catalog_ok cat ->
  link_inv cat s ->
  link_inv cat (snd (set_mavlink_message_id_interval cat s now16_ms mavlink_id interval)).
Proof.
  intros Hcat Hinv. unfold set_mavlink_message_id_interval.
  destruct (_ =? _)%N; [exact Hinv |].
  now apply set_ap_message_interval_ok.
Qed.

(** *** Membership in exactly one bucket *)

Lemma member_of_one_bucket (cat : Catalog) (s : GCS_MAVLINK) (b : nat)
    (id : ap_message) :
  link_inv cat s -> in_bucket s b id -> in_exactly_one_bucket s id.
Proof.
  intros ((_ & Hdis & _) & _) Hin. exists b. split; [exact Hin |].
  intros b' (bk' & Hb' & Hg'). destruct Hin as (bk & Hb & Hg).
  exact (Hdis b' b bk' bk id Hb' Hb Hg' Hg).
Qed.

Lemma in_bucket_bucket_of (cat : Catalog) (s : GCS_MAVLINK) (b : nat)
    (bk : deferred_message_bucket_t) (id : ap_message) :
  link_inv cat s ->
  deferred_message_bucket s !! b = Some bk ->
  Bitmask.get (ap_message_ids bk) id = true ->
  bucket_of s id = Some (b, bk).
Proof.
  intros ((_ & Hdis & _) & _) Hb Hg.
  destruct (bucket_of s id) as [[b' bk'] |] eqn:E.
  - apply bucket_of_Some in E as (Hb' & Hg').
    assert (b' = b) by exact (Hdis b' b bk' bk id Hb' Hb Hg' Hg).
    subst b'. congruence.
  - apply bucket_of_None in E. rewrite (E b bk Hb) in Hg. discriminate.
Qed.

Lemma bucketed_interval_in_one_bucket (cat : Catalog) (s : GCS_MAVLINK)
    (id : ap_message) (i : Z) :
  link_inv cat s ->
  ~ is_special cat id ->
  get_ap_message_interval s id = Some i ->
  in_exactly_one_bucket s id.
Proof.
  intros Hinv Hns Hget.
  pose proof Hinv as (_ & Hids & _).
  apply (get_deferred_message_index_None cat s id Hids) in Hns.
  unfold get_ap_message_interval in Hget. rewrite Hns in Hget.
  apply fmap_Some in Hget as ([b bk] & Hbk & _).
  apply bucket_of_Some in Hbk as (Hb & Hg).
  apply (member_of_one_bucket cat s b id Hinv). exists bk. auto.
Qed.

(** ** The driver loop *)

Lemma with_sending_self (s : GCS_MAVLINK) :
  with_sending (sending_bucket_id s) (bucket_message_ids_to_send s) s = s.
Proof. now destruct s. Qed.

Lemma with_out_of_space_self (s : GCS_MAVLINK) :
  with_out_of_space (out_of_space_to_send_count s) s = s.
Proof. now destruct s. Qed.

Lemma lookup_map {A B : Type} (f : A -> B) (l : list A) (i : nat) :
  map f l !! i = f <$> l !! i.
Proof. change (map f l) with (f <$> l). apply list_lookup_fmap. Qed.

(** *** Choosing the candidate *)

Lemma find_next_bucket_to_send_cases (cat : Catalog)
    (now16_ms time_available_us : Z) (s : GCS_MAVLINK) :
  (exists i b,
      most_overdue now16_ms (bucket_timers cat s time_available_us) i
      /\ deferred_message_bucket s !! i = Some b
      /\ due now16_ms (bucket_timer cat s time_available_us b)
      /\ find_next_bucket_to_send cat now16_ms time_available_us s
         = with_sending (Z.of_nat i) (ap_message_ids b) s)
  \/ (none_due now16_ms (bucket_timers cat s time_available_us)
      /\ find_next_bucket_to_send cat now16_ms time_available_us s
         = with_sending no_bucket_to_send Bitmask.empty s).
Proof.
  unfold find_next_bucket_to_send.
  destruct (most_overdue_from 0 (bucket_timers cat s time_available_us)
              now16_ms None) as [[i m] |] eqn:E.
  - left.
    assert (Hmo : most_overdue now16_ms (bucket_timers cat s time_available_us) i)
      by (apply most_overdue_from_spec; eauto).
    apply most_overdue_from_margin in E as (tm & Htm & Hd & _).
    unfold bucket_timers in Htm. rewrite lookup_map in Htm.
    destruct (deferred_message_bucket s !! i) as [b |] eqn:Eb; [| discriminate].
    simpl in Htm. injection Htm as <-. exists i, b.
    split; [exact Hmo |]. split; [exact Eb |]. split; [exact Hd | reflexivity].
  - right. apply most_overdue_from_None in E as [_ E]. auto.
Qed.

Lemma find_next_bucket_to_send_cache (cat : Catalog)
    (now16_ms time_available_us : Z) (s : GCS_MAVLINK) :
  exists b m,
    find_next_bucket_to_send cat now16_ms time_available_us s = with_sending b m s.
Proof.
  destruct (find_next_bucket_to_send_cases cat now16_ms time_available_us s)
    as [(i & b & _ & _ & _ & H) | [_ H]]; eauto.
Qed.

(** Choosing the candidate touches nothing but the cached bucket and its
    sweep mask, and the candidate it answers is the lowest member of the
    sweep. *)
Lemma next_deferred_bucket_message_to_send_spec (cat : Catalog)
    (now16_ms time_available_us : Z) (s : GCS_MAVLINK)
    (next : option ap_message) (s1 : GCS_MAVLINK) :
  next_deferred_bucket_message_to_send cat now16_ms time_available_us s
  = (next, s1) ->
  s1 = (if sending_bucket_id s =? no_bucket_to_send
        then find_next_bucket_to_send cat now16_ms time_available_us s else s)
  /\ s1 = with_sending (sending_bucket_id s1) (bucket_message_ids_to_send s1) s
  /\ (next = None -> sending_bucket_id s1 = no_bucket_to_send
                     \/ bucket_message_ids_to_send s1 = Bitmask.empty)
  /\ (forall id, next = Some id ->
        sending_bucket_id s1 <> no_bucket_to_send
        /\ Bitmask.first_set (bucket_message_ids_to_send s1) = Some id).
Proof.
  unfold next_deferred_bucket_message_to_send. intros H. cbv zeta in H.
  assert (Hs1 : s1 = if sending_bucket_id s =? no_bucket_to_send
                     then find_next_bucket_to_send cat now16_ms time_available_us s
                     else s).
  { set (x := if sending_bucket_id s =? no_bucket_to_send
              then find_next_bucket_to_send cat now16_ms time_available_us s
              else s) in *.
    destruct (sending_bucket_id x =? no_bucket_to_send); congruence. }
  split; [exact Hs1 |]. split.
  - destruct (sending_bucket_id s =? no_bucket_to_send).
    + destruct (find_next_bucket_to_send_cache cat now16_ms time_available_us s)
        as (b & m & Hf).
      rewrite Hs1, Hf. reflexivity.
    + rewrite Hs1. symmetry. apply with_sending_self.
  - rewrite <- Hs1 in H.
    destruct (sending_bucket_id s1 =? no_bucket_to_send) eqn:E.
    + split; [intros _; left; lia | intros id ->; discriminate].
    + split.
      * intros ->. right. apply first_set_none. congruence.
      * intros id ->. split; [lia | congruence].
Qed.

Lemma cached_candidate_is_kept (cat : Catalog) (now16_ms time_available_us : Z)
    (s : GCS_MAVLINK) (id : ap_message) :
  sending_bucket_id s <> no_bucket_to_send ->
  Bitmask.first_set (bucket_message_ids_to_send s) = Some id ->
  next_deferred_bucket_message_to_send cat now16_ms time_available_us s
  = (Some id, s).
Proof.
  intros Hb Hf. unfold next_deferred_bucket_message_to_send.
  destruct (sending_bucket_id s =? no_bucket_to_send) eqn:E; [lia |].
  rewrite E. now rewrite Hf.
Qed.

Lemma deferred_message_to_send_index_spec (now16_ms : Z) (s : GCS_MAVLINK) (k : nat) :
  deferred_message_to_send_index now16_ms s = Some k
  <-> most_overdue now16_ms (special_timers s) k.
Proof.
  unfold deferred_message_to_send_index.
  rewrite <- most_overdue_from_spec. split.
  - intros H. apply fmap_Some in H as ([k' m] & H & ->). eauto.
  - intros (m & ->). reflexivity.
Qed.

Lemma deferred_message_to_send_index_none (now16_ms : Z) (s : GCS_MAVLINK) :
  deferred_message_to_send_index now16_ms s = None
  <-> none_due now16_ms (special_timers s).
Proof.
  unfold deferred_message_to_send_index.
  destruct (most_overdue_from 0 (special_timers s) now16_ms None) as [[k m] |] eqn:E.
  - split; [discriminate |]. intros Hn.
    apply most_overdue_from_margin in E as (t & Ht & Hd & _).
    exfalso. exact (Hn k t Ht Hd).
  - apply most_overdue_from_None in E as [_ E]. split; [auto | reflexivity].
Qed.

(** *** One attempt *)

Lemma try_send_bucket_message_no_space (cat : Catalog) (s : GCS_MAVLINK)
    (now16_ms : Z) (id : ap_message) :
  txspace s < required_bytes cat s id ->
  try_send_bucket_message cat s now16_ms id
  = (DeferredNoSpace, out_of_space_to_send s).
Proof.
  unfold required_bytes. intros H. unfold try_send_bucket_message.
  destruct (do_try_send_message_cases cat s id) as [[H1 _] | [_ ->]];
    [lia | reflexivity].
Qed.

Lemma try_send_bucket_message_space (cat : Catalog) (s : GCS_MAVLINK)
    (now16_ms : Z) (id : ap_message) :
  required_bytes cat s id <= txspace s ->
  try_send_bucket_message cat s now16_ms id
  = (Sent id,
     bucket_message_sent now16_ms
       (_mav_finalize_message_chan_send (frame cat) s (msg_len cat id)) id).
Proof.
  unfold required_bytes. intros H. unfold try_send_bucket_message.
  destruct (do_try_send_message_cases cat s id) as [[_ ->] | [H1 _]];
    [reflexivity | lia].
Qed.

(** What marking a message sent changes: the sweep, the cached bucket,
    and the timestamp of the bucket being sent. *)
Lemma bucket_message_sent_frame (now16_ms : Z) (s : GCS_MAVLINK) (id : ap_message) :
  let s' := bucket_message_sent now16_ms s id in
  same_channel s s'
  /\ deferred_message s' = deferred_message s
  /\ (forall j, j <> Z.to_nat (sending_bucket_id s) ->
        deferred_message_bucket s' !! j = deferred_message_bucket s !! j)
  /\ (forall j b, deferred_message_bucket s !! j = Some b ->
        exists b', deferred_message_bucket s' !! j = Some b'
                   /\ ap_message_ids b' = ap_message_ids b
                   /\ interval_ms b' = interval_ms b).
Proof.
  intros s'. unfold s', bucket_message_sent.
  destruct (Bitmask.is_empty _).
  - destruct (deferred_message_bucket s !! Z.to_nat (sending_bucket_id s))
      as [b |] eqn:Eb; simpl.
    + split; [repeat split |]. split; [reflexivity |]. split.
      * intros j Hj. apply list_lookup_insert_ne. congruence.
      * intros j bj Hbj.
        destruct (decide (j = Z.to_nat (sending_bucket_id s))) as [-> | Hne].
        -- rewrite list_lookup_insert_eq by exact (lookup_lt_Some _ _ _ Eb).
           rewrite Eb in Hbj. injection Hbj as <-. eauto.
        -- rewrite list_lookup_insert_ne by congruence. eauto.
    + split; [repeat split |]. split; [reflexivity |]. split; eauto.
  - simpl. split; [repeat split |]. split; [reflexivity |]. split; eauto.
Qed.

(** *** Falling through to the next buckets *)

Lemma excluded_scan (cat : Catalog) (s : GCS_MAVLINK)
    (now16_ms time_available_us : Z) (tried : list nat) (i : nat) (m : Z) :
  most_overdue_from 0
    (exclude_timers tried (bucket_timers cat s time_available_us))
    now16_ms None = Some (i, m) ->
  (i ∉ tried)
  /\ exists b, deferred_message_bucket s !! i = Some b
               /\ due now16_ms (bucket_timer cat s time_available_us b).
Proof.
  intros H. apply most_overdue_from_margin in H as (tm & Htm & Hd & _).
  unfold exclude_timers, bucket_timers in Htm.
  rewrite list_lookup_imap, lookup_map in Htm.
  destruct (deferred_message_bucket s !! i) as [b |] eqn:Eb; [| discriminate].
  simpl in Htm. destruct (bool_decide (i ∈ tried)) eqn:E.
  - injection Htm as <-. destruct Hd as [Hd _]. simpl in Hd. contradiction.
  - injection Htm as <-. apply bool_decide_eq_false in E. eauto.
Qed.

(** A fall-through either sends nothing and has counted the failed
    attempts, or sends the lowest member of a due bucket that was not
    tried before and makes that bucket the one being sent. *)
Lemma fall_through_cases (cat : Catalog) (now16_ms time_available_us : Z)
    (fuel : nat) :
  forall (tried : list nat) (s : GCS_MAVLINK),
    (exists c, fall_through cat fuel now16_ms time_available_us tried s
               = (DeferredNoSpace, with_out_of_space c s))
    \/ (exists i b id c,
          (i ∉ tried)
          /\ deferred_message_bucket s !! i = Some b
          /\ due now16_ms (bucket_timer cat s time_available_us b)
          /\ Bitmask.first_set (ap_message_ids b) = Some id
          /\ required_bytes cat s id <= txspace s
          /\ fall_through cat fuel now16_ms time_available_us tried s
             = (Sent id,
                bucket_message_sent now16_ms
                  (with_sending (Z.of_nat i) (ap_message_ids b)
                     (_mav_finalize_message_chan_send (frame cat)
                        (with_out_of_space c s) (msg_len cat id))) id)).
Proof.
  induction fuel as [| fuel IH]; intros tried s.
  { left. exists (out_of_space_to_send_count s). simpl.
    now rewrite with_out_of_space_self. }
  assert (Hrec : forall s0,
             (s0 = s \/ s0 = out_of_space_to_send s) ->
             forall i,
             (exists c, fall_through cat fuel now16_ms time_available_us
                          (i :: tried) s0
                        = (DeferredNoSpace, with_out_of_space c s))
             \/ (exists i' b id c,
                   (i' ∉ tried)
                   /\ deferred_message_bucket s !! i' = Some b
                   /\ due now16_ms (bucket_timer cat s time_available_us b)
                   /\ Bitmask.first_set (ap_message_ids b) = Some id
                   /\ required_bytes cat s id <= txspace s
                   /\ fall_through cat fuel now16_ms time_available_us
                        (i :: tried) s0
                      = (Sent id,
                         bucket_message_sent now16_ms
                           (with_sending (Z.of_nat i') (ap_message_ids b)
                              (_mav_finalize_message_chan_send (frame cat)
                                 (with_out_of_space c s) (msg_len cat id))) id))).
  { intros s0 Hs0 i.
    destruct (IH (i :: tried) s0) as [(c & H) | (i' & b & id & c & Hni & Hb & Hd & Hf & Hfit & H)].
    - left. exists c. rewrite H. destruct Hs0 as [-> | ->]; reflexivity.
    - right. exists i', b, id, c.
      apply not_elem_of_cons in Hni as [_ Hni].
      rewrite H. destruct Hs0 as [-> | ->]; auto 10. }
  simpl.
  destruct (most_overdue_from 0
              (exclude_timers tried (bucket_timers cat s time_available_us))
              now16_ms None) as [[i m] |] eqn:E.
  2: { left. exists (out_of_space_to_send_count s).
       now rewrite with_out_of_space_self. }
  apply excluded_scan in E as (Hni & b & Hb & Hd). rewrite Hb.
  destruct (Bitmask.first_set (ap_message_ids b)) as [id |] eqn:Ef.
  2: { apply Hrec. now left. }
  destruct (do_try_send_message_cases cat s id) as [[Hfit ->] | [Hno ->]].
  - right. exists i, b, id, (out_of_space_to_send_count s).
    rewrite with_out_of_space_self. auto 10.
  - apply Hrec. now right.
Qed.

(** *** The driver loop keeps the invariant *)

Lemma link_inv_with_sending (cat : Catalog) (s : GCS_MAVLINK) (b : Z) (m : Bitmask.t) :
  link_inv cat s -> link_inv cat (with_sending b m s).
Proof. intros H. exact H. Qed.

Lemma link_inv_out_of_space (cat : Catalog) (s : GCS_MAVLINK) (c : Z) :
  link_inv cat s -> link_inv cat (with_out_of_space c s).
Proof. intros H. exact H. Qed.

Lemma link_inv_written (cat : Catalog) (s : GCS_MAVLINK) (len : Z) :
  link_inv cat s ->
  to_uint32 (packet_overhead (frame cat) s + len) <= txspace s ->
  link_inv cat (_mav_finalize_message_chan_send (frame cat) s len).
Proof.
  intros (Hok & Hids & Hcap & Hlog) Hfit.
  split; [exact Hok |]. split; [exact Hids |]. split; [exact Hcap |].
  simpl. constructor; [exact Hfit | exact Hlog].
Qed.

Lemma do_try_send_message_inv (cat : Catalog) (s : GCS_MAVLINK) (id : ap_message) :
  link_inv cat s ->
  let r := do_try_send_message cat s id in
  link_inv cat (snd r)
  /\ deferred_message_bucket (snd r) = deferred_message_bucket s
  /\ deferred_message (snd r) = deferred_message s
  /\ sending_bucket_id (snd r) = sending_bucket_id s
  /\ bucket_message_ids_to_send (snd r) = bucket_message_ids_to_send s.
Proof.
  intros Hinv r. unfold r.
  destruct (do_try_send_message_cases cat s id) as [[Hfit ->] | [_ ->]]; simpl.
  - split; [now apply link_inv_written | repeat split].
  - split; [exact Hinv | repeat split].
Qed.

Lemma bucket_message_sent_inv (cat : Catalog) (now16_ms : Z) (s : GCS_MAVLINK)
    (id : ap_message) :
  link_inv cat s -> link_inv cat (bucket_message_sent now16_ms s id).
Proof.
  intros Hinv. unfold bucket_message_sent.
  destruct (Bitmask.is_empty _); [| exact Hinv].
  destruct (deferred_message_bucket s !! Z.to_nat (sending_bucket_id s))
    as [b |] eqn:Eb; [| exact Hinv].
  apply (link_inv_transfer cat s); [exact Hinv | | repeat split | reflexivity].
  simpl. destruct Hinv as (Hok & _).
  apply (buckets_ok_insert cat _ _ b); [exact Hok | exact Eb | |].
  - simpl. exact (buckets_ok_capped cat _ _ b Hok Eb).
  - simpl. intros id' H. now left.
Qed.

Lemma try_send_bucket_message_inv (cat : Catalog) (s : GCS_MAVLINK)
    (now16_ms : Z) (id : ap_message) :
  link_inv cat s -> link_inv cat (snd (try_send_bucket_message cat s now16_ms id)).
Proof.
  intros Hinv. unfold try_send_bucket_message.
  destruct (do_try_send_message_inv cat s id Hinv) as (H & _).
  destruct (do_try_send_message cat s id) as [ok s1]. simpl in H.
  destruct ok; simpl; [now apply bucket_message_sent_inv | exact H].
Qed.

Lemma try_send_special_message_inv (cat : Catalog) (s : GCS_MAVLINK)
    (now16_ms : Z) (k : nat) :
  link_inv cat s -> link_inv cat (snd (try_send_special_message cat s now16_ms k)).
Proof.
  intros Hinv. unfold try_send_special_message.
  destruct (deferred_message s !! k) as [d |] eqn:Ek; [| exact Hinv].
  destruct (do_try_send_message_inv cat s (dm_id d) Hinv) as (H & _ & Hdm & _).
  destruct (do_try_send_message cat s (dm_id d)) as [ok s1]. simpl in H, Hdm.
  destruct ok; simpl; [| exact H].
  destruct H as (Hok & Hids & Hcap & Hlog). rewrite Hdm in *.
  split; [exact Hok |]. split; [| split; [| exact Hlog]].
  - simpl. change (map dm_id) with (fmap (M := list) dm_id).
    rewrite list_fmap_insert. simpl. rewrite list_insert_id; [exact Hids |].
    now rewrite list_lookup_fmap, Ek.
  - simpl. apply Forall_insert; [exact Hcap |]. simpl.
    rewrite Forall_lookup in Hcap. exact (Hcap k d Ek).
Qed.

Lemma next_deferred_bucket_message_to_send_inv (cat : Catalog) (s : GCS_MAVLINK)
    (now16_ms time_available_us : Z) :
  link_inv cat s ->
  link_inv cat
    (snd (next_deferred_bucket_message_to_send cat now16_ms time_available_us s)).
Proof.
  intros Hinv.
  destruct (next_deferred_bucket_message_to_send cat now16_ms time_available_us s)
    as [next s1] eqn:E.
  apply next_deferred_bucket_message_to_send_spec in E as (_ & -> & _).
  exact Hinv.
Qed.

Lemma fall_through_inv (cat : Catalog) (now16_ms time_available_us : Z)
    (fuel : nat) (tried : list nat) (s : GCS_MAVLINK) :
  link_inv cat s ->
  link_inv cat (snd (fall_through cat fuel now16_ms time_available_us tried s)).
Proof.
  intros Hinv.
  destruct (fall_through_cases cat now16_ms time_available_us fuel tried s)
    as [(c & ->) | (i & b & id & c & _ & _ & _ & _ & Hfit & ->)]; simpl.
  - exact Hinv.
  - apply bucket_message_sent_inv, link_inv_with_sending.
    apply link_inv_written; [exact Hinv | exact Hfit].
Qed.

Lemma update_send_inv (cat : Catalog) (s : GCS_MAVLINK)
    (now16_ms time_available_us : Z) :
  link_inv cat s ->
  link_inv cat (snd (update_send cat s now16_ms time_available_us)).
Proof.
  intros Hinv. unfold update_send.
  destruct (locked s); [exact Hinv |].
  destruct (out_of_time time_available_us); [exact Hinv |].
  destruct (deferred_message_to_send_index now16_ms s) as [k |].
  { now apply try_send_special_message_inv. }
  pose proof (next_deferred_bucket_message_to_send_inv cat s now16_ms
                time_available_us Hinv) as H1.
  destruct (next_deferred_bucket_message_to_send cat now16_ms time_available_us s)
    as [next s1].
  simpl in H1. destruct next as [id |]; [| exact H1].
  pose proof (try_send_bucket_message_inv cat s1 now16_ms id H1) as H2.
  destruct (try_send_bucket_message cat s1 now16_ms id) as [r s2].
  simpl in H2. destruct r; [exact H2 | exact H2 |].
  now apply fall_through_inv.
Qed.

Lemma send_message_inv (cat : Catalog) (s : GCS_MAVLINK) (entry : mavlink_msg_entry_t) :
  link_inv cat s -> link_inv cat (send_message (frame cat) s entry).
Proof.
  intros Hinv. unfold send_message.
  destruct (Z.lt_ge_cases (txspace s)
              (to_uint32 (packet_overhead (frame cat) s + max_msg_len entry)))
    as [H | H].
  - rewrite (check_payload_size_false _ s _ H). exact Hinv.
  - rewrite (check_payload_size_true _ s _ H). simpl.
    now apply link_inv_written.
Qed.

Lemma init_inv (cat : Catalog) (mavlink1 signing : bool) (port : Z) :
  link_inv cat (init cat mavlink1 signing port).
Proof.
  split; [| split; [reflexivity | split; [| constructor]]].
  - split; [reflexivity |]. split.
    + intros i j bi bj id Hi _ Gi _.
      change (deferred_message_bucket (init cat mavlink1 signing port))
        with (replicate 10 (mk_bucket Bitmask.empty 0 0)) in Hi.
      apply lookup_replicate in Hi as [-> _].
      cbn [ap_message_ids] in Gi. rewrite get_empty in Gi. discriminate.
    + simpl. repeat constructor.
  - simpl. repeat constructor.
Qed.

(** The invariant holds of every state a channel goes through. *)
Lemma reachable_inv (cat : Catalog) (s : GCS_MAVLINK) :
  catalog_ok cat -> reachable cat s -> link_inv cat s.
Proof.
  intros Hcat Hr. induction Hr.
  - apply init_inv.
  - now apply set_ap_message_interval_ok.
  - now apply set_mavlink_message_id_interval_inv.
  - now apply update_send_inv.
  - now apply send_message_inv.
  - exact IHHr.
  - exact IHHr.
  - exact IHHr.
Qed.

(** *** The invariant of the buckets and the sweep *)

Lemma sched_inv_transfer (cat : Catalog) (s s' : GCS_MAVLINK) :
  deferred_message_bucket s' = deferred_message_bucket s ->
  sending_bucket_id s' = sending_bucket_id s ->
  bucket_message_ids_to_send s' = bucket_message_ids_to_send s ->
  sched_inv cat s -> sched_inv cat s'.
Proof. unfold sched_inv, sweep_ok. intros -> -> ->. tauto. Qed.

Lemma sched_inv_no_bucket (cat : Catalog) (s : GCS_MAVLINK) (m : Bitmask.t) :
  sched_inv cat s -> sched_inv cat (with_sending no_bucket_to_send m s).
Proof.
  intros (H1 & H2 & _). split; [exact H1 |]. split; [exact H2 |].
  left. reflexivity.
Qed.

Lemma sched_inv_bucket (cat : Catalog) (s : GCS_MAVLINK) (i : nat)
    (b : deferred_message_bucket_t) :
  sched_inv cat s -> deferred_message_bucket s !! i = Some b ->
  sched_inv cat (with_sending (Z.of_nat i) (ap_message_ids b) s).
Proof.
  intros (H1 & H2 & _) Hb. split; [exact H1 |]. split; [exact H2 |].
  right. exists i, b. simpl. auto.
Qed.

Lemma sched_buckets_insert (cat : Catalog) (l : list deferred_message_bucket_t)
    (i : nat) (b b' : deferred_message_bucket_t) :
  specials_apart cat l -> members_in_use l -> l !! i = Some b ->
  (forall id, Bitmask.get (ap_message_ids b') id = true ->
              Bitmask.get (ap_message_ids b) id = true \/ ~ is_special cat id) ->
  (forall id, Bitmask.get (ap_message_ids b') id = true -> interval_ms b' <> 0) ->
  specials_apart cat (<[i := b']> l) /\ members_in_use (<[i := b']> l).
Proof.
  intros Hsp Huse Hi Hmem Hiv.
  pose proof (lookup_lt_Some _ _ _ Hi) as Hlt. split.
  - intros id Hid j bj Hj.
    destruct (decide (j = i)) as [-> | Hne].
    + rewrite list_lookup_insert_eq in Hj by exact Hlt. injection Hj as <-.
      destruct (Bitmask.get (ap_message_ids b') id) eqn:E; [| reflexivity].
      exfalso. destruct (Hmem id E) as [Hb | Hns]; [| contradiction].
      rewrite (Hsp id Hid i b Hi) in Hb. discriminate.
    + rewrite list_lookup_insert_ne in Hj by congruence.
      exact (Hsp id Hid j bj Hj).
  - intros j bj id Hj Hg.
    destruct (decide (j = i)) as [-> | Hne].
    + rewrite list_lookup_insert_eq in Hj by exact Hlt. injection Hj as <-.
      exact (Hiv id Hg).
    + rewrite list_lookup_insert_ne in Hj by congruence.
      exact (Huse j bj id Hj Hg).
Qed.

Lemma bucket_message_sent_sched (cat : Catalog) (now16_ms : Z)
    (s : GCS_MAVLINK) (id : ap_message) :
  sched_inv cat s -> sched_inv cat (bucket_message_sent now16_ms s id).
Proof.
  intros Hinv. unfold bucket_message_sent.
  destruct (Bitmask.is_empty _).
  - destruct (deferred_message_bucket s !! Z.to_nat (sending_bucket_id s))
      as [b |] eqn:Eb; [| now apply sched_inv_no_bucket].
    destruct Hinv as (H1 & H2 & _).
    destruct (sched_buckets_insert cat _ _ b
                (mk_bucket (ap_message_ids b) (interval_ms b) now16_ms) H1 H2 Eb)
      as (H1' & H2').
    + simpl. auto.
    + simpl. intros id' Hg. exact (H2 _ b id' Eb Hg).
    + split; [exact H1' |]. split; [exact H2' |]. left. reflexivity.
  - destruct Hinv as (H1 & H2 & H3).
    split; [exact H1 |]. split; [exact H2 |].
    destruct H3 as [H3 | (i & b & Hs & Hb & Hsub)]; [left; exact H3 |].
    right. exists i, b. simpl. split; [exact Hs |]. split; [exact Hb |].
    intros id' Hg. apply get_clear in Hg as [Hg _]. auto.
Qed.

Lemma find_next_bucket_to_send_sched (cat : Catalog)
    (now16_ms time_available_us : Z) (s : GCS_MAVLINK) :
  sched_inv cat s ->
  sched_inv cat (find_next_bucket_to_send cat now16_ms time_available_us s).
Proof.
  intros Hinv.
  destruct (find_next_bucket_to_send_cases cat now16_ms time_available_us s)
    as [(i & b & _ & Hb & _ & ->) | [_ ->]].
  - now apply sched_inv_bucket.
  - now apply sched_inv_no_bucket.
Qed.

Lemma next_deferred_bucket_message_to_send_sched (cat : Catalog)
    (now16_ms time_available_us : Z) (s : GCS_MAVLINK) :
  sched_inv cat s ->
  sched_inv cat
    (snd (next_deferred_bucket_message_to_send cat now16_ms time_available_us s)).
Proof.
  intros Hinv.
  destruct (next_deferred_bucket_message_to_send cat now16_ms time_available_us s)
    as [next s1] eqn:E.
  apply next_deferred_bucket_message_to_send_spec in E as (-> & _).
  simpl. destruct (sending_bucket_id s =? no_bucket_to_send); [| exact Hinv].
  now apply find_next_bucket_to_send_sched.
Qed.

Lemma do_try_send_message_frame (cat : Catalog) (s : GCS_MAVLINK) (id : ap_message) :
  let s' := snd (do_try_send_message cat s id) in
  deferred_message_bucket s' = deferred_message_bucket s
  /\ deferred_message s' = deferred_message s
  /\ sending_bucket_id s' = sending_bucket_id s
  /\ bucket_message_ids_to_send s' = bucket_message_ids_to_send s.
Proof.
  destruct (do_try_send_message_cases cat s id) as [[_ ->] | [_ ->]];
    simpl; auto.
Qed.

Lemma fall_through_sched (cat : Catalog) (now16_ms time_available_us : Z)
    (fuel : nat) (tried : list nat) (s : GCS_MAVLINK) :
  sched_inv cat s ->
  sched_inv cat (snd (fall_through cat fuel now16_ms time_available_us tried s)).
Proof.
  intros Hinv.
  destruct (fall_through_cases cat now16_ms time_available_us fuel tried s)
    as [(c & ->) | (i & b & id & c & _ & Hb & _ & _ & _ & ->)]; simpl.
  - exact Hinv.
  - apply bucket_message_sent_sched.
    apply (sched_inv_bucket cat
             (_mav_finalize_message_chan_send (frame cat)
                (with_out_of_space c s) (msg_len cat id)) i b);
      [exact Hinv | exact Hb].
Qed.

Lemma update_send_sched (cat : Catalog) (s : GCS_MAVLINK)
    (now16_ms time_available_us : Z) :
  sched_inv cat s ->
  sched_inv cat (snd (update_send cat s now16_ms time_available_us)).
Proof.
  intros Hinv. unfold update_send.
  destruct (locked s); [exact Hinv |].
  destruct (out_of_time time_available_us); [exact Hinv |].
  destruct (deferred_message_to_send_index now16_ms s) as [k |].
  { unfold try_send_special_message.
    destruct (deferred_message s !! k) as [d |]; [| exact Hinv].
    destruct (do_try_send_message_frame cat s (dm_id d)) as (Hb & _ & Hs & Hm).
    destruct (do_try_send_message cat s (dm_id d)) as [ok s1].
    simpl in Hb, Hs, Hm.
    destruct ok; simpl;
      apply (sched_inv_transfer cat s); assumption. }
  pose proof (next_deferred_bucket_message_to_send_sched cat now16_ms
                time_available_us s Hinv) as H1.
  destruct (next_deferred_bucket_message_to_send cat now16_ms time_available_us s)
    as [next s1].
  simpl in H1. destruct next as [id |]; [| exact H1].
  unfold try_send_bucket_message.
  destruct (do_try_send_message_frame cat s1 id) as (Hb & _ & Hs & Hm).
  destruct (do_try_send_message cat s1 id) as [ok s2]. simpl in Hb, Hs, Hm.
  assert (H2 : sched_inv cat s2) by (apply (sched_inv_transfer cat s1); assumption).
  destruct ok.
  - now apply bucket_message_sent_sched.
  - now apply fall_through_sched.
Qed.

Lemma remove_message_from_bucket_sched (cat : Catalog) (s : GCS_MAVLINK)
    (b : nat) (bk : deferred_message_bucket_t) (id : ap_message) :
  sched_inv cat s ->
  deferred_message_bucket s !! b = Some bk ->
  sched_inv cat (remove_message_from_bucket s b id).
Proof.
  intros (H1 & H2 & H3) Hb.
  pose proof (remove_message_from_bucket_buckets s b bk id Hb) as Hbs.
  set (b' := free_if_empty
               (mk_bucket (Bitmask.clear (ap_message_ids bk) id)
                          (interval_ms bk) (last_sent_ms bk))) in *.
  assert (Hids : ap_message_ids b' = Bitmask.clear (ap_message_ids bk) id).
  { unfold b'. now rewrite free_if_empty_ids. }
  destruct (sched_buckets_insert cat _ _ bk b' H1 H2 Hb) as (H1' & H2').
  { intros id' Hg. rewrite Hids in Hg. apply get_clear in Hg. left. tauto. }
  { intros id' Hg. unfold b', free_if_empty in *. simpl in *.
    destruct (Bitmask.is_empty (Bitmask.clear (ap_message_ids bk) id)) eqn:E.
    - apply is_empty_spec in E. simpl in Hg. rewrite E, get_empty in Hg.
      discriminate.
    - simpl in *. apply get_clear in Hg as [Hg _]. exact (H2 b bk id' Hb Hg). }
  split; [rewrite Hbs; exact H1' |]. split; [rewrite Hbs; exact H2' |].
  pose proof (lookup_lt_Some _ _ _ Hb) as Hlt.
  unfold remove_message_from_bucket. rewrite Hb. fold b'.
  destruct (sending_bucket_id s =? Z.of_nat b) eqn:E.
  - destruct (Bitmask.is_empty _); [left; reflexivity |].
    destruct H3 as [H3 | (i & bi & Hs & Hbi & Hsub)]; [left; exact H3 |].
    assert (i = b) by lia. subst i. rewrite Hb in Hbi. injection Hbi as <-.
    right. exists b, b'. simpl. split; [exact Hs |].
    split; [now apply list_lookup_insert_eq |].
    intros id' Hg. rewrite Hids. apply get_clear in Hg as [Hg Hne].
    apply get_clear. auto.
  - destruct H3 as [H3 | (i & bi & Hs & Hbi & Hsub)]; [left; exact H3 |].
    right. exists i, bi. simpl. split; [exact Hs |]. split; [| exact Hsub].
    rewrite list_lookup_insert_ne by lia. exact Hbi.
Qed.

Lemma grow_bucket_sched (cat : Catalog) (s : GCS_MAVLINK) (b : nat)
    (bk : deferred_message_bucket_t) (id : ap_message) (iv last : Z) :
  sched_inv cat s ->
  deferred_message_bucket s !! b = Some bk ->
  ~ is_special cat id ->
  iv <> 0 ->
  sched_inv cat
    (with_buckets
       (<[b := mk_bucket (Bitmask.set (ap_message_ids bk) id) iv last]>
          (deferred_message_bucket s)) s).
Proof.
  intros (H1 & H2 & H3) Hb Hns Hiv.
  destruct (sched_buckets_insert cat _ _ bk
              (mk_bucket (Bitmask.set (ap_message_ids bk) id) iv last) H1 H2 Hb)
    as (H1' & H2').
  { simpl. intros id' Hg. apply get_set in Hg as [-> | Hg]; auto. }
  { simpl. auto. }
  split; [exact H1' |]. split; [exact H2' |].
  destruct H3 as [H3 | (i & bi & Hs & Hbi & Hsub)]; [left; exact H3 |].
  right. simpl.
  destruct (decide (i = b)) as [-> | Hne].
  - rewrite Hb in Hbi. injection Hbi as <-.
    eexists b, _. split; [exact Hs |].
    split; [apply list_lookup_insert_eq; exact (lookup_lt_Some _ _ _ Hb) |].
    simpl. intros id' Hg. apply get_set. right. auto.
  - exists i, bi. split; [exact Hs |]. split; [| exact Hsub].
    rewrite list_lookup_insert_ne by congruence. exact Hbi.
Qed.

Lemma place_in_bucket_sched (cat : Catalog) (s : GCS_MAVLINK) (now16_ms : Z)
    (id : ap_message) (interval : Z) :
  sched_inv cat s -> ~ is_special cat id -> interval <> 0 ->
  sched_inv cat (snd (place_in_bucket s now16_ms id interval)).
Proof.
  intros Hinv Hns Hnz. unfold place_in_bucket.
  destruct (list_find (fun b => interval_ms b = interval) (deferred_message_bucket s))
    as [[b bk] |] eqn:E1.
  { apply list_find_Some in E1 as (Hb & Hiv & _). simpl.
    unfold add_message_to_bucket. rewrite Hb.
    apply grow_bucket_sched; auto. lia. }
  destruct (list_find (fun b => interval_ms b = 0) (deferred_message_bucket s))
    as [[b bk] |] eqn:E2.
  { apply list_find_Some in E2 as (Hb & _ & _). simpl.
    unfold allocate_bucket. rewrite Hb.
    apply grow_bucket_sched; auto. }
  unfold closest_bucket.
  destruct (closest_from 0 (deferred_message_bucket s) interval None)
    as [[k d] |] eqn:E3; simpl; [| exact Hinv].
  apply closest_from_Some in E3 as [E3 | (bk & Hk & _ & Hbk)]; [discriminate |].
  rewrite Nat.sub_0_r in Hk.
  unfold add_message_to_bucket. rewrite Hk.
  apply grow_bucket_sched; auto.
Qed.

Lemma set_ap_message_interval_sched (cat : Catalog) (s : GCS_MAVLINK)
    (now16_ms : Z) (id : ap_message) (interval : Z) :
  link_inv cat s -> sched_inv cat s ->
  sched_inv cat (snd (set_ap_message_interval cat s now16_ms id interval)).
Proof.
  intros (_ & Hids & _) Hinv. unfold set_ap_message_interval.
  destruct (MSG_LAST cat <=? id)%N; [exact Hinv |].
  set (iv := cap_message_interval cat interval).
  destruct (get_deferred_message_index s id) as [k |] eqn:Eidx; [exact Hinv |].
  apply (get_deferred_message_index_None cat s id Hids) in Eidx.
  destruct (bucket_of s id) as [[b bk] |] eqn:Ebk.
  - apply bucket_of_Some in Ebk as (Hb & _).
    destruct (interval_ms bk =? iv); [exact Hinv |].
    pose proof (remove_message_from_bucket_sched cat s b bk id Hinv Hb) as H1.
    destruct (iv =? 0) eqn:Ez; [exact H1 |].
    apply place_in_bucket_sched; [exact H1 | exact Eidx | lia].
  - destruct (iv =? 0) eqn:Ez; [exact Hinv |].
    apply place_in_bucket_sched; [exact Hinv | exact Eidx | lia].
Qed.

Lemma init_sched (cat : Catalog) (mavlink1 signing : bool) (port : Z) :
  sched_inv cat (init cat mavlink1 signing port).
Proof.
  assert (H : forall j bj id,
             deferred_message_bucket (init cat mavlink1 signing port) !! j = Some bj ->
             Bitmask.get (ap_message_ids bj) id = false).
  { intros j bj id Hj.
    change (deferred_message_bucket (init cat mavlink1 signing port))
      with (replicate 10 (mk_bucket Bitmask.empty 0 0)) in Hj.
    apply lookup_replicate in Hj as [-> _]. apply get_empty. }
  split; [| split].
  - intros id _ j bj Hj. exact (H j bj id Hj).
  - intros j bj id Hj Hg. rewrite (H j bj id Hj) in Hg. discriminate.
  - left. reflexivity.
Qed.

Lemma send_message_sched (cat : Catalog) (s : GCS_MAVLINK)
    (entry : mavlink_msg_entry_t) :
  sched_inv cat s -> sched_inv cat (send_message (frame cat) s entry).
Proof.
  intros Hinv. unfold send_message.
  destruct (Z.lt_ge_cases (txspace s)
              (to_uint32 (packet_overhead (frame cat) s + max_msg_len entry)))
    as [H | H].
  - rewrite (check_payload_size_false _ s _ H). exact Hinv.
  - rewrite (check_payload_size_true _ s _ H). exact Hinv.
Qed.

(** The buckets hold no special message, a bucket with a member is in
    use, and the sweep is part of the bucket being sent, in every state
    a channel goes through. *)
Lemma reachable_sched (cat : Catalog) (s : GCS_MAVLINK) :
  catalog_ok cat -> reachable cat s -> sched_inv cat s.
Proof.
  intros Hcat Hr. induction Hr.
  - apply init_sched.
  - apply set_ap_message_interval_sched; [now apply reachable_inv | exact IHHr].
  - unfold set_mavlink_message_id_interval.
    destruct (_ =? _)%N; [exact IHHr |].
    apply set_ap_message_interval_sched; [now apply reachable_inv | exact IHHr].
  - now apply update_send_sched.
  - now apply send_message_sched.
  - exact IHHr.
  - exact IHHr.
  - exact IHHr.
Qed.

(** *** The bound on the fall-through is enough *)

Lemma tried_all (n : nat) (tried : list nat) :
  NoDup tried -> (forall j, j ∈ tried -> (j < n)%nat) ->
  (n <= length tried)%nat ->
  forall j, (j < n)%nat -> j ∈ tried.
Proof.
  intros Hnd Hin Hlen j Hj.
  assert (Hsub : tried ⊆+ seq 0 n).
  { apply NoDup_submseteq; [exact Hnd |].
    intros x Hx. apply elem_of_seq. specialize (Hin x Hx). lia. }
  assert (Hperm : tried ≡ₚ seq 0 n).
  { apply submseteq_length_Permutation; [exact Hsub |].
    rewrite length_seq. exact Hlen. }
  rewrite Hperm. apply elem_of_seq. lia.
Qed.

(** Every scan of a fall-through takes one more bucket out, so after as
    many scans as buckets are left none is due: more fuel changes
    nothing. *)
Lemma fall_through_fuel_enough (cat : Catalog) (now16_ms time_available_us : Z)
    (fuel : nat) :
  forall (tried : list nat) (s : GCS_MAVLINK),
    NoDup tried ->
    (forall j, j ∈ tried -> (j < length (deferred_message_bucket s))%nat) ->
    (length (deferred_message_bucket s) <= fuel + length tried)%nat ->
    fall_through cat (S fuel) now16_ms time_available_us tried s
    = fall_through cat fuel now16_ms time_available_us tried s.
Proof.
  induction fuel as [| fuel IH]; intros tried s Hnd Hin Hlen.
  - cbn [fall_through].
    destruct (most_overdue_from 0
                (exclude_timers tried (bucket_timers cat s time_available_us))
                now16_ms None) as [[i m] |] eqn:E; [| reflexivity].
    apply excluded_scan in E as (Hni & b & Hb & _).
    exfalso. apply Hni.
    apply (tried_all (length (deferred_message_bucket s))); auto.
    exact (lookup_lt_Some _ _ _ Hb).
  - change (fall_through cat (S (S fuel)) now16_ms time_available_us tried s)
      with (match most_overdue_from 0
                    (exclude_timers tried (bucket_timers cat s time_available_us))
                    now16_ms None with
            | None => (DeferredNoSpace, s)
            | Some (i, _) =>
                match deferred_message_bucket s !! i with
                | None => (DeferredNoSpace, s)
                | Some b =>
                    match Bitmask.first_set (ap_message_ids b) with
                    | None =>
                        fall_through cat (S fuel) now16_ms time_available_us
                          (i :: tried) s
                    | Some id =>
                        let '(ok, s1) := do_try_send_message cat s id in
                        if ok then
                          (Sent id,
                           bucket_message_sent now16_ms
                             (with_sending (Z.of_nat i) (ap_message_ids b) s1) id)
                        else
                          fall_through cat (S fuel) now16_ms time_available_us
                            (i :: tried) s1
                    end
                end
            end).
    cbn [fall_through].
    destruct (most_overdue_from 0
                (exclude_timers tried (bucket_timers cat s time_available_us))
                now16_ms None) as [[i m] |] eqn:E; [| reflexivity].
    apply excluded_scan in E as (Hni & b & Hb & _). rewrite Hb.
    pose proof (lookup_lt_Some _ _ _ Hb) as Hlt.
    assert (Hgo : forall s0,
               deferred_message_bucket s0 = deferred_message_bucket s ->
               fall_through cat (S fuel) now16_ms time_available_us (i :: tried) s0
               = fall_through cat fuel now16_ms time_available_us (i :: tried) s0).
    { intros s0 Hs0. apply IH.
      - constructor; assumption.
      - rewrite Hs0. intros j Hj. apply elem_of_cons in Hj as [-> | Hj]; auto.
      - rewrite Hs0. simpl. lia. }
    destruct (Bitmask.first_set (ap_message_ids b)) as [id |]; [| now apply Hgo].
    destruct (do_try_send_message_cases cat s id) as [[_ ->] | [_ ->]];
      [reflexivity | now apply Hgo].
Qed.

(** With the cached bucket among the buckets, [update_send] gives its
    fall-through fuel enough: any more would change nothing. *)
Lemma fall_through_more_fuel (cat : Catalog) (now16_ms time_available_us : Z)
    (s : GCS_MAVLINK) (bucket : nat) (more : nat) :
  (bucket < length (deferred_message_bucket s))%nat ->
  fall_through cat (length (deferred_message_bucket s) + more) now16_ms
    time_available_us [bucket] s
  = fall_through cat (length (deferred_message_bucket s)) now16_ms
      time_available_us [bucket] s.
Proof.
  intros Hlt. induction more as [| more IH].
  - now rewrite Nat.add_0_r.
  - rewrite <- IH.
    replace (length (deferred_message_bucket s) + S more)%nat
      with (S (length (deferred_message_bucket s) + more)) by lia.
    apply fall_through_fuel_enough.
    + apply NoDup_singleton.
    + intros j Hj. apply list_elem_of_singleton in Hj. now subst j.
    + simpl. lia.
Qed.

(** A call whose time budget is spent sends nothing and changes
    nothing, and the budget is spent when less than 200 microseconds
    remain. *)
Lemma update_send_out_of_time (cat : Catalog) (s : GCS_MAVLINK)
    (now16_ms time_available_us : Z) :
  (out_of_time time_available_us = true <-> time_available_us < 200)
  /\ (time_available_us < 200 ->
      update_send cat s now16_ms time_available_us = (NothingDue, s)).
Proof.
  assert (H : out_of_time time_available_us = true <-> time_available_us < 200).
  { unfold out_of_time, min_loop_time_remaining_for_message_send_us.
    apply Z.ltb_lt. }
  split; [exact H |]. intros Ht. apply H in Ht.
  unfold update_send. rewrite Ht. now destruct (locked s).
Qed.

(** *** The small links are states of a channel *)

Lemma small_catalog_ok : catalog_ok small_catalog.
Proof. unfold catalog_ok. simpl. lia. Qed.

Lemma small_link_reachable : reachable small_catalog small_link.
Proof. apply reach_init. uint_solve. Qed.

Lemma heartbeat_link_reachable : reachable small_catalog heartbeat_link.
Proof.
  apply reach_set_interval; [exact small_link_reachable | |];
    uint_solve.
Qed.

Lemma streaming_link_reachable : reachable small_catalog streaming_link.
Proof.
  apply reach_set_interval; [exact small_link_reachable | |];
    uint_solve.
Qed.

Lemma congested_link_reachable : reachable small_catalog congested_link.
Proof.
  repeat (apply reach_set_interval; [| uint_solve | uint_solve]).
  apply reach_port; [exact small_link_reachable | uint_solve].
Qed.

Lemma congested_link_two_reachable : reachable small_catalog congested_link_two.
Proof.
  apply reach_set_interval; [exact congested_link_reachable | |]; uint_solve.
Qed.

(** *** A candidate that is not admitted *)

(** C2 as stated fails where it says that all other scheduler state is
    unchanged: with room for 45 bytes, message 7 (52 bytes) and message
    5 (40 bytes) both due, the candidate is message 7 and is not
    admitted.  The failed attempt itself counts the failure in the
    out-of-space counter, and the same call falls through and sends
    message 5: it has written a frame, restarted the timestamp of the
    bucket of message 5 and dropped the cached bucket.  And the retry
    need not be on the next call: with message 6 in the bucket of
    message 5, the candidate of the next call is message 6. *)
Lemma fall_through_changes_scheduler_state :
  let s := congested_link in
  let s' := snd (update_send small_catalog s 300 1000) in
  let s2 := snd (update_send small_catalog congested_link_two 300 1000) in
  reachable small_catalog s
  /\ locked s = false
  /\ deferred_message_to_send_index 300 s = None
  /\ fst (next_deferred_bucket_message_to_send small_catalog 300 1000 s) = Some 7%N
  /\ txspace s < required_bytes small_catalog s 7%N
  /\ out_of_space_to_send_count
       (snd (try_send_bucket_message small_catalog
               (snd (next_deferred_bucket_message_to_send small_catalog
                       300 1000 s)) 300 7%N))
     <> out_of_space_to_send_count s
  /\ fst (update_send small_catalog s 300 1000) = Sent 5%N
  /\ tx_log s' <> tx_log s
  /\ deferred_message_bucket s' <> deferred_message_bucket s
  /\ sending_bucket_id s' <> sending_bucket_id
                                (snd (next_deferred_bucket_message_to_send
                                        small_catalog 300 1000 s))
  /\ out_of_space_to_send_count s' <> out_of_space_to_send_count s
  /\ fst (next_deferred_bucket_message_to_send small_catalog 300 1000
            congested_link_two) = Some 7%N
  /\ fst (update_send small_catalog congested_link_two 300 1000) = Sent 5%N
  /\ fst (next_deferred_bucket_message_to_send small_catalog 301 1000 s2)
     = Some 6%N.
Proof.
  split; [exact congested_link_reachable |].
  split; [reflexivity |]. split; [reflexivity |]. split; [reflexivity |].
  split; [vm_compute; reflexivity |]. split; [vm_compute; discriminate |].
  split; [reflexivity |].
  split; [vm_compute; discriminate |]. split; [vm_compute; discriminate |].
  split; [vm_compute; discriminate |]. split; [vm_compute; discriminate |].
  split; [reflexivity |]. split; reflexivity.
Qed.

(** C2, amended: when the candidate of the bucket scheduler is not
    admitted, the message is not marked sent and the timestamp of its
    bucket is left unchanged.  The failed attempt itself changes the
    out-of-space counter and nothing else, and choosing the candidate
    changed the cached bucket at most.  The call it fails in leaves the
    bucket of the message (members, interval, timestamp) as it was, the
    message a member of it and the bucket as overdue as before, and
    leaves the special timers, the lock, the port and the framing
    alone.  The call falls through to the next most overdue buckets:
    either it sends nothing, and then only the counter and the cached
    bucket differ, the same message is the candidate of every later
    call and is sent once no special message is due and the channel has
    room for it; or it sends the lowest member of another bucket that is
    due, a message other than the failed one, which writes one admitted
    frame and changes the timestamp of that bucket at most, its members
    and interval and all other buckets being as before. *)
Theorem failed_candidate_stays_pending (cat : Catalog) (s s1 : GCS_MAVLINK)
    (now16_ms time_available_us : Z) (id : ap_message) :
  catalog_ok cat ->
  reachable cat s ->
  locked s = false ->
  out_of_time time_available_us = false ->
  deferred_message_to_send_index now16_ms s = None ->
  next_deferred_bucket_message_to_send cat now16_ms time_available_us s
  = (Some id, s1) ->
  txspace s < required_bytes cat s id ->
  let r := fst (update_send cat s now16_ms time_available_us) in
  let s' := snd (update_send cat s now16_ms time_available_us) in
  let bucket := Z.to_nat (sending_bucket_id s1) in
  try_send_bucket_message cat s1 now16_ms id
  = (DeferredNoSpace, out_of_space_to_send s1)
  /\ s1 = with_sending (sending_bucket_id s1) (bucket_message_ids_to_send s1) s
  /\ (exists b,
        deferred_message_bucket s !! bucket = Some b
        /\ deferred_message_bucket s' !! bucket = Some b
        /\ Bitmask.get (ap_message_ids b) id = true
        /\ bucket_timer cat s' time_available_us b
           = bucket_timer cat s time_available_us b)
  /\ deferred_message s' = deferred_message s
  /\ (_locked s' = _locked s
      /\ port_txspace s' = port_txspace s
      /\ out_mavlink1 s' = out_mavlink1 s
      /\ signing_outgoing s' = signing_outgoing s
      /\ stream_slowdown_ms s' = stream_slowdown_ms s)
  /\ (r = DeferredNoSpace \/ exists id', r = Sent id' /\ id' <> id)
  /\ (r = DeferredNoSpace ->
        (exists c, s' = with_out_of_space c s1)
        /\ deferred_message_bucket s' = deferred_message_bucket s
        /\ tx_log s' = tx_log s
        /\ Bitmask.get (bucket_message_ids_to_send s') id = true
        /\ (forall later t',
              next_deferred_bucket_message_to_send cat later t' s'
              = (Some id, s'))
        /\ (forall later t' room,
              out_of_time t' = false ->
              deferred_message_to_send_index later s' = None ->
              required_bytes cat s id <= txspace (with_port_txspace room s') ->
              fst (update_send cat (with_port_txspace room s') later t')
              = Sent id))
  /\ (forall id', r = Sent id' ->
        exists i b,
          i <> bucket
          /\ deferred_message_bucket s !! i = Some b
          /\ due now16_ms (bucket_timer cat s time_available_us b)
          /\ Bitmask.first_set (ap_message_ids b) = Some id'
          /\ required_bytes cat s id' <= txspace s
          /\ tx_log s' = mk_tx (required_bytes cat s id') (txspace s) :: tx_log s
          /\ (forall j, j <> i ->
                deferred_message_bucket s' !! j = deferred_message_bucket s !! j)
          /\ (exists b',
                deferred_message_bucket s' !! i = Some b'
                /\ ap_message_ids b' = ap_message_ids b
                /\ interval_ms b' = interval_ms b)).
Proof.
  intros Hcat Hreach Hlock Htime Hspecial Hnext Hspace r s' bucket.
  destruct (next_deferred_bucket_message_to_send_spec _ _ _ _ _ _ Hnext)
    as (_ & Hs1 & _ & Hcand).
  destruct (Hcand id eq_refl) as (Hcached & Hfirst).
  pose proof (first_set_member _ _ Hfirst) as Hpending.
  assert (Hsched : sched_inv cat s1).
  { pose proof (next_deferred_bucket_message_to_send_sched cat now16_ms
                  time_available_us s (reachable_sched cat s Hcat Hreach)) as H.
    now rewrite Hnext in H. }
  destruct Hsched as (_ & _ & [Hno | (i0 & b0 & Hi0 & Hb0 & Hsub)]);
    [contradiction |].
  assert (Hbucket : bucket = i0) by (unfold bucket; rewrite Hi0; apply Nat2Z.id).
  assert (Hb0s : deferred_message_bucket s !! i0 = Some b0).
  { rewrite Hs1 in Hb0. exact Hb0. }
  assert (Hspace1 : txspace s1 < required_bytes cat s1 id).
  { rewrite Hs1. exact Hspace. }
  pose proof (try_send_bucket_message_no_space cat s1 now16_ms id Hspace1) as Htry.
  split; [exact Htry |]. split; [exact Hs1 |].
  assert (Hrun : update_send cat s now16_ms time_available_us
                 = fall_through cat (length (deferred_message_bucket s1))
                     now16_ms time_available_us [bucket]
                     (out_of_space_to_send s1)).
  { unfold update_send. rewrite Hlock, Htime, Hspecial, Hnext, Htry. reflexivity. }
  assert (Htimer : forall x,
             _locked x = _locked s -> port_txspace x = port_txspace s ->
             stream_slowdown_ms x = stream_slowdown_ms s ->
             bucket_timer cat x time_available_us b0
             = bucket_timer cat s time_available_us b0).
  { intros x H1 H2 H3.
    unfold bucket_timer, get_reschedule_interval_ms, behind, txspace.
    now rewrite H1, H2, H3. }
  destruct (fall_through_cases cat now16_ms time_available_us
              (length (deferred_message_bucket s1)) [bucket]
              (out_of_space_to_send s1))
    as [(c & Hft) | (i & b & id' & c & Hni & Hb & Hdue & Hf & Hfit & Hft)];
    rewrite Hft in Hrun.
  - (* nothing could be sent *)
    assert (Hs' : s' = with_out_of_space c s1) by (unfold s'; now rewrite Hrun).
    assert (Hr : r = DeferredNoSpace) by (unfold r; now rewrite Hrun).
    assert (Hs's : s' = with_out_of_space c
                          (with_sending (sending_bucket_id s1)
                             (bucket_message_ids_to_send s1) s))
      by (rewrite Hs'; rewrite Hs1 at 1; reflexivity).
    split.
    { exists b0. rewrite Hbucket. split; [exact Hb0s |].
      split; [rewrite Hs'; exact Hb0 |]. split; [exact (Hsub id Hpending) |].
      apply Htimer; rewrite Hs's; reflexivity. }
    split; [rewrite Hs's; reflexivity |].
    split; [rewrite Hs's; repeat split |].
    split; [now left |].
    split; [| intros id' Hid'; rewrite Hr in Hid'; discriminate].
    intros _.
    split; [exists c; exact Hs' |].
    split; [rewrite Hs's; reflexivity |].
    split; [rewrite Hs's; reflexivity |].
    split; [rewrite Hs'; exact Hpending |].
    split.
    { intros later t'. apply cached_candidate_is_kept; rewrite Hs'; assumption. }
    intros later t' room Htime' Hspecial' Hroom.
    unfold update_send.
    assert (Hl : locked (with_port_txspace room s') = false)
      by (rewrite Hs's; exact Hlock).
    rewrite Hl, Htime'.
    assert (Hsp : deferred_message_to_send_index later (with_port_txspace room s')
                  = None) by exact Hspecial'.
    rewrite Hsp.
    rewrite (cached_candidate_is_kept cat later t' (with_port_txspace room s') id);
      [| rewrite Hs'; assumption | rewrite Hs'; assumption].
    rewrite try_send_bucket_message_space; [reflexivity |].
    replace (required_bytes cat (with_port_txspace room s') id)
      with (required_bytes cat s id); [exact Hroom |].
    rewrite Hs's. reflexivity.
  - (* the call fell through and sent *)
    set (x := with_sending (Z.of_nat i) (ap_message_ids b)
                (_mav_finalize_message_chan_send (frame cat)
                   (with_out_of_space c (out_of_space_to_send s1))
                   (msg_len cat id'))) in *.
    assert (Hs' : s' = bucket_message_sent now16_ms x id')
      by (unfold s'; now rewrite Hrun).
    assert (Hr : r = Sent id') by (unfold r; now rewrite Hrun).
    destruct (bucket_message_sent_frame now16_ms x id')
      as (Hsame & Hdm & Hother & Hkept).
    rewrite <- Hs' in Hsame, Hdm, Hother, Hkept.
    destruct Hsame as (Hl & Hp & Hm1 & Hsg & _ & Hsl & Hlog).
    assert (Hxi : Z.to_nat (sending_bucket_id x) = i) by apply Nat2Z.id.
    rewrite Hxi in Hother.
    assert (Hxb : deferred_message_bucket x = deferred_message_bucket s)
      by (unfold x; rewrite Hs1 at 1; reflexivity).
    assert (Hne : i <> bucket).
    { intros ->. apply Hni. constructor. }
    assert (Hbs : deferred_message_bucket s !! i = Some b).
    { rewrite <- Hb. rewrite Hs1. reflexivity. }
    assert (Hxs : _locked x = _locked s /\ port_txspace x = port_txspace s
                  /\ out_mavlink1 x = out_mavlink1 s
                  /\ signing_outgoing x = signing_outgoing s
                  /\ stream_slowdown_ms x = stream_slowdown_ms s
                  /\ deferred_message x = deferred_message s
                  /\ tx_log x
                     = mk_tx (required_bytes cat s id') (txspace s) :: tx_log s).
    { unfold x. rewrite Hs1. repeat split. }
    destruct Hxs as (Hx1 & Hx2 & Hx3 & Hx4 & Hx5 & Hx6 & Hx7).
    split.
    { exists b0. rewrite Hbucket. split; [exact Hb0s |].
      split.
      { rewrite Hother by (rewrite <- Hbucket; congruence).
        rewrite Hxb. exact Hb0s. }
      split; [exact (Hsub id Hpending) |].
      apply Htimer; congruence. }
    split; [congruence |].
    split; [repeat split; congruence |].
    assert (Hfits : required_bytes cat s id' <= txspace s).
    { replace (required_bytes cat s id')
        with (required_bytes cat (out_of_space_to_send s1) id')
        by (rewrite Hs1; reflexivity).
      replace (txspace s) with (txspace (out_of_space_to_send s1))
        by (rewrite Hs1; reflexivity).
      exact Hfit. }
    split.
    { right. exists id'. split; [exact Hr |].
      intros ->. unfold required_bytes in *. lia. }
    split; [intros Hr'; rewrite Hr in Hr'; discriminate |].
    intros id'' Hr'. rewrite Hr in Hr'. injection Hr' as <-.
    exists i, b. split; [exact Hne |]. split; [exact Hbs |].
    split.
    { replace (bucket_timer cat s time_available_us b)
        with (bucket_timer cat (out_of_space_to_send s1) time_available_us b);
        [exact Hdue |].
      rewrite Hs1. reflexivity. }
    split; [exact Hf |]. split; [exact Hfits |].
    split; [congruence |].
    split; [intros j Hj; rewrite (Hother j Hj), Hxb; reflexivity |].
    apply Hkept. rewrite Hxb. exact Hbs.
Qed.

Lemma failed_candidate_stays_pending_witness :
  let s := congested_link in
  let s' := snd (update_send small_catalog s 300 1000) in
  (exists b, deferred_message_bucket s !! 0%nat = Some b
             /\ deferred_message_bucket s' !! 0%nat = Some b
             /\ Bitmask.get (ap_message_ids b) 7%N = true)
  /\ (exists i b, i <> 0%nat
                  /\ deferred_message_bucket s !! i = Some b
                  /\ Bitmask.first_set (ap_message_ids b) = Some 5%N
                  /\ tx_log s' = mk_tx 40 45 :: tx_log s).
Proof.
  intros s s'.
  destruct (failed_candidate_stays_pending small_catalog s
              (snd (next_deferred_bucket_message_to_send small_catalog 300 1000 s))
              300 1000 7%N)
    as (_ & _ & (b & H1 & H2 & H3 & _) & _ & _ & _ & _ & H4);
    [exact small_catalog_ok | exact congested_link_reachable | reflexivity
    | reflexivity | reflexivity | reflexivity | vm_compute; reflexivity |].
  split; [exists b; auto |].
  destruct (H4 5%N eq_refl) as (i & b' & Hi & Hb' & _ & Hf & _ & Hlog & _).
  exists i, b'. auto.
Defined.

(** *** The time comparisons of the driver loop *)

(** With nothing cached and no timer due by the wrapping difference, a
    call sends nothing. *)
Lemma update_send_nothing_due (cat : Catalog) (s : GCS_MAVLINK)
    (now16_ms time_available_us : Z) :
  sending_bucket_id s = no_bucket_to_send ->
  none_due now16_ms (special_timers s) ->
  none_due now16_ms (bucket_timers cat s time_available_us) ->
  fst (update_send cat s now16_ms time_available_us) = NothingDue.
Proof.
  intros Hcache Hsp Hbk. unfold update_send.
  destruct (locked s); [reflexivity |].
  destruct (out_of_time time_available_us); [reflexivity |].
  rewrite (proj2 (deferred_message_to_send_index_none now16_ms s) Hsp).
  unfold next_deferred_bucket_message_to_send.
  rewrite Hcache, Z.eqb_refl.
  destruct (find_next_bucket_to_send_cases cat now16_ms time_available_us s)
    as [(i & b & (t & Ht & Hd & _) & _) | [_ ->]].
  - exfalso. exact (Hbk i t Ht Hd).
  - reflexivity.
Qed.

(** With nothing cached, a message is sent only for a timer that is due
    by the wrapping difference: the timer of a special message, or the
    timer of a bucket the message is a member of. *)
Lemma update_send_sent_due (cat : Catalog) (s : GCS_MAVLINK)
    (now16_ms time_available_us : Z) (id : ap_message) :
  sending_bucket_id s = no_bucket_to_send ->
  fst (update_send cat s now16_ms time_available_us) = Sent id ->
  (exists k d, deferred_message s !! k = Some d /\ dm_id d = id
               /\ due now16_ms (dm_interval_ms d, dm_last_sent_ms d))
  \/ (exists i b, deferred_message_bucket s !! i = Some b
                  /\ Bitmask.get (ap_message_ids b) id = true
                  /\ due now16_ms (bucket_timer cat s time_available_us b)).
Proof.
  intros Hcache H. unfold update_send in H.
  destruct (locked s); [discriminate |].
  destruct (out_of_time time_available_us); [discriminate |].
  destruct (deferred_message_to_send_index now16_ms s) as [k |] eqn:Ek.
  - left. apply deferred_message_to_send_index_spec in Ek as (tm & Htm & Hd & _).
    unfold special_timers in Htm. rewrite lookup_map in Htm.
    destruct (deferred_message s !! k) as [d |] eqn:Ed; [| discriminate].
    simpl in Htm. injection Htm as <-.
    unfold try_send_special_message in H. rewrite Ed in H.
    destruct (do_try_send_message cat s (dm_id d)) as [ok s1].
    destruct ok; simpl in H; [| discriminate].
    injection H as <-. exists k, d. auto.
  - right.
    destruct (next_deferred_bucket_message_to_send cat now16_ms time_available_us s)
      as [next s1] eqn:En.
    apply next_deferred_bucket_message_to_send_spec in En as (Hs1 & _ & _ & Hcand).
    rewrite Hcache, Z.eqb_refl in Hs1.
    destruct next as [id0 |]; [| discriminate].
    destruct (Hcand id0 eq_refl) as (Hc & Hf).
    destruct (find_next_bucket_to_send_cases cat now16_ms time_available_us s)
      as [(i & b & _ & Hb & Hd & Hfn) | [_ Hfn]]; rewrite Hfn in Hs1; subst s1.
    2: { simpl in Hc. contradiction. }
    simpl in Hf. unfold try_send_bucket_message in H.
    destruct (do_try_send_message_cases cat
                (with_sending (Z.of_nat i) (ap_message_ids b) s) id0)
      as [[_ E] | [_ E]]; rewrite E in H.
    + simpl in H. injection H as <-. exists i, b.
      split; [exact Hb |]. split; [now apply first_set_member | exact Hd].
    + match type of H with
      | fst (fall_through ?c ?f ?n ?t ?tr ?x) = _ =>
          destruct (fall_through_cases c n t f tr x)
            as [(c0 & E2) | (i' & b' & id' & c0 & _ & Hb' & Hd' & Hf' & _ & E2)];
            rewrite E2 in H
      end; simpl in H; [discriminate |].
      injection H as <-. exists i', b'.
      split; [exact Hb' |]. split; [now apply first_set_member | exact Hd'].
Qed.

(** C7: the scheduler compares times by the wrapping 16-bit difference
    [(now - last) mod 2^16].  For [last = 65500] and [now = 100] the
    elapsed time is 136; whenever fewer than 2^16 ms have passed the
    difference is the time that passed, also across the wrap of the
    clock.  A timer is due when it is enabled and that difference has
    reached its interval.  By exactly this reading every scan for the
    most overdue timer decides, [deferred_message_to_send_index] answers the most overdue special
    message and none when none is due, [find_next_bucket_to_send] caches
    the most overdue bucket and none when none is due, and the driver
    loop, with no bucket cached, sends nothing when no timer is due and
    sends a message only for a timer that is due.  So a timer last sent
    [e] ms ago, [e] below 2^16, is due exactly when its interval is at
    most [e], wherever the clock wrapped: a heartbeat of interval 1000
    set at 65500 is not sent at 963 and is sent at 964; one of interval
    100 is sent at time 100, one of interval 137 is not; a bucket of
    interval 100 last sent at 65500 is sent at time 100 and is not sent
    at time 65550.  A bucket that backs off by a stream slowdown of 50
    on its interval of 100, last sent at 10, is not sent at 159 and is
    sent at 160, and then not again before 310; with the channel not
    behind, or for a bucket that carries no transfer, the interval is
    not stretched and the bucket is sent at 110. *)
Theorem elapsed_time_wraps_safely :
  elapsed_ms16 100 65500 = 136
  /\ (forall now16_ms last,
        elapsed_ms16 now16_ms last = (now16_ms - last) mod 2 ^ 16
        /\ 0 <= elapsed_ms16 now16_ms last < 2 ^ 16)
  /\ (forall last d, is_uint16 d ->
        elapsed_ms16 (to_uint16 (last + d)) last = d)
  /\ (forall now16_ms interval last m,
        overdue_by now16_ms interval last = Some m <->
        interval <> 0 /\ interval <= (now16_ms - last) mod 2 ^ 16
        /\ m = (now16_ms - last) mod 2 ^ 16 - interval)
  /\ (forall now16_ms timers i,
        (exists m, most_overdue_from 0 timers now16_ms None = Some (i, m))
        <-> most_overdue now16_ms timers i)
  /\ (forall now16_ms timers,
        most_overdue_from 0 timers now16_ms None = None
        <-> none_due now16_ms timers)
  /\ (forall now16_ms s k,
        deferred_message_to_send_index now16_ms s = Some k
        <-> most_overdue now16_ms (special_timers s) k)
  /\ (forall now16_ms s,
        deferred_message_to_send_index now16_ms s = None
        <-> none_due now16_ms (special_timers s))
  /\ (forall cat now16_ms time_available_us s,
        (exists i b,
            most_overdue now16_ms (bucket_timers cat s time_available_us) i
            /\ deferred_message_bucket s !! i = Some b
            /\ due now16_ms (bucket_timer cat s time_available_us b)
            /\ find_next_bucket_to_send cat now16_ms time_available_us s
               = with_sending (Z.of_nat i) (ap_message_ids b) s)
        \/ (none_due now16_ms (bucket_timers cat s time_available_us)
            /\ find_next_bucket_to_send cat now16_ms time_available_us s
               = with_sending no_bucket_to_send Bitmask.empty s))
  /\ (forall cat s now16_ms time_available_us,
        sending_bucket_id s = no_bucket_to_send ->
        none_due now16_ms (special_timers s) ->
        none_due now16_ms (bucket_timers cat s time_available_us) ->
        fst (update_send cat s now16_ms time_available_us) = NothingDue)
  /\ (forall cat s now16_ms time_available_us id,
        sending_bucket_id s = no_bucket_to_send ->
        fst (update_send cat s now16_ms time_available_us) = Sent id ->
        (exists k d, deferred_message s !! k = Some d /\ dm_id d = id
                     /\ due now16_ms (dm_interval_ms d, dm_last_sent_ms d))
        \/ (exists i b, deferred_message_bucket s !! i = Some b
                        /\ Bitmask.get (ap_message_ids b) id = true
                        /\ due now16_ms (bucket_timer cat s time_available_us b)))
  /\ (forall interval last e, is_uint16 e ->
        (due (to_uint16 (last + e)) (interval, last)
         <-> interval <> 0 /\ interval <= e)
        /\ margin (to_uint16 (last + e)) (interval, last) = e - interval)
  /\ overdue_by 100 100 65500 = Some 36
  /\ overdue_by 100 137 65500 = None
  /\ most_overdue_from 0 [(1000, 65500); (100, 65500); (50, 90)] 100 None
     = Some (1%nat, 36)
  /\ (let s := snd (set_ap_message_interval small_catalog small_link 65500
                      (MSG_HEARTBEAT small_catalog) 1000) in
      fst (update_send small_catalog s 963 1000) = NothingDue
      /\ fst (update_send small_catalog s 964 1000)
         = Sent (MSG_HEARTBEAT small_catalog))
  /\ fst (update_send small_catalog
            (snd (set_ap_message_interval small_catalog small_link 65500
                    (MSG_HEARTBEAT small_catalog) 100))
            100 1000) = Sent (MSG_HEARTBEAT small_catalog)
  /\ fst (update_send small_catalog
            (snd (set_ap_message_interval small_catalog small_link 65500
                    (MSG_HEARTBEAT small_catalog) 137))
            100 1000) = NothingDue
  /\ fst (update_send small_catalog
            (snd (set_ap_message_interval small_catalog small_link 65500 5%N 100))
            100 1000) = Sent 5%N
  /\ fst (update_send small_catalog
            (snd (set_ap_message_interval small_catalog small_link 65500 5%N 100))
            65550 1000) = NothingDue
  /\ (fst (update_send small_catalog slowed_link 159 1000) = NothingDue
      /\ fst (update_send small_catalog slowed_link 160 1000) = Sent 6%N
      /\ (let s := snd (update_send small_catalog slowed_link 160 1000) in
          fst (update_send small_catalog s 161 1000) = NothingDue
          /\ fst (update_send small_catalog s 309 1000) = NothingDue
          /\ fst (update_send small_catalog s 310 1000) = Sent 6%N))
  /\ (let s := with_port_txspace 100 slowed_link in
      fst (update_send small_catalog s 109 1000) = NothingDue
      /\ fst (update_send small_catalog s 110 1000) = Sent 6%N)
  /\ (let s := with_stream_slowdown 50 (with_port_txspace 60 streaming_link) in
      fst (update_send small_catalog s 109 1000) = NothingDue
      /\ fst (update_send small_catalog s 110 1000) = Sent 5%N).
Proof.
  split; [reflexivity |].
  split.
  { intros now16_ms last. split; [reflexivity |].
    apply elapsed_ms16_range. }
  split; [exact elapsed_ms16_after |].
  split; [exact overdue_by_spec |].
  split; [exact most_overdue_from_spec |].
  split.
  { intros now16_ms timers. rewrite most_overdue_from_None. tauto. }
  split; [exact deferred_message_to_send_index_spec |].
  split; [exact deferred_message_to_send_index_none |].
  split; [exact find_next_bucket_to_send_cases |].
  split; [exact update_send_nothing_due |].
  split; [exact update_send_sent_due |].
  split; [exact due_after |].
  repeat split; reflexivity.
Qed.

Lemma elapsed_time_wraps_safely_witness :
  elapsed_ms16 (to_uint16 (65500 + 136)) 65500 = 136
  /\ (due (to_uint16 (65500 + 136)) (100, 65500)
      <-> 100 <> 0 /\ 100 <= 136).
Proof.
  destruct elapsed_time_wraps_safely
    as (_ & _ & H & _ & _ & _ & _ & _ & _ & _ & _ & H' & _).
  split.
  - apply (H 65500 136). unfold is_uint16. lia.
  - apply (H' 100 65500 136). unfold is_uint16. lia.
Defined.

(** ** Admission safety *)

Lemma cons_neq {A : Type} (x : A) (l : list A) : x :: l <> l.
Proof.
  intros H. apply (f_equal (@length A)) in H. simpl in H. lia.
Qed.

(** C1: the admission check answers [true] exactly when the transmit
    space of the channel is at least the wire length of the message
    plus the protocol overhead of the channel, in both forms of the
    check; a checked send writes the frame exactly in that case; and
    every frame a channel ever wrote needed no more bytes than the check
    before it saw available. *)
Theorem admission_iff_enough_space (cat : Catalog) (s : GCS_MAVLINK) (len : Z) :
  is_uint16 len ->
  let f := frame cat in
  (fst (HAVE_PAYLOAD_SPACE f s len) = true
   <-> packet_overhead_chan f s + len <= txspace s)
  /\ (fst (check_payload_size f s len) = true
      <-> packet_overhead f s + len <= txspace s)
  /\ (forall entry, max_msg_len entry = len ->
        (tx_log (send_message f s entry) <> tx_log s
         <-> packet_overhead f s + len <= txspace s)
        /\ (packet_overhead f s + len <= txspace s ->
            tx_log (send_message f s entry)
            = mk_tx (packet_overhead f s + len) (txspace s) :: tx_log s))
  /\ (tx_log (send_mission_ack f s len) <> tx_log s
      <-> packet_overhead_chan f s + len <= txspace s)
  /\ (catalog_ok cat -> reachable cat s -> Forall admitted (tx_log s)).
Proof.
  intros Hlen f.
  pose proof (required_bytes_exact f s len Hlen) as Hreq.
  split.
  { unfold HAVE_PAYLOAD_SPACE, PAYLOAD_SIZE, comm_get_txspace. rewrite Hreq.
    destruct (txspace s >=? packet_overhead_chan f s + len) eqn:E; simpl;
      split; intros H; try lia; discriminate. }
  split.
  { unfold check_payload_size, packet_overhead. rewrite Hreq.
    destruct (txspace s <? packet_overhead_chan f s + len) eqn:E; simpl;
      split; intros H; try lia; discriminate. }
  split.
  { intros entry <-.
    destruct (send_message_log f s entry) as [[Hfit Hlog] | [Hno Hst]];
      unfold packet_overhead in *; rewrite Hreq in *.
    - split.
      + split; [intros _; exact Hfit |]. intros _. rewrite Hlog. apply cons_neq.
      + intros _. exact Hlog.
    - split.
      + split; [| lia]. intros H. exfalso. apply H. now rewrite Hst.
      + lia. }
  split.
  { destruct (send_mission_ack_log f s len) as [[Hfit Hlog] | [Hno Hst]];
      unfold PAYLOAD_SIZE in *; rewrite Hreq in *.
    - split; [intros _; exact Hfit |]. intros _. rewrite Hlog. apply cons_neq.
    - split; [| lia]. intros H. exfalso. apply H. now rewrite Hst. }
  intros Hcat Hr. now destruct (reachable_inv cat s Hcat Hr) as (_ & _ & _ & H).
Qed.

Lemma admission_iff_enough_space_witness :
  fst (HAVE_PAYLOAD_SPACE mavlink2_framing small_link 28) = true
  /\ fst (HAVE_PAYLOAD_SPACE mavlink2_framing small_link 89) = false.
Proof.
  split.
  - destruct (admission_iff_enough_space small_catalog small_link 28)
      as ([_ H] & _); [uint_solve |].
    apply H. vm_compute. discriminate.
  - destruct (admission_iff_enough_space small_catalog small_link 89)
      as ([H _] & _); [uint_solve |].
    destruct (fst (HAVE_PAYLOAD_SPACE mavlink2_framing small_link 89)) eqn:E;
      [| reflexivity].
    exfalso. specialize (H E). vm_compute in H. now apply H.
Defined.

(** ** The cap on stored intervals *)

Lemma get_ap_message_interval_capped (cat : Catalog) (s : GCS_MAVLINK)
    (id : ap_message) (i : Z) :
  link_inv cat s -> get_ap_message_interval s id = Some i -> capped cat i.
Proof.
  intros (Hok & _ & Hcap & _) Hget. unfold get_ap_message_interval in Hget.
  destruct (get_deferred_message_index s id) as [k |].
  - apply fmap_Some in Hget as (d & Hk & ->).
    rewrite Forall_lookup in Hcap. exact (Hcap k d Hk).
  - apply fmap_Some in Hget as ([b bk] & Hbk & ->).
    apply bucket_of_Some in Hbk as (Hb & _).
    exact (buckets_ok_capped cat _ b bk Hok Hb).
Qed.

Lemma set_ap_message_interval_enables (cat : Catalog) (s : GCS_MAVLINK)
    (now16_ms : Z) (id : ap_message) (interval : Z) :
  catalog_ok cat -> link_inv cat s ->
  (id < MSG_LAST cat)%N -> ~ is_special cat id ->
  cap_message_interval cat interval <> 0 ->
  let s' := snd (set_ap_message_interval cat s now16_ms id interval) in
  interval_enabled s' id /\ in_exactly_one_bucket s' id.
Proof.
  intros Hcat Hinv Hid Hns Hnz s'.
  destruct (set_ap_message_interval_ok cat s now16_ms id interval Hcat Hinv)
    as (Hinv' & _ & _ & Hmem).
  destruct (Hmem Hid Hns Hnz) as (b & bk & Hb & Hg & Hu).
  fold s' in Hinv', Hb.
  split.
  - exists (interval_ms bk). split; [| exact Hu].
    pose proof Hinv' as (_ & Hids & _).
    apply (get_deferred_message_index_None cat s' id Hids) in Hns.
    unfold get_ap_message_interval. rewrite Hns.
    now rewrite (in_bucket_bucket_of cat s' b bk id Hinv' Hb Hg).
  - apply (member_of_one_bucket cat s' b id Hinv'). exists bk. auto.
Qed.

(** C4: a requested interval that is not zero is stored capped: the
    result of [cap_message_interval] stands for a message rate of at
    most 0.8 times the loop rate ([1000 / r <= 0.8 * SCHED_LOOP_RATE],
    written without the division), it is never shorter than the minimum
    derived from the loop rate, an interval at or above the minimum is
    kept, and one below it is raised to the minimum instead of being
    refused: setting it succeeds.  Every interval a channel ever reports
    is disabled or within the cap. *)
Theorem message_rate_is_capped (cat : Catalog) (interval : Z) :
  catalog_ok cat ->
  is_uint16 interval ->
  interval <> 0 ->
  let r := cap_message_interval cat interval in
  1000 * 10 <= 8 * (SCHED_LOOP_RATE cat * r)
  /\ min_message_interval cat <= r
  /\ interval <= r
  /\ r <> 0
  /\ is_uint16 r
  /\ (min_message_interval cat <= interval -> r = interval)
  /\ (interval < min_message_interval cat -> r = min_message_interval cat)
  /\ (forall i, 1000 * 10 <= 8 * (SCHED_LOOP_RATE cat * i)
                <-> min_message_interval cat <= i)
  /\ (forall s now16_ms id,
        reachable cat s -> (id < MSG_LAST cat)%N ->
        fst (set_ap_message_interval cat s now16_ms id interval) = true)
  /\ (forall s now16_ms id,
        reachable cat s -> (id < MSG_LAST cat)%N -> ~ is_special cat id ->
        exists i,
          get_ap_message_interval
            (snd (set_ap_message_interval cat s now16_ms id interval)) id = Some i
          /\ i <> 0 /\ 1000 * 10 <= 8 * (SCHED_LOOP_RATE cat * i))
  /\ (forall s id i,
        reachable cat s -> get_ap_message_interval s id = Some i ->
        i = 0 \/ 1000 * 10 <= 8 * (SCHED_LOOP_RATE cat * i)).
Proof.
  intros Hcat Hi Hnz r.
  pose proof (min_message_interval_range cat Hcat) as Hmin.
  assert (Hspec : forall i, 1000 * 10 <= 8 * (SCHED_LOOP_RATE cat * i)
                            <-> min_message_interval cat <= i).
  { intros i. rewrite <- (min_message_interval_spec cat i Hcat). lia. }
  assert (Hr : (interval < min_message_interval cat /\ r = min_message_interval cat)
               \/ (min_message_interval cat <= interval /\ r = interval)).
  { destruct (cap_message_interval_cases cat interval Hcat)
      as [[H _] | [(_ & H1 & H2) | (_ & H1 & H2)]]; [contradiction | auto | auto]. }
  assert (Hrmin : min_message_interval cat <= r) by (destruct Hr as [[? ->] | [? ->]]; lia).
  split; [apply Hspec; exact Hrmin |].
  split; [exact Hrmin |].
  split; [destruct Hr as [[? ->] | [? ->]]; lia |].
  split; [lia |].
  split; [now apply cap_message_interval_uint16 |].
  split; [destruct Hr as [[? ->] | [? ->]]; lia |].
  split; [destruct Hr as [[? ->] | [? ->]]; lia |].
  split; [exact Hspec |].
  split.
  { intros s now16_ms id Hreach Hid.
    pose proof (reachable_inv cat s Hcat Hreach) as Hinv.
    destruct (set_ap_message_interval_ok cat s now16_ms id interval Hcat Hinv)
      as (_ & _ & H & _). exact (H Hid). }
  split.
  { intros s now16_ms id Hreach Hid Hns.
    pose proof (reachable_inv cat s Hcat Hreach) as Hinv.
    destruct (set_ap_message_interval_enables cat s now16_ms id interval
                Hcat Hinv Hid Hns ltac:(fold r; lia)) as ((i & Hget & Hinz) & _).
    exists i. split; [exact Hget |]. split; [exact Hinz |].
    destruct (set_ap_message_interval_ok cat s now16_ms id interval Hcat Hinv)
      as (Hinv' & _).
    destruct (get_ap_message_interval_capped cat _ id i Hinv' Hget) as [H | H];
      [contradiction | now apply Hspec]. }
  intros s id i Hreach Hget.
  pose proof (reachable_inv cat s Hcat Hreach) as Hinv.
  destruct (get_ap_message_interval_capped cat s id i Hinv Hget) as [H | H];
    [now left | right; now apply Hspec].
Qed.

Lemma message_rate_is_capped_witness :
  cap_message_interval small_catalog 1 = 4
  /\ cap_message_interval small_catalog 100 = 100.
Proof.
  split.
  - destruct (message_rate_is_capped small_catalog 1)
      as (_ & _ & _ & _ & _ & _ & H & _);
      [unfold catalog_ok; simpl; lia | uint_solve | lia |].
    rewrite H; [reflexivity | vm_compute; reflexivity].
  - destruct (message_rate_is_capped small_catalog 100)
      as (_ & _ & _ & _ & _ & H & _);
      [unfold catalog_ok; simpl; lia | uint_solve | lia |].
    apply H. vm_compute. discriminate.
Defined.

(** ** Buckets *)

(** *** Special messages keep out of the buckets *)

Lemma get_deferred_message_index_special (cat : Catalog) (s : GCS_MAVLINK)
    (id : ap_message) :
  map dm_id (deferred_message s)
  = [MSG_HEARTBEAT cat; MSG_NEXT_PARAM cat; MSG_HIGH_LATENCY2 cat] ->
  is_special cat id ->
  exists k d, get_deferred_message_index s id = Some k
              /\ deferred_message s !! k = Some d /\ dm_id d = id.
Proof.
  intros Hids Hsp.
  destruct (get_deferred_message_index s id) as [k |] eqn:E.
  - destruct (get_deferred_message_index_Some s id k E) as (d & Hk & Hd). eauto.
  - apply (get_deferred_message_index_None cat s id Hids) in E. contradiction.
Qed.

(** A member of a bucket is not a special message, and the interval it
    reports is the interval of its bucket, which is not the disabled
    one. *)
Lemma member_is_enabled (cat : Catalog) (s : GCS_MAVLINK) (b : nat)
    (id : ap_message) :
  link_inv cat s -> sched_inv cat s -> in_bucket s b id ->
  ~ is_special cat id /\ interval_enabled s id.
Proof.
  intros Hinv (Hsp & Huse & _) (bk & Hb & Hg).
  assert (Hns : ~ is_special cat id).
  { intros H. rewrite (Hsp id H b bk Hb) in Hg. discriminate. }
  split; [exact Hns |].
  exists (interval_ms bk). split; [| exact (Huse b bk id Hb Hg)].
  pose proof Hinv as (_ & Hids & _).
  apply (get_deferred_message_index_None cat s id Hids) in Hns.
  unfold get_ap_message_interval. rewrite Hns.
  now rewrite (in_bucket_bucket_of cat s b bk id Hinv Hb Hg).
Qed.

(** *** Membership is kept until the interval is set again *)

Lemma update_send_members (cat : Catalog) (s : GCS_MAVLINK)
    (now16_ms time_available_us : Z) (j : nat) (b : deferred_message_bucket_t) :
  deferred_message_bucket s !! j = Some b ->
  exists b',
    deferred_message_bucket (snd (update_send cat s now16_ms time_available_us)) !! j
    = Some b'
    /\ ap_message_ids b' = ap_message_ids b
    /\ interval_ms b' = interval_ms b.
Proof.
  intros Hj. unfold update_send.
  destruct (locked s); [eauto |].
  destruct (out_of_time time_available_us); [eauto |].
  destruct (deferred_message_to_send_index now16_ms s) as [k |].
  { unfold try_send_special_message.
    destruct (deferred_message s !! k) as [d |]; [| eauto].
    destruct (do_try_send_message_frame cat s (dm_id d)) as (Hb & _).
    destruct (do_try_send_message cat s (dm_id d)) as [ok s1]. simpl in Hb.
    destruct ok; simpl; rewrite Hb; eauto. }
  destruct (next_deferred_bucket_message_to_send cat now16_ms time_available_us s)
    as [next s1] eqn:En.
  apply next_deferred_bucket_message_to_send_spec in En as (_ & Hs1 & _).
  assert (Hb1 : deferred_message_bucket s1 = deferred_message_bucket s)
    by (rewrite Hs1; reflexivity).
  destruct next as [id |]; [| simpl; rewrite Hb1; eauto].
  unfold try_send_bucket_message.
  destruct (do_try_send_message_cases cat s1 id) as [[_ ->] | [_ ->]].
  - simpl.
    destruct (bucket_message_sent_frame now16_ms
                (_mav_finalize_message_chan_send (frame cat) s1 (msg_len cat id)) id)
      as (_ & _ & _ & Hkept).
    apply Hkept. simpl. rewrite Hb1. exact Hj.
  - match goal with
    | |- context [fall_through ?c ?f ?n ?t ?tr ?x] =>
        destruct (fall_through_cases c n t f tr x)
          as [(c0 & ->) | (i & b0 & id' & c0 & _ & _ & _ & _ & _ & ->)]
    end; simpl.
    + rewrite Hb1. eauto.
    + match goal with
      | |- context [bucket_message_sent ?n ?x ?i] =>
          destruct (bucket_message_sent_frame n x i) as (_ & _ & _ & Hkept)
      end.
      apply Hkept. simpl. rewrite Hb1. exact Hj.
Qed.

Lemma get_clear_other (m : Bitmask.t) (id id' : ap_message) :
  id <> id' -> Bitmask.get (Bitmask.clear m id') id = Bitmask.get m id.
Proof. intros H. apply N.clearbit_neq. congruence. Qed.

Lemma get_set_other (m : Bitmask.t) (id id' : ap_message) :
  id <> id' -> Bitmask.get (Bitmask.set m id') id = Bitmask.get m id.
Proof. intros H. apply N.setbit_neq. congruence. Qed.

Lemma insert_others (l : list deferred_message_bucket_t) (b : nat)
    (bk bk' : deferred_message_bucket_t) (id : ap_message) :
  l !! b = Some bk ->
  Bitmask.get (ap_message_ids bk') id = Bitmask.get (ap_message_ids bk) id ->
  forall j bj, l !! j = Some bj ->
    exists bj', <[b := bk']> l !! j = Some bj'
                /\ Bitmask.get (ap_message_ids bj') id
                   = Bitmask.get (ap_message_ids bj) id.
Proof.
  intros Hb Hg j bj Hj.
  destruct (decide (j = b)) as [-> | Hne].
  - rewrite list_lookup_insert_eq by exact (lookup_lt_Some _ _ _ Hb).
    rewrite Hb in Hj. injection Hj as <-. eauto.
  - rewrite list_lookup_insert_ne by congruence. eauto.
Qed.

Lemma place_in_bucket_others (s : GCS_MAVLINK) (now16_ms : Z)
    (id' : ap_message) (interval : Z) (id : ap_message) :
  id <> id' ->
  forall j bj, deferred_message_bucket s !! j = Some bj ->
    exists bj',
      deferred_message_bucket (snd (place_in_bucket s now16_ms id' interval)) !! j
      = Some bj'
      /\ Bitmask.get (ap_message_ids bj') id = Bitmask.get (ap_message_ids bj) id.
Proof.
  intros Hne j bj Hj. unfold place_in_bucket.
  destruct (list_find (fun b => interval_ms b = interval) (deferred_message_bucket s))
    as [[b bk] |] eqn:E1.
  { apply list_find_Some in E1 as (Hb & _). simpl.
    unfold add_message_to_bucket. rewrite Hb. simpl.
    apply (insert_others _ b bk); [exact Hb | | exact Hj].
    simpl. now apply get_set_other. }
  destruct (list_find (fun b => interval_ms b = 0) (deferred_message_bucket s))
    as [[b bk] |] eqn:E2.
  { apply list_find_Some in E2 as (Hb & _). simpl.
    unfold allocate_bucket. rewrite Hb. simpl.
    apply (insert_others _ b bk); [exact Hb | | exact Hj].
    simpl. now apply get_set_other. }
  unfold closest_bucket.
  destruct (closest_from 0 (deferred_message_bucket s) interval None)
    as [[k d] |] eqn:E3; simpl; [| eauto].
  unfold add_message_to_bucket.
  destruct (deferred_message_bucket s !! k) as [bk |] eqn:Hk; [| eauto].
  simpl. apply (insert_others _ k bk); [exact Hk | | exact Hj].
  simpl. now apply get_set_other.
Qed.

Lemma set_ap_message_interval_others (cat : Catalog) (s : GCS_MAVLINK)
    (now16_ms : Z) (id' : ap_message) (interval : Z) (id : ap_message) :
  id <> id' ->
  forall j bj, deferred_message_bucket s !! j = Some bj ->
    exists bj',
      deferred_message_bucket
        (snd (set_ap_message_interval cat s now16_ms id' interval)) !! j
      = Some bj'
      /\ Bitmask.get (ap_message_ids bj') id = Bitmask.get (ap_message_ids bj) id.
Proof.
  intros Hne j bj Hj. unfold set_ap_message_interval.
  destruct (MSG_LAST cat <=? id')%N; [eauto |].
  set (iv := cap_message_interval cat interval).
  destruct (get_deferred_message_index s id') as [k |]; [eauto |].
  destruct (bucket_of s id') as [[b bk] |] eqn:Ebk.
  - apply bucket_of_Some in Ebk as (Hb & _).
    destruct (interval_ms bk =? iv); [eauto |].
    assert (H1 : exists bj1,
               deferred_message_bucket (remove_message_from_bucket s b id') !! j
               = Some bj1
               /\ Bitmask.get (ap_message_ids bj1) id
                  = Bitmask.get (ap_message_ids bj) id).
    { rewrite (remove_message_from_bucket_buckets s b bk id' Hb).
      apply (insert_others _ b bk); [exact Hb | | exact Hj].
      rewrite free_if_empty_ids. simpl. now apply get_clear_other. }
    destruct H1 as (bj1 & Hj1 & Hg1).
    destruct (iv =? 0); [eauto |].
    destruct (place_in_bucket_others (remove_message_from_bucket s b id')
                now16_ms id' iv id Hne j bj1 Hj1) as (bj' & Hj' & Hg').
    exists bj'. split; [exact Hj' | congruence].
  - destruct (iv =? 0); [eauto |].
    now apply place_in_bucket_others.
Qed.

(** *** The claim *)

(** C6 as stated fails for the special messages: the heartbeat, given
    an interval of one second, has an enabled interval and is a member
    of no bucket. *)
Lemma heartbeat_is_in_no_bucket :
  reachable small_catalog heartbeat_link
  /\ get_ap_message_interval heartbeat_link (MSG_HEARTBEAT small_catalog) = Some 1000
  /\ interval_enabled heartbeat_link (MSG_HEARTBEAT small_catalog)
  /\ ~ in_exactly_one_bucket heartbeat_link (MSG_HEARTBEAT small_catalog).
Proof.
  split; [exact heartbeat_link_reachable |].
  split; [reflexivity |].
  split; [exists 1000; split; [reflexivity | lia] |].
  intros (b & (bk & Hb & Hg) & _).
  assert (Habs : absent (deferred_message_bucket heartbeat_link)
                        (MSG_HEARTBEAT small_catalog))
    by (apply bucket_of_None; reflexivity).
  rewrite (Habs b bk Hb) in Hg. discriminate.
Qed.

(** C6, amended: at all times a message that is not one of the special
    messages and has an enabled interval is a member of exactly one
    bucket; no message is ever in two buckets; and the channel has
    exactly ten bucket slots.  A special message is a member of no
    bucket: it has a slot of its own in [deferred_message[]], and the
    interval it reports is the one kept there.  Conversely a member of
    a bucket is not special and has an enabled interval.  Giving a
    message that is not special an enabled interval always succeeds and
    leaves it in exactly one bucket, and it stays a member of that
    bucket through every call of the driver loop and every change of
    the interval of another message.  When all ten slots are in use and
    none has the requested interval, the message joins an existing
    bucket and no interval of the array changes. *)
Theorem bucketed_message_in_exactly_one_bucket (cat : Catalog)
    (s : GCS_MAVLINK) :
  catalog_ok cat ->
  reachable cat s ->
  length (deferred_message_bucket s) = 10%nat
  /\ (forall id, ~ is_special cat id -> interval_enabled s id ->
        in_exactly_one_bucket s id)
  /\ (forall id b b', in_bucket s b id -> in_bucket s b' id -> b = b')
  /\ (forall id, is_special cat id ->
        (forall b, ~ in_bucket s b id)
        /\ exists k d,
             get_deferred_message_index s id = Some k
             /\ deferred_message s !! k = Some d
             /\ dm_id d = id
             /\ get_ap_message_interval s id = Some (dm_interval_ms d))
  /\ (forall id b, in_bucket s b id ->
        ~ is_special cat id /\ interval_enabled s id)
  /\ (forall id now16_ms interval,
        ~ is_special cat id ->
        (id < MSG_LAST cat)%N ->
        cap_message_interval cat interval <> 0 ->
        let r := set_ap_message_interval cat s now16_ms id interval in
        fst r = true
        /\ length (deferred_message_bucket (snd r)) = 10%nat
        /\ interval_enabled (snd r) id
        /\ in_exactly_one_bucket (snd r) id)
  /\ (forall id b, in_bucket s b id ->
        (forall now16_ms time_available_us,
            in_bucket (snd (update_send cat s now16_ms time_available_us)) b id)
        /\ (forall now16_ms id' interval, id' <> id ->
              in_bucket (snd (set_ap_message_interval cat s now16_ms id' interval))
                b id))
  /\ (forall id now16_ms interval,
        ~ is_special cat id ->
        (id < MSG_LAST cat)%N ->
        cap_message_interval cat interval <> 0 ->
        absent (deferred_message_bucket s) id ->
        Forall (fun b => interval_ms b <> 0
                         /\ interval_ms b <> cap_message_interval cat interval)
               (deferred_message_bucket s) ->
        let r := set_ap_message_interval cat s now16_ms id interval in
        fst r = true
        /\ map interval_ms (deferred_message_bucket (snd r))
           = map interval_ms (deferred_message_bucket s)
        /\ in_exactly_one_bucket (snd r) id).
Proof.
  intros Hcat Hreach.
  pose proof (reachable_inv cat s Hcat Hreach) as Hinv.
  pose proof (reachable_sched cat s Hcat Hreach) as Hsched.
  pose proof Hinv as ((Hlen & Hdis & _) & Hids & _).
  split; [exact Hlen |].
  split.
  { intros id Hns (i & Hget & _).
    exact (bucketed_interval_in_one_bucket cat s id i Hinv Hns Hget). }
  split.
  { intros id b b' (bk & Hb & Hg) (bk' & Hb' & Hg').
    exact (Hdis b b' bk bk' id Hb Hb' Hg Hg'). }
  split.
  { intros id Hsp. split.
    - intros b (bk & Hb & Hg).
      destruct Hsched as (Hapart & _).
      rewrite (Hapart id Hsp b bk Hb) in Hg. discriminate.
    - destruct (get_deferred_message_index_special cat s id Hids Hsp)
        as (k & d & Hk & Hd & Hid).
      exists k, d. split; [exact Hk |]. split; [exact Hd |]. split; [exact Hid |].
      unfold get_ap_message_interval. rewrite Hk, Hd. reflexivity. }
  split.
  { intros id b Hin. exact (member_is_enabled cat s b id Hinv Hsched Hin). }
  split.
  { intros id now16_ms interval Hns Hid Hnz r.
    destruct (set_ap_message_interval_ok cat s now16_ms id interval Hcat Hinv)
      as (((Hlen' & _) & _) & _ & Hok & _).
    destruct (set_ap_message_interval_enables cat s now16_ms id interval
                Hcat Hinv Hid Hns Hnz) as (Hen & Hone).
    split; [exact (Hok Hid) |]. split; [exact Hlen' |]. split; assumption. }
  split.
  { intros id b (bk & Hb & Hg). split.
    - intros now16_ms time_available_us.
      destruct (update_send_members cat s now16_ms time_available_us b bk Hb)
        as (bk' & Hb' & Hids' & _).
      exists bk'. split; [exact Hb' |]. now rewrite Hids'.
    - intros now16_ms id' interval Hne.
      destruct (set_ap_message_interval_others cat s now16_ms id' interval id
                  ltac:(congruence) b bk Hb) as (bk' & Hb' & Hg').
      exists bk'. split; [exact Hb' |]. now rewrite Hg'. }
  intros id now16_ms interval Hns Hid Hnz Habs Hfull r.
  destruct (set_ap_message_interval_ok cat s now16_ms id interval Hcat Hinv)
    as (_ & _ & Hok & _).
  destruct (set_ap_message_interval_enables cat s now16_ms id interval
              Hcat Hinv Hid Hns Hnz) as (_ & Hone).
  split; [exact (Hok Hid) |]. split; [| exact Hone].
  unfold r, set_ap_message_interval.
  assert (Hlt : (MSG_LAST cat <=? id)%N = false) by (apply N.leb_gt; exact Hid).
  rewrite Hlt.
  apply (get_deferred_message_index_None cat s id Hids) in Hns. rewrite Hns.
  rewrite (absent_bucket_of s id Habs).
  destruct (cap_message_interval cat interval =? 0) eqn:Ez; [lia |].
  destruct Hinv as (Hbok & _).
  destruct (place_in_bucket_merges cat s now16_ms id _ Hbok Habs Hfull)
    as (b & bk & -> & _ & Hmap).
  exact Hmap.
Qed.

Lemma set_intervals_reachable (cat : Catalog) (l : list (ap_message * Z)) :
  forall s, reachable cat s -> Forall (fun p => is_uint16 (snd p)) l ->
            reachable cat (set_intervals cat l s).
Proof.
  induction l as [| p l IH]; intros s Hs Hl; [exact Hs |].
  inversion Hl as [| ? ? Hp Hl']; subst. simpl. apply IH; [| exact Hl'].
  apply reach_set_interval; [exact Hs | uint_solve | exact Hp].
Qed.

Lemma full_link_reachable : reachable small_catalog full_link.
Proof.
  apply set_intervals_reachable; [exact small_link_reachable |].
  repeat constructor; unfold is_uint16; simpl; lia.
Qed.

Lemma bucketed_message_in_exactly_one_bucket_witness :
  in_exactly_one_bucket streaming_link 5%N
  /\ length (deferred_message_bucket streaming_link) = 10%nat
  /\ (forall b, ~ in_bucket heartbeat_link b (MSG_HEARTBEAT small_catalog))
  /\ fst (set_ap_message_interval small_catalog full_link 20 20%N 460) = true
  /\ in_exactly_one_bucket
       (snd (set_ap_message_interval small_catalog full_link 20 20%N 460)) 20%N
  /\ map interval_ms
       (deferred_message_bucket
          (snd (set_ap_message_interval small_catalog full_link 20 20%N 460)))
     = map interval_ms (deferred_message_bucket full_link).
Proof.
  assert (Hns : forall id, (2 < id)%N -> ~ is_special small_catalog id).
  { intros id Hid. unfold is_special. simpl. lia. }
  destruct (bucketed_message_in_exactly_one_bucket small_catalog streaming_link)
    as (Hlen & Hone & _);
    [exact small_catalog_ok | exact streaming_link_reachable |].
  split.
  { apply Hone; [apply Hns; lia |]. exists 100. split; [reflexivity | lia]. }
  split; [exact Hlen |].
  destruct (bucketed_message_in_exactly_one_bucket small_catalog heartbeat_link)
    as (_ & _ & _ & Hsp & _);
    [exact small_catalog_ok | exact heartbeat_link_reachable |].
  split.
  { apply (Hsp (MSG_HEARTBEAT small_catalog)). left. reflexivity. }
  destruct (bucketed_message_in_exactly_one_bucket small_catalog full_link)
    as (_ & _ & _ & _ & _ & _ & _ & Hmerge);
    [exact small_catalog_ok | exact full_link_reachable |].
  destruct (Hmerge 20%N 20 460) as (H1 & H2 & H3).
  - apply Hns. lia.
  - simpl. lia.
  - vm_compute. discriminate.
  - apply bucket_of_None. reflexivity.
  - apply (bool_decide_unpack _). vm_compute. exact I.
  - split; [exact H1 |]. split; [exact H3 | exact H2].
Defined.

(** * More properties of the header *)

(** ** Bits of fixed-width values *)

Lemma land_pow2 (a k : Z) :
  0 <= k -> Z.land a (2 ^ k) = if Z.testbit a k then 2 ^ k else 0.
Proof.
  intros Hk. apply Z.bits_inj'. intros n Hn.
  rewrite Z.land_spec, Z.pow2_bits_eqb by exact Hk.
  destruct (Z.eqb_spec k n) as [-> | Hne].
  - destruct (Z.testbit a n); [| now rewrite Z.bits_0].
    rewrite Z.pow2_bits_eqb by exact Hn. now rewrite Z.eqb_refl.
  - rewrite andb_false_r.
    destruct (Z.testbit a k); [| now rewrite Z.bits_0].
    rewrite Z.pow2_bits_eqb by exact Hk.
    symmetry. now apply Z.eqb_neq.
Qed.

Lemma land_pow2_nonzero (a k : Z) :
  0 <= k -> negb (Z.land a (2 ^ k) =? 0) = Z.testbit a k.
Proof.
  intros Hk. rewrite (land_pow2 a k Hk).
  destruct (Z.testbit a k); [| reflexivity].
  assert (0 < 2 ^ k) by (apply Z.pow_pos_nonneg; lia).
  destruct (2 ^ k =? 0) eqn:E; [lia | reflexivity].
Qed.

Lemma testbit_to_uint16 (z i : Z) :
  0 <= i -> Z.testbit (to_uint16 z) i = (i <? 16) && Z.testbit z i.
Proof.
  intros Hi. unfold to_uint16.
  destruct (i <? 16) eqn:E.
  - apply Z.mod_pow2_bits_low. lia.
  - apply Z.mod_pow2_bits_high. lia.
Qed.

Lemma to_int16_mod (z : Z) : to_int16 z mod 2 ^ 16 = z mod 2 ^ 16.
Proof.
  unfold to_int16. rewrite Zminus_mod_idemp_l. f_equal. lia.
Qed.

Lemma testbit_to_int16 (z i : Z) :
  0 <= i < 16 -> Z.testbit (to_int16 z) i = Z.testbit z i.
Proof.
  intros Hi.
  rewrite <- (Z.mod_pow2_bits_low (to_int16 z) 16 i) by lia.
  rewrite to_int16_mod. apply Z.mod_pow2_bits_low. lia.
Qed.

Lemma to_int16_range (z : Z) : is_int16 (to_int16 z).
Proof.
  unfold is_int16, to_int16.
  pose proof (Z.mod_pos_bound (z + 2 ^ 15) (2 ^ 16) ltac:(lia)). lia.
Qed.

Lemma to_int16_small (z : Z) : is_int16 z -> to_int16 z = z.
Proof.
  unfold is_int16, to_int16. intros H.
  rewrite Z.mod_small by lia. lia.
Qed.

(** Two [int16_t] values with the same sixteen bits are equal. *)
Lemma int16_bits_eq (a b : Z) :
  is_int16 a -> is_int16 b ->
  (forall i, 0 <= i < 16 -> Z.testbit a i = Z.testbit b i) ->
  a = b.
Proof.
  intros Ha Hb Hbits.
  assert (Hmod : a mod 2 ^ 16 = b mod 2 ^ 16).
  { apply Z.bits_inj'. intros n Hn.
    destruct (Z.lt_ge_cases n 16) as [Hlt | Hge].
    - rewrite !Z.mod_pow2_bits_low by lia. apply Hbits. lia.
    - rewrite !Z.mod_pow2_bits_high by lia. reflexivity. }
  pose proof (Z.div_mod a (2 ^ 16) ltac:(lia)) as Da.
  pose proof (Z.div_mod b (2 ^ 16) ltac:(lia)) as Db.
  pose proof (Z.mod_pos_bound a (2 ^ 16) ltac:(lia)) as Ra.
  rewrite Hmod in Da. unfold is_int16 in *.
  change (2 ^ 16) with 65536 in *. change (2 ^ 15) with 32768 in *. lia.
Qed.

(** ** Option bits *)

Lemma option_value_pow2 (option : Option) :
  to_uint16 (option_value option) = 2 ^ option_index option.
Proof. destruct option; reflexivity. Qed.

Lemma option_index_range (option : Option) : 0 <= option_index option < 16.
Proof. destruct option; simpl; lia. Qed.

Lemma option_index_inj (o o' : Option) :
  option_index o = option_index o' -> o = o'.
Proof. destruct o, o'; simpl; intros H; try reflexivity; lia. Qed.

Lemma option_enabled_testbit (options : Z) (option : Option) :
  option_enabled options option = Z.testbit options (option_index option).
Proof.
  unfold option_enabled. rewrite option_value_pow2.
  apply land_pow2_nonzero. apply option_index_range.
Qed.

Lemma enable_option_bits (options : Z) (option : Option) (i : Z) :
  0 <= i < 16 ->
  Z.testbit (enable_option options option) i
  = Z.testbit options i || (i =? option_index option).
Proof.
  intros Hi. unfold enable_option, set_and_save.
  rewrite testbit_to_int16 by exact Hi.
  rewrite Z.lor_spec, testbit_to_uint16, option_value_pow2 by lia.
  rewrite Z.pow2_bits_eqb by apply option_index_range.
  replace (i <? 16) with true by (symmetry; apply Z.ltb_lt; lia).
  simpl. now rewrite (Z.eqb_sym i).
Qed.

Lemma disable_option_bits (options : Z) (option : Option) (i : Z) :
  0 <= i < 16 ->
  Z.testbit (disable_option options option) i
  = Z.testbit options i && negb (i =? option_index option).
Proof.
  intros Hi. unfold disable_option, set_and_save.
  rewrite testbit_to_int16 by exact Hi.
  rewrite Z.land_spec, Z.lnot_spec, testbit_to_uint16, option_value_pow2 by lia.
  rewrite Z.pow2_bits_eqb by apply option_index_range.
  replace (i <? 16) with true by (symmetry; apply Z.ltb_lt; lia).
  simpl. now rewrite (Z.eqb_sym i).
Qed.

Lemma enable_option_int16 (options : Z) (option : Option) :
  is_int16 (enable_option options option).
Proof. apply to_int16_range. Qed.

Lemma disable_option_int16 (options : Z) (option : Option) :
  is_int16 (disable_option options option).
Proof. apply to_int16_range. Qed.

(** X1: [enable_option] turns its option on and touches no other bit of
    [options]: every other option reads as before, an option that is
    already on leaves the value as it is, and enabling twice is enabling
    once. *)
Theorem enable_option_sets_one_bit (options : Z) (option : Option) :
  is_int16 options ->
  option_enabled (enable_option options option) option = true
  /\ (forall other, other <> option ->
        option_enabled (enable_option options option) other
        = option_enabled options other)
  /\ (forall i, 0 <= i < 16 -> i <> option_index option ->
        Z.testbit (enable_option options option) i = Z.testbit options i)
  /\ is_int16 (enable_option options option)
  /\ (option_enabled options option = true ->
      enable_option options option = options)
  /\ enable_option (enable_option options option) option
     = enable_option options option.
Proof.
  intros Hrange.
  pose proof (option_index_range option) as Hidx.
  assert (Hother : forall i, 0 <= i < 16 -> i <> option_index option ->
            Z.testbit (enable_option options option) i = Z.testbit options i).
  { intros i Hi Hne. rewrite enable_option_bits by exact Hi.
    replace (i =? option_index option) with false
      by (symmetry; now apply Z.eqb_neq).
    apply orb_false_r. }
  split.
  { rewrite option_enabled_testbit, enable_option_bits by exact Hidx.
    rewrite Z.eqb_refl. apply orb_true_r. }
  split.
  { intros other Hne. rewrite !option_enabled_testbit.
    apply Hother; [apply option_index_range |].
    intros H. apply Hne. now apply option_index_inj. }
  split; [exact Hother |].
  split; [apply enable_option_int16 |].
  split.
  { intros Hon. rewrite option_enabled_testbit in Hon.
    apply int16_bits_eq; [apply enable_option_int16 | exact Hrange |].
    intros i Hi. rewrite enable_option_bits by exact Hi.
    destruct (Z.eqb_spec i (option_index option)) as [-> | _].
    - rewrite Hon. reflexivity.
    - apply orb_false_r. }
  apply int16_bits_eq; try apply enable_option_int16.
  intros i Hi. rewrite !enable_option_bits by exact Hi.
  now destruct (Z.testbit options i), (i =? option_index option).
Qed.

Lemma enable_option_sets_one_bit_witness :
  enable_option 4 NO_FORWARD = 6
  /\ option_enabled (enable_option (-32768) NO_FORWARD) NO_FORWARD = true.
Proof.
  split.
  - reflexivity.
  - destruct (enable_option_sets_one_bit (-32768) NO_FORWARD) as (H & _);
      [unfold is_int16; lia | exact H].
Defined.

(** X2: [disable_option] turns its option off and touches no other bit of
    [options]: every other option reads as before, an option that is
    already off leaves the value as it is, and disabling twice is
    disabling once. *)
Theorem disable_option_clears_one_bit (options : Z) (option : Option) :
  is_int16 options ->
  option_enabled (disable_option options option) option = false
  /\ (forall other, other <> option ->
        option_enabled (disable_option options option) other
        = option_enabled options other)
  /\ (forall i, 0 <= i < 16 -> i <> option_index option ->
        Z.testbit (disable_option options option) i = Z.testbit options i)
  /\ is_int16 (disable_option options option)
  /\ (option_enabled options option = false ->
      disable_option options option = options)
  /\ disable_option (disable_option options option) option
     = disable_option options option.
Proof.
  intros Hrange.
  pose proof (option_index_range option) as Hidx.
  assert (Hother : forall i, 0 <= i < 16 -> i <> option_index option ->
            Z.testbit (disable_option options option) i = Z.testbit options i).
  { intros i Hi Hne. rewrite disable_option_bits by exact Hi.
    replace (i =? option_index option) with false
      by (symmetry; now apply Z.eqb_neq).
    apply andb_true_r. }
  split.
  { rewrite option_enabled_testbit, disable_option_bits by exact Hidx.
    rewrite Z.eqb_refl. apply andb_false_r. }
  split.
  { intros other Hne. rewrite !option_enabled_testbit.
    apply Hother; [apply option_index_range |].
    intros H. apply Hne. now apply option_index_inj. }
  split; [exact Hother |].
  split; [apply disable_option_int16 |].
  split.
  { intros Hoff. rewrite option_enabled_testbit in Hoff.
    apply int16_bits_eq; [apply disable_option_int16 | exact Hrange |].
    intros i Hi. rewrite disable_option_bits by exact Hi.
    destruct (Z.eqb_spec i (option_index option)) as [-> | _].
    - rewrite Hoff. reflexivity.
    - apply andb_true_r. }
  apply int16_bits_eq; try apply disable_option_int16.
  intros i Hi. rewrite !disable_option_bits by exact Hi.
  now destruct (Z.testbit options i), (i =? option_index option).
Qed.

Lemma disable_option_clears_one_bit_witness :
  option_enabled (disable_option (-1) NOSTREAMOVERRIDE) NOSTREAMOVERRIDE = false
  /\ option_enabled (disable_option (-1) NOSTREAMOVERRIDE) NO_FORWARD = true.
Proof.
  destruct (disable_option_clears_one_bit (-1) NOSTREAMOVERRIDE)
    as (H1 & H2 & _); [unfold is_int16; lia |].
  split; [exact H1 |]. rewrite H2; [reflexivity | discriminate].
Defined.

(** X3: enabling and disabling undo each other: an option that was off is
    off again, with the same value of [options], after it was enabled
    and disabled, and likewise for one that was on; and the two commute
    on different options. *)
Theorem option_round_trip (options : Z) (option : Option) :
  is_int16 options ->
  (option_enabled options option = false ->
   disable_option (enable_option options option) option = options)
  /\ (option_enabled options option = true ->
      enable_option (disable_option options option) option = options)
  /\ (forall other, other <> option ->
        disable_option (enable_option options option) other
        = enable_option (disable_option options other) option).
Proof.
  intros Hrange. split; [| split].
  - intros Hoff. rewrite option_enabled_testbit in Hoff.
    apply int16_bits_eq; [apply disable_option_int16 | exact Hrange |].
    intros i Hi. rewrite disable_option_bits, enable_option_bits by exact Hi.
    destruct (Z.eqb_spec i (option_index option)) as [-> | _].
    + rewrite Hoff. reflexivity.
    + now rewrite orb_false_r, andb_true_r.
  - intros Hon. rewrite option_enabled_testbit in Hon.
    apply int16_bits_eq; [apply enable_option_int16 | exact Hrange |].
    intros i Hi. rewrite enable_option_bits, disable_option_bits by exact Hi.
    destruct (Z.eqb_spec i (option_index option)) as [-> | _].
    + rewrite Hon. reflexivity.
    + now rewrite orb_false_r, andb_true_r.
  - intros other Hne.
    apply int16_bits_eq; [apply disable_option_int16 | apply enable_option_int16 |].
    intros i Hi.
    rewrite disable_option_bits, !enable_option_bits, disable_option_bits by exact Hi.
    assert (Hidx : option_index other <> option_index option).
    { intros H. apply Hne. now apply option_index_inj. }
    destruct (Z.eqb_spec i (option_index option)) as [E1 | _];
      destruct (Z.eqb_spec i (option_index other)) as [E2 | _];
      try (exfalso; congruence);
      now destruct (Z.testbit options i).
Qed.

Lemma option_round_trip_witness :
  disable_option (enable_option 5 NO_FORWARD) NO_FORWARD = 5
  /\ enable_option (disable_option 7 NO_FORWARD) NO_FORWARD = 7.
Proof.
  destruct (option_round_trip 5 NO_FORWARD) as (H1 & _); [unfold is_int16; lia |].
  destruct (option_round_trip 7 NO_FORWARD) as (_ & H2 & _); [unfold is_int16; lia |].
  split; [apply H1 | apply H2]; reflexivity.
Defined.

(** ** Channel masks *)

Lemma uint8_high_bits (mask i : Z) :
  is_uint8 mask -> 8 <= i -> Z.testbit mask i = false.
Proof.
  intros Hm Hi. unfold is_uint8 in Hm.
  rewrite <- (Z.mod_small mask (2 ^ 8)) by lia.
  apply Z.mod_pow2_bits_high. lia.
Qed.

Lemma shift_one_uint32 (n : Z) : 0 <= n < 32 -> to_uint32 (Z.shiftl 1 n) = 2 ^ n.
Proof.
  intros Hn. rewrite Z.shiftl_1_l. apply to_uint32_small.
  unfold is_uint32. split; [apply Z.pow_nonneg; lia |].
  apply Z.pow_lt_mono_r; lia.
Qed.

(** X4: [is_private] and [is_active] read one bit of their 8-bit mask, the
    one numbered by the channel, wherever the shift in them is defined:
    [is_private] answers the bit of the channel when the channel,
    converted to [unsigned], is below 32, and [is_active] the bit of the
    offset of the channel from [MAVLINK_COMM_0] when that is from 0 to
    30; outside these ranges the shift is undefined and there is no
    answer.  Inside them a channel numbered 8 or more is never private
    and never active, two masks that agree on the bit of the channel
    give the same answer, and [is_active] looks at the bit that
    [is_private] reads for the offset. *)
Theorem channel_mask_reads_one_bit (mask comm0 chan : Z) :
  is_uint8 mask ->
  is_private mask chan
  = (if to_uint32 chan <? 32 then Some (Z.testbit mask (to_uint32 chan))
     else None)
  /\ is_active mask comm0 chan
     = (if (0 <=? chan - comm0) && (chan - comm0 <? 31)
        then Some (Z.testbit mask (chan - comm0)) else None)
  /\ (0 <= chan < 32 -> is_private mask chan = Some (Z.testbit mask chan))
  /\ (8 <= chan < 32 -> is_private mask chan = Some false)
  /\ (8 <= chan - comm0 < 31 -> is_active mask comm0 chan = Some false)
  /\ (32 <= chan < 2 ^ 32 -> is_private mask chan = None)
  /\ (31 <= chan - comm0 -> is_active mask comm0 chan = None)
  /\ (0 <= chan - comm0 < 31 ->
      is_active mask comm0 chan = is_private mask (chan - comm0))
  /\ (forall mask',
        Z.testbit mask' (to_uint32 chan) = Z.testbit mask (to_uint32 chan) ->
        is_private mask' chan = is_private mask chan)
  /\ (forall mask',
        Z.testbit mask' (chan - comm0) = Z.testbit mask (chan - comm0) ->
        is_active mask' comm0 chan = is_active mask comm0 chan).
Proof.
  intros Hm.
  assert (Hp : forall m c,
             is_private m c
             = if to_uint32 c <? 32 then Some (Z.testbit m (to_uint32 c))
               else None).
  { intros m c. unfold is_private. cbv zeta.
    destruct (to_uint32 c <? 32) eqn:E; [| reflexivity].
    pose proof (to_uint32_range c) as Hr. unfold is_uint32 in Hr.
    rewrite shift_one_uint32 by lia.
    f_equal. apply land_pow2_nonzero. lia. }
  assert (Hps : forall m c, 0 <= c < 32 -> is_private m c = Some (Z.testbit m c)).
  { intros m c Hc. rewrite Hp.
    rewrite (to_uint32_small c) by (unfold is_uint32; lia).
    destruct (c <? 32) eqn:E; [reflexivity | lia]. }
  assert (Ha : forall m,
             is_active m comm0 chan
             = if (0 <=? chan - comm0) && (chan - comm0 <? 31)
               then Some (Z.testbit m (chan - comm0)) else None).
  { intros m. unfold is_active. cbv zeta.
    destruct ((0 <=? chan - comm0) && (chan - comm0 <? 31)) eqn:E;
      [| reflexivity].
    rewrite Z.shiftl_1_l. f_equal. apply land_pow2_nonzero. lia. }
  split; [apply Hp |]. split; [apply Ha |].
  split; [apply Hps |].
  split.
  { intros Hc. rewrite Hps by lia. f_equal.
    apply uint8_high_bits; [exact Hm | lia]. }
  split.
  { intros Hc. rewrite Ha.
    destruct ((0 <=? chan - comm0) && (chan - comm0 <? 31)) eqn:E; [| lia].
    f_equal. apply uint8_high_bits; [exact Hm | lia]. }
  split.
  { intros Hc. rewrite Hp.
    rewrite (to_uint32_small chan) by (unfold is_uint32; lia).
    destruct (chan <? 32) eqn:E; [lia | reflexivity]. }
  split.
  { intros Hc. rewrite Ha.
    destruct ((0 <=? chan - comm0) && (chan - comm0 <? 31)) eqn:E;
      [lia | reflexivity]. }
  split.
  { intros Hc. rewrite Ha, Hps by lia.
    destruct ((0 <=? chan - comm0) && (chan - comm0 <? 31)) eqn:E;
      [reflexivity | lia]. }
  split.
  { intros mask' H. rewrite !Hp. now rewrite H. }
  intros mask' H. rewrite !Ha. now rewrite H.
Qed.

Lemma channel_mask_reads_one_bit_witness :
  is_private 5 2 = Some true /\ is_active 5 0 1 = Some false
  /\ is_private 255 9 = Some false.
Proof.
  split; [| split].
  - destruct (channel_mask_reads_one_bit 5 0 2) as (H & _);
      [unfold is_uint8; lia |].
    exact H.
  - destruct (channel_mask_reads_one_bit 5 0 1) as (_ & H & _);
      [unfold is_uint8; lia |].
    exact H.
  - destruct (channel_mask_reads_one_bit 255 0 9) as (_ & _ & _ & H & _);
      [unfold is_uint8; lia |].
    apply H. lia.
Defined.

Lemma disable_channel_routing_bits (w mask comm0 chan i : Z) :
  0 <= chan - comm0 < 32 -> 0 <= i < w ->
  Z.testbit (disable_channel_routing w mask comm0 chan) i
  = Z.testbit mask i || (i =? chan - comm0).
Proof.
  intros Hc Hi. unfold disable_channel_routing.
  rewrite Z.mod_pow2_bits_low by lia.
  rewrite Z.lor_spec, shift_one_uint32 by exact Hc.
  rewrite Z.pow2_bits_eqb by lia. now rewrite (Z.eqb_sym i).
Qed.

Lemma unsigned_bits_eq (w a b : Z) :
  0 <= w -> 0 <= a < 2 ^ w -> 0 <= b < 2 ^ w ->
  (forall i, 0 <= i < w -> Z.testbit a i = Z.testbit b i) -> a = b.
Proof.
  intros Hw Ha Hb Hbits.
  rewrite <- (Z.mod_small a (2 ^ w)), <- (Z.mod_small b (2 ^ w)) by lia.
  apply Z.bits_inj'. intros n Hn.
  destruct (Z.lt_ge_cases n w) as [Hlt | Hge].
  - rewrite !Z.mod_pow2_bits_low by lia. apply Hbits. lia.
  - rewrite !Z.mod_pow2_bits_high by lia. reflexivity.
Qed.

Lemma disable_channel_routing_range (w mask comm0 chan : Z) :
  0 <= w -> 0 <= disable_channel_routing w mask comm0 chan < 2 ^ w.
Proof.
  intros Hw. unfold disable_channel_routing.
  apply Z.mod_pos_bound. apply Z.pow_pos_nonneg; lia.
Qed.

(** X5: [disable_channel_routing] sets the bit of its channel in the
    no-route mask and leaves every other bit alone: routing that is
    blocked stays blocked, blocking twice is blocking once, and the
    order in which channels are blocked does not matter. *)
Theorem disable_channel_routing_sets_one_bit (w mask comm0 chan : Z) :
  0 <= mask < 2 ^ w ->
  0 <= chan - comm0 < 32 ->
  w <= 32 ->
  (chan - comm0 < w ->
   Z.testbit (disable_channel_routing w mask comm0 chan) (chan - comm0) = true)
  /\ (forall i, 0 <= i < w -> Z.testbit mask i = true ->
        Z.testbit (disable_channel_routing w mask comm0 chan) i = true)
  /\ (forall i, 0 <= i < w -> i <> chan - comm0 ->
        Z.testbit (disable_channel_routing w mask comm0 chan) i
        = Z.testbit mask i)
  /\ disable_channel_routing w (disable_channel_routing w mask comm0 chan)
       comm0 chan
     = disable_channel_routing w mask comm0 chan
  /\ (forall chan', 0 <= chan' - comm0 < 32 ->
        disable_channel_routing w (disable_channel_routing w mask comm0 chan)
          comm0 chan'
        = disable_channel_routing w (disable_channel_routing w mask comm0 chan')
            comm0 chan).
Proof.
  intros Hm Hc Hw.
  assert (Hw0 : 0 <= w).
  { destruct (Z.lt_ge_cases w 0) as [H | H]; [| exact H].
    rewrite Z.pow_neg_r in Hm by exact H. lia. }
  split.
  { intros Hlt. rewrite disable_channel_routing_bits by lia.
    rewrite Z.eqb_refl. apply orb_true_r. }
  split.
  { intros i Hi Hset. rewrite disable_channel_routing_bits by lia.
    now rewrite Hset. }
  split.
  { intros i Hi Hne. rewrite disable_channel_routing_bits by lia.
    replace (i =? chan - comm0) with false by (symmetry; now apply Z.eqb_neq).
    apply orb_false_r. }
  split.
  { apply (unsigned_bits_eq w); try apply disable_channel_routing_range;
      try exact Hw0.
    intros i Hi. rewrite !disable_channel_routing_bits by lia.
    now destruct (Z.testbit mask i), (i =? chan - comm0). }
  intros chan' Hc'.
  apply (unsigned_bits_eq w); try apply disable_channel_routing_range;
    try exact Hw0.
  intros i Hi. rewrite !disable_channel_routing_bits by lia.
  now destruct (Z.testbit mask i), (i =? chan - comm0), (i =? chan' - comm0).
Qed.

Lemma disable_channel_routing_sets_one_bit_witness :
  disable_channel_routing 8 5 0 1 = 7
  /\ disable_channel_routing 8 (disable_channel_routing 8 5 0 1) 0 1 = 7.
Proof.
  destruct (disable_channel_routing_sets_one_bit 8 5 0 1) as (_ & _ & _ & H & _);
    [simpl; lia | lia | lia |].
  split; [reflexivity |]. rewrite H. reflexivity.
Defined.

(** ** The sequence number of the available modes *)

Lemma available_modes_changed_iter (seq : Z) (n : nat) :
  Nat.iter n available_modes_changed seq = to_uint8 (seq + Z.of_nat n)
  \/ (n = 0%nat /\ Nat.iter n available_modes_changed seq = seq).
Proof.
  induction n as [| n IH]; [right; auto |]. left.
  change (Nat.iter (S n) available_modes_changed seq)
    with (available_modes_changed (Nat.iter n available_modes_changed seq)).
  destruct IH as [-> | [-> ->]].
  - unfold available_modes_changed, to_uint8.
    rewrite Zplus_mod_idemp_l. f_equal. lia.
  - unfold available_modes_changed. f_equal.
Qed.

(** X6: each call of [available_modes_changed] changes the sequence number,
    an 8-bit counter that wraps: after [n] changes it is the old number
    plus [n] modulo 256, so a reader that remembers the old number
    misses the changes exactly when their count is a multiple of 256. *)
Theorem available_modes_sequence_wraps (seq : Z) (n : nat) :
  is_uint8 seq ->
  available_modes_changed seq <> seq
  /\ is_uint8 (available_modes_changed seq)
  /\ Nat.iter n available_modes_changed seq = to_uint8 (seq + Z.of_nat n)
  /\ (Nat.iter n available_modes_changed seq = seq <-> Z.of_nat n mod 256 = 0).
Proof.
  intros Hs. unfold is_uint8 in Hs. change (2 ^ 8) with 256 in Hs.
  assert (Hiter : Nat.iter n available_modes_changed seq
                  = to_uint8 (seq + Z.of_nat n)).
  { destruct (available_modes_changed_iter seq n) as [H | [-> H]]; [exact H |].
    rewrite H. unfold to_uint8. rewrite Z.add_0_r.
    symmetry. apply Z.mod_small. exact Hs. }
  assert (Hwrap : forall k, 0 <= k -> (to_uint8 (seq + k) = seq <-> k mod 256 = 0)).
  { intros k Hk. unfold to_uint8. change (2 ^ 8) with 256.
    pose proof (Z.div_mod (seq + k) 256 ltac:(lia)) as D1.
    pose proof (Z.mod_pos_bound (seq + k) 256 ltac:(lia)) as R1.
    pose proof (Z.div_mod k 256 ltac:(lia)) as D2.
    pose proof (Z.mod_pos_bound k 256 ltac:(lia)) as R2.
    split; intros H; lia. }
  split.
  { intros H. apply (Hwrap 1) in H; [| lia]. discriminate. }
  split; [apply to_uint8_range |].
  split; [exact Hiter |].
  rewrite Hiter. apply Hwrap. lia.
Qed.

Lemma available_modes_sequence_wraps_witness :
  Nat.iter 3 available_modes_changed 254 = 1
  /\ available_modes_changed 255 = 0.
Proof.
  destruct (available_modes_sequence_wraps 254 3) as (_ & _ & H & _);
    [unfold is_uint8; lia |].
  split; [rewrite H; reflexivity | reflexivity].
Defined.

(** ** The singleton *)

Lemma construct_all_keeps (objects : list nat) (first : nat) :
  construct_all false objects (Some first) = Constructed (Some first).
Proof. induction objects as [| this rest IH]; simpl; auto. Qed.

(** X7: the first [GCS] object constructed is the singleton for good: on a
    board no later construction replaces it, whatever the number of
    objects, and in SITL a second construction panics instead. *)
Theorem first_gcs_is_the_singleton (first second : nat) (rest : list nat) :
  construct_all false (first :: rest) None = Constructed (Some first)
  /\ construct_all true [first] None = Constructed (Some first)
  /\ construct_all true (first :: second :: rest) None = Panic
  /\ GCS_construct false second (Some first) = Constructed (Some first)
  /\ GCS_construct true second (Some first) = Panic.
Proof.
  split; [simpl; apply construct_all_keeps |].
  repeat split; reflexivity.
Qed.

(** ** Callers of [chan] *)

(** X8: [chan] answers a backend only for an offset below [num_gcs()], and
    then the entry of [_chan] at that offset; with [_num_gcs] counting
    entries of the array, no offset makes it read past the end. *)
Theorem chan_answers_only_configured_backends (g : GCS) (ofs : Z)
    (link : GCS_MAVLINK) :
  is_uint8 ofs ->
  (chan g ofs = Read (Some link) ->
   ofs < num_gcs g /\ _chan g !! Z.to_nat ofs = Some (Some link))
  /\ (_num_gcs g <= Z.of_nat (length (_chan g)) -> chan g ofs <> OutOfBounds).
Proof.
  intros Hofs. unfold chan, num_gcs. split.
  - intros H. destruct (ofs >=? _num_gcs g) eqn:E; [discriminate |].
    split; [lia |].
    destruct (_chan g !! Z.to_nat ofs) as [p |]; [| discriminate].
    now injection H as ->.
  - intros Hlen. destruct (ofs >=? _num_gcs g) eqn:E; [discriminate |].
    destruct (lookup_lt_is_Some_2 (_chan g) (Z.to_nat ofs)) as [p Hp].
    + unfold is_uint8 in Hofs. lia.
    + rewrite Hp. discriminate.
Qed.

Lemma chan_answers_only_configured_backends_witness :
  chan (mk_gcs 1 [Some small_link; Some small_link]) 1 = Read nullptr
  /\ chan (mk_gcs 1 [Some small_link; Some small_link]) 0 <> OutOfBounds.
Proof.
  split; [reflexivity |].
  destruct (chan_answers_only_configured_backends
              (mk_gcs 1 [Some small_link; Some small_link]) 0 small_link)
    as (_ & H); [unfold is_uint8; lia |].
  apply H. simpl. lia.
Defined.

Lemma chan_zero_cases (g : GCS) :
  _num_gcs g <= Z.of_nat (length (_chan g)) ->
  (_num_gcs g <= 0 /\ chan g 0 = Read nullptr)
  \/ (0 < _num_gcs g
      /\ exists p, _chan g !! 0%nat = Some p /\ chan g 0 = Read p).
Proof.
  intros Hlen. unfold chan.
  destruct (0 >=? _num_gcs g) eqn:E; [left; split; [lia | reflexivity] |].
  right. split; [lia |].
  destruct (lookup_lt_is_Some_2 (_chan g) 0) as [p Hp]; [lia |].
  exists p. change (Z.to_nat 0) with 0%nat. now rewrite Hp.
Qed.

(** X9: [get_hud_throttle] is safe without any backend: with no channel
    configured, or a null first entry, it answers 0; otherwise it
    answers what the first backend reports, 0 by default; and it reads
    within [_chan] as long as [_num_gcs] counts entries of the array. *)
Theorem get_hud_throttle_without_backend (vfr : GCS_MAVLINK -> Z) (g : GCS) :
  _num_gcs g <= Z.of_nat (length (_chan g)) ->
  (_num_gcs g <= 0 -> get_hud_throttle vfr g = Read 0)
  /\ (exists v, get_hud_throttle vfr g = Read v)
  /\ (forall link, 0 < _num_gcs g -> _chan g !! 0%nat = Some (Some link) ->
        get_hud_throttle vfr g = Read (vfr link))
  /\ (0 < _num_gcs g -> _chan g !! 0%nat = Some None ->
      get_hud_throttle vfr g = Read 0)
  /\ get_hud_throttle vfr_hud_throttle_default g = Read 0.
Proof.
  intros Hlen.
  unfold get_hud_throttle.
  destruct (chan_zero_cases g Hlen) as [[Hz Hc] | [Hpos (p & Hp & Hc)]]; rewrite Hc.
  - split; [reflexivity |]. split; [eauto |].
    split; [intros; lia |]. split; [intros; lia | reflexivity].
  - split; [intros; lia |].
    split; [destruct p; eauto |].
    split; [intros link _ Hl; rewrite Hp in Hl; now injection Hl as -> |].
    split; [intros _ Hl; rewrite Hp in Hl; now injection Hl as -> |].
    now destruct p.
Qed.

Lemma get_hud_throttle_without_backend_witness :
  get_hud_throttle (fun _ => 42) (mk_gcs 0 [None; None]) = Read 0
  /\ get_hud_throttle (fun _ => 42) (mk_gcs 1 [Some small_link; None]) = Read 42.
Proof.
  split.
  - destruct (get_hud_throttle_without_backend (fun _ => 42) (mk_gcs 0 [None; None]))
      as (H & _); [simpl; lia |].
    apply H. simpl. lia.
  - destruct (get_hud_throttle_without_backend (fun _ => 42)
                (mk_gcs 1 [Some small_link; None])) as (_ & _ & H & _);
      [simpl; lia |].
    apply (H small_link); [simpl; lia | reflexivity].
Defined.

(** ** More on admission *)

Lemma PAYLOAD_SIZE_bounds (f : framing) (s : GCS_MAVLINK) (len : Z) :
  is_uint16 len -> len <= PAYLOAD_SIZE f s len <= len + 255.
Proof.
  intros Hlen. unfold PAYLOAD_SIZE.
  rewrite (required_bytes_exact f s len Hlen).
  pose proof (packet_overhead_chan_range f s) as Ho.
  unfold is_uint8 in Ho. lia.
Qed.

Lemma txspace_at_most_8192 (s : GCS_MAVLINK) :
  0 <= port_txspace s -> 0 <= txspace s <= 8192.
Proof.
  intros Hp. unfold txspace. destruct (_locked s); [lia |].
  rewrite to_uint16_small; [lia | unfold is_uint16; lia].
Qed.

(** X10: the bytes a message needs are its length plus at most 255 bytes of
    overhead, so the check never admits a message longer than 8192
    bytes, however much space the port reports. *)
Theorem oversized_message_is_never_admitted (f : framing) (s : GCS_MAVLINK)
    (len : Z) :
  is_uint16 len ->
  0 <= port_txspace s ->
  len <= PAYLOAD_SIZE f s len <= len + 255
  /\ (8192 < len ->
      HAVE_PAYLOAD_SPACE f s len = (false, out_of_space_to_send s)
      /\ send_mission_ack f s len = out_of_space_to_send s).
Proof.
  intros Hlen Hport.
  pose proof (PAYLOAD_SIZE_bounds f s len Hlen) as Hb.
  split; [exact Hb |].
  intros Hbig.
  pose proof (txspace_at_most_8192 s Hport) as Ht.
  assert (Hno : txspace s < PAYLOAD_SIZE f s len) by lia.
  split; [now apply HAVE_PAYLOAD_SPACE_false |].
  destruct (send_mission_ack_log f s len) as [[H _] | [_ H]]; [lia | exact H].
Qed.

Lemma oversized_message_is_never_admitted_witness :
  fst (HAVE_PAYLOAD_SPACE mavlink2_framing (with_port_txspace 4000000 small_link) 9000)
  = false.
Proof.
  destruct (oversized_message_is_never_admitted mavlink2_framing
              (with_port_txspace 4000000 small_link) 9000) as (_ & H);
    [unfold is_uint16; lia | simpl; lia |].
  destruct H as (H & _); [lia |]. now rewrite H.
Defined.

(** X11: admission is monotone: a message that is admitted is still admitted
    when the port of the unlocked channel reports more space, and every
    shorter message is admitted with it. *)
Theorem admission_is_monotone (f : framing) (s : GCS_MAVLINK) (len : Z) :
  is_uint16 len ->
  fst (HAVE_PAYLOAD_SPACE f s len) = true ->
  (forall shorter, 0 <= shorter <= len ->
     HAVE_PAYLOAD_SPACE f s shorter = (true, s))
  /\ (forall more, locked s = false -> 0 <= port_txspace s <= more ->
        HAVE_PAYLOAD_SPACE f (with_port_txspace more s) len
        = (true, with_port_txspace more s)).
Proof.
  intros Hlen Hfit.
  assert (Hle : PAYLOAD_SIZE f s len <= txspace s).
  { destruct (Z.lt_ge_cases (txspace s) (PAYLOAD_SIZE f s len)) as [H | H];
      [| exact H].
    rewrite (HAVE_PAYLOAD_SPACE_false f s len H) in Hfit. discriminate. }
  unfold PAYLOAD_SIZE in Hle. rewrite (required_bytes_exact f s len Hlen) in Hle.
  split.
  - intros shorter Hs. apply HAVE_PAYLOAD_SPACE_true.
    unfold PAYLOAD_SIZE. rewrite required_bytes_exact; [lia |].
    unfold is_uint16 in *. lia.
  - intros more Hl Hmore. apply HAVE_PAYLOAD_SPACE_true.
    unfold PAYLOAD_SIZE.
    change (packet_overhead_chan f (with_port_txspace more s))
      with (packet_overhead_chan f s).
    rewrite (required_bytes_exact f s len Hlen).
    unfold locked in Hl. unfold txspace in *. simpl. rewrite Hl in *.
    assert (Hmin : Z.min (port_txspace s) 8192 <= Z.min more 8192) by lia.
    rewrite to_uint16_small in Hle by (unfold is_uint16; lia).
    rewrite to_uint16_small by (unfold is_uint16; lia). lia.
Qed.

Lemma admission_is_monotone_witness :
  HAVE_PAYLOAD_SPACE mavlink2_framing small_link 9 = (true, small_link).
Proof.
  destruct (admission_is_monotone mavlink2_framing small_link 28) as (H & _);
    [unfold is_uint16; lia | reflexivity |].
  apply H. lia.
Defined.

(** X12: a locked channel admits nothing that needs any byte: the check
    succeeds exactly for a requirement of 0 bytes, and every checked
    send of more counts a failure and writes nothing. *)
Theorem locked_channel_admits_nothing (f : framing) (s : GCS_MAVLINK) (len : Z) :
  locked s = true ->
  (fst (HAVE_PAYLOAD_SPACE f s len) = true <-> PAYLOAD_SIZE f s len = 0)
  /\ (0 < PAYLOAD_SIZE f s len ->
      HAVE_PAYLOAD_SPACE f s len = (false, out_of_space_to_send s)
      /\ send_mission_ack f s len = out_of_space_to_send s
      /\ tx_log (send_mission_ack f s len) = tx_log s).
Proof.
  intros Hl. unfold locked in Hl.
  pose proof (txspace_locked s Hl) as Ht.
  pose proof (to_uint32_range (packet_overhead_chan f s + len)) as Hr.
  fold (PAYLOAD_SIZE f s len) in Hr. unfold is_uint32 in Hr.
  split.
  - split.
    + intros Hfit.
      destruct (Z.lt_ge_cases (txspace s) (PAYLOAD_SIZE f s len)) as [H | H];
        [| lia].
      rewrite (HAVE_PAYLOAD_SPACE_false f s len H) in Hfit. discriminate.
    + intros Hz. rewrite HAVE_PAYLOAD_SPACE_true; [reflexivity | lia].
  - intros Hpos.
    assert (Hno : txspace s < PAYLOAD_SIZE f s len) by lia.
    split; [now apply HAVE_PAYLOAD_SPACE_false |].
    destruct (send_mission_ack_log f s len) as [[H _] | [_ H]]; [lia |].
    split; [exact H | now rewrite H].
Qed.

Lemma locked_channel_admits_nothing_witness :
  send_mission_ack mavlink2_framing (lock true small_link) 4
  = out_of_space_to_send (lock true small_link).
Proof.
  destruct (locked_channel_admits_nothing mavlink2_framing (lock true small_link) 4)
    as (_ & H); [reflexivity |].
  destruct H as (_ & H & _); [vm_compute; reflexivity | exact H].
Defined.

Lemma failed_checks_iter (f : framing) (s : GCS_MAVLINK) (len : Z) (n : nat) :
  is_uint16 (out_of_space_to_send_count s) ->
  txspace s < PAYLOAD_SIZE f s len ->
  Nat.iter n (fun s => snd (HAVE_PAYLOAD_SPACE f s len)) s
  = with_out_of_space (to_uint16 (out_of_space_to_send_count s + Z.of_nat n)) s.
Proof.
  intros Hc Hlt. induction n as [| n IH].
  - simpl. rewrite Z.add_0_r, to_uint16_small by exact Hc.
    symmetry. apply with_out_of_space_self.
  - change (Nat.iter (S n) (fun s => snd (HAVE_PAYLOAD_SPACE f s len)) s)
      with (snd (HAVE_PAYLOAD_SPACE f
                   (Nat.iter n (fun s => snd (HAVE_PAYLOAD_SPACE f s len)) s) len)).
    rewrite IH.
    rewrite HAVE_PAYLOAD_SPACE_false by exact Hlt.
    unfold out_of_space_to_send, with_out_of_space. simpl. f_equal.
    unfold to_uint16. rewrite Zplus_mod_idemp_l. f_equal. lia.
Qed.

(** X13: a failed check leaves the transmit space and the requirement as
    they were, so repeating it fails again: after [n] repetitions the
    counter has gone up by [n] modulo 2^16 and no other member has
    changed. *)
Theorem repeated_failures_are_counted (f : framing) (s : GCS_MAVLINK) (len : Z)
    (n : nat) :
  is_uint16 (out_of_space_to_send_count s) ->
  fst (HAVE_PAYLOAD_SPACE f s len) = false ->
  let again := Nat.iter n (fun s => snd (HAVE_PAYLOAD_SPACE f s len)) s in
  again = with_out_of_space
            (to_uint16 (out_of_space_to_send_count s + Z.of_nat n)) s
  /\ out_of_space_to_send_count again
     = to_uint16 (out_of_space_to_send_count s + Z.of_nat n)
  /\ tx_log again = tx_log s
  /\ fst (HAVE_PAYLOAD_SPACE f again len) = false.
Proof.
  intros Hc Hfail again.
  assert (Hlt : txspace s < PAYLOAD_SIZE f s len).
  { destruct (Z.lt_ge_cases (txspace s) (PAYLOAD_SIZE f s len)) as [H | H];
      [exact H |].
    rewrite (HAVE_PAYLOAD_SPACE_true f s len H) in Hfail. discriminate. }
  assert (Hagain : again = with_out_of_space
                     (to_uint16 (out_of_space_to_send_count s + Z.of_nat n)) s)
    by (apply failed_checks_iter; assumption).
  split; [exact Hagain |].
  split; [now rewrite Hagain |].
  split; [now rewrite Hagain |].
  rewrite Hagain. now rewrite HAVE_PAYLOAD_SPACE_false by exact Hlt.
Qed.

Lemma repeated_failures_are_counted_witness :
  out_of_space_to_send_count
    (Nat.iter 3
       (fun s => snd (HAVE_PAYLOAD_SPACE mavlink2_framing s 28))
       (with_out_of_space 65534 (with_port_txspace 39 small_link)))
  = 1.
Proof.
  destruct (repeated_failures_are_counted mavlink2_framing
              (with_out_of_space 65534 (with_port_txspace 39 small_link)) 28 3)
    as (_ & H & _); [unfold is_uint16; simpl; lia | reflexivity |].
  rewrite H. reflexivity.
Defined.

(** ** Checked sends *)

(** X14: [send_message] does one of two things and never both: it writes one
    admitted frame and leaves the counter alone, or it counts one
    failure and writes nothing.  Either way the lock, the framing state,
    the special timers, the buckets and the sweep are as before. *)
Theorem send_message_writes_or_counts (f : framing) (s : GCS_MAVLINK)
    (entry : mavlink_msg_entry_t) :
  let s' := send_message f s entry in
  ((exists r, tx_log s' = r :: tx_log s /\ admitted r
              /\ tx_available r = txspace s
              /\ out_of_space_to_send_count s' = out_of_space_to_send_count s)
   \/ (tx_log s' = tx_log s
       /\ out_of_space_to_send_count s'
          = to_uint16 (out_of_space_to_send_count s + 1)))
  /\ _locked s' = _locked s
  /\ out_mavlink1 s' = out_mavlink1 s
  /\ signing_outgoing s' = signing_outgoing s
  /\ deferred_message s' = deferred_message s
  /\ deferred_message_bucket s' = deferred_message_bucket s
  /\ sending_bucket_id s' = sending_bucket_id s
  /\ bucket_message_ids_to_send s' = bucket_message_ids_to_send s.
Proof.
  intros s'. unfold s', send_message.
  destruct (Z.lt_ge_cases (txspace s)
              (to_uint32 (packet_overhead f s + max_msg_len entry))) as [H | H].
  - rewrite (check_payload_size_false f s _ H). simpl.
    split; [right; split; reflexivity | repeat split].
  - rewrite (check_payload_size_true f s _ H). simpl.
    split; [| repeat split].
    left. eexists. split; [reflexivity |]. repeat split. exact H.
Qed.

(** X15: [send_message] by message id ignores an id the mavlink library does
    not know: nothing is written and no failure is counted.  For a known
    id it is the checked send of the entry, so the log grows by at most
    one frame, and only by an admitted one. *)
Theorem send_message_by_unknown_id (lookup : Z -> option mavlink_msg_entry_t)
    (f : framing) (s : GCS_MAVLINK) (msgid : Z) :
  (lookup msgid = None -> send_message_by_id lookup f s msgid = s)
  /\ (forall entry, lookup msgid = Some entry ->
        send_message_by_id lookup f s msgid = send_message f s entry)
  /\ (out_of_space_to_send_count (send_message_by_id lookup f s msgid)
      <> out_of_space_to_send_count s ->
      exists entry, lookup msgid = Some entry
                    /\ txspace s < to_uint32 (packet_overhead f s + max_msg_len entry))
  /\ (tx_log (send_message_by_id lookup f s msgid) = tx_log s
      \/ exists r, tx_log (send_message_by_id lookup f s msgid) = r :: tx_log s
                   /\ admitted r)
  /\ (Forall admitted (tx_log s) ->
      Forall admitted (tx_log (send_message_by_id lookup f s msgid))).
Proof.
  unfold send_message_by_id.
  destruct (lookup msgid) as [entry |] eqn:E.
  - split; [discriminate |].
    split; [now intros ? [= <-] |].
    destruct (send_message_log f s entry) as [[Hfit Hlog] | [Hno Hst]].
    + split.
      { intros Hc. exfalso. apply Hc.
        unfold send_message. now rewrite (check_payload_size_true f s _ Hfit). }
      split.
      { right. eexists. split; [exact Hlog | exact Hfit]. }
      intros Hall. rewrite Hlog. constructor; [exact Hfit | exact Hall].
    + split; [intros _; eauto |].
      split; [left; now rewrite Hst |].
      intros Hall. now rewrite Hst.
  - split; [reflexivity |].
    split; [discriminate |].
    split; [intros H; now contradiction H |].
    split; [now left | auto].
Qed.

Lemma send_message_by_unknown_id_witness :
  send_message_by_id small_msg_entries mavlink2_framing small_link 999 = small_link
  /\ tx_log (send_message_by_id small_msg_entries mavlink2_framing small_link 30)
     = [mk_tx 40 100].
Proof.
  destruct (send_message_by_unknown_id small_msg_entries mavlink2_framing
              small_link 999) as (H & _).
  split; [apply H; reflexivity | reflexivity].
Defined.

(** ** Locking once more *)

(** X16: of two [lock] calls the last one decides the whole state: locking
    and then unlocking a channel that was unlocked gives back the very
    state, with its transmit space, and while it is locked the transmit
    space is 0 whatever the port reports. *)
Theorem lock_then_unlock_restores (s : GCS_MAVLINK) (b b' : bool) :
  lock b' (lock b s) = lock b' s
  /\ lock (locked s) s = s
  /\ (locked s = false ->
      lock false (lock true s) = s
      /\ txspace (lock false (lock true s)) = txspace s)
  /\ (forall n, txspace (with_port_txspace n (lock true s)) = 0).
Proof.
  split; [reflexivity |].
  split; [now destruct s |].
  split; [| reflexivity].
  intros Hl. unfold locked in Hl.
  assert (H : lock false (lock true s) = s).
  { destruct s. simpl in Hl. subst. reflexivity. }
  split; [exact H | now rewrite H].
Qed.

Lemma lock_then_unlock_restores_witness :
  lock false (lock true small_link) = small_link.
Proof.
  destruct (lock_then_unlock_restores small_link true false) as (_ & _ & H & _).
  destruct H as (H & _); [reflexivity | exact H].
Defined.
